(** * DigiPIN codec: a shallow embedding of [digipin.js]

    The embedding follows the source function by function.  JavaScript
    strings are lists of characters, the [null] result is [None], a
    [TypeError] is [Throw].  The arithmetic of the codec is written once,
    over an interface [JsNumber], and run on two number systems:

    - [IEEE]: binary64 floating point with round-to-nearest-even, which is
      what a JavaScript [Number] is;
    - [Exact]: the rationals, the arithmetic the algorithm is designed in. *)

From Stdlib Require Import Bool List Ascii String ZArith NArith QArith Qround
  Qpower Lia Lqa Floats Uint63.
Import ListNotations.

(** ** Strings *)

(** The characters of the strings: the 256 characters from U+0000 to
    U+00FF, and the two characters outside them that upper-casing one of
    them yields, U+0178 (capital Y with diaeresis, from U+00FF) and U+039C
    (Greek capital mu, from the micro sign U+00B5).  Each is one UTF-16
    code unit, so the length of a string is the length of the list. *)
Inductive jchar : Type :=
| Latin1 (c : ascii)
| U0178
| U039C.

Coercion Latin1 : ascii >-> jchar.

Definition jchar_eqb (a b : jchar) : bool :=
  match a, b with
  | Latin1 x, Latin1 y => Ascii.eqb x y
  | U0178, U0178 => true
  | U039C, U039C => true
  | _, _ => false
  end.

(** A JavaScript string over these characters. *)
Definition jstring := list jchar.

Definition str (s : string) : jstring := map Latin1 (list_ascii_of_string s).

Definition hyphen : jchar := "-"%char.

(** [s.replace(/-/g, '')] *)
Definition removeHyphens (s : jstring) : jstring :=
  filter (fun c => negb (jchar_eqb c hyphen)) s.

(** What [String.prototype.toUpperCase] makes of one character, by the
    Unicode case mappings: [a-z] and the lower-case letters from U+00E0 to
    U+00FE (the division sign U+00F7 is not one) move down by 32; the sharp
    s U+00DF becomes the two letters [SS]; U+00FF and U+00B5 leave the
    8-bit range; every other character stays. *)
Definition upperChar (c : jchar) : jstring :=
  match c with
  | Latin1 a =>
      let n := nat_of_ascii a in
      if ((97 <=? n) && (n <=? 122))%nat then [Latin1 (ascii_of_nat (n - 32))]
      else if (n =? 181)%nat then [U039C]
      else if (n =? 223)%nat then [Latin1 "S"; Latin1 "S"]
      else if ((224 <=? n) && (n <=? 254) && negb (n =? 247))%nat
           then [Latin1 (ascii_of_nat (n - 32))]
      else if (n =? 255)%nat then [U0178]
      else [c]
  | U0178 | U039C => [c]
  end.

(** [s.toUpperCase()] *)
Definition toUpperCase (s : jstring) : jstring := flat_map upperChar s.

(** [s.slice(a, b)] for literal bounds [0 <= a <= b] *)
Definition slice (a b : nat) (s : jstring) : jstring :=
  firstn (b - a) (skipn a s).

(** The template literal [`${s.slice(0, 3)}-${s.slice(3, 6)}-${s.slice(6, 10)}`] *)
Definition hyphenate (s : jstring) : jstring :=
  slice 0 3 s ++ hyphen :: slice 3 6 s ++ hyphen :: slice 6 10 s.

(** The normalisation shared by [decodeDigipin], [isValidDigipin] and
    [formatDigipin]: [x.replace(/-/g, '').toUpperCase()] *)
Definition normalize (s : jstring) : jstring := toUpperCase (removeHyphens s).

(** ** The symbol grid and its reverse table *)

Definition DIGIPIN_GRID : list (list jchar) :=
  [ [Latin1 "F"; Latin1 "C"; Latin1 "9"; Latin1 "8"];
    [Latin1 "J"; Latin1 "3"; Latin1 "2"; Latin1 "7"];
    [Latin1 "K"; Latin1 "4"; Latin1 "5"; Latin1 "6"];
    [Latin1 "L"; Latin1 "M"; Latin1 "P"; Latin1 "T"] ]%char.

(** A JavaScript object used as a map from one-character keys to
    [[row, col]] pairs; an assignment replaces an earlier one for the key. *)
Definition table := list (jchar * (nat * nat)).

Definition table_set (t : table) (k : jchar) (v : nat * nat) : table :=
  (k, v) :: filter (fun kv => negb (jchar_eqb (fst kv) k)) t.

Fixpoint table_get (t : table) (k : jchar) : option (nat * nat) :=
  match t with
  | [] => None
  | (k', v) :: t' => if jchar_eqb k' k then Some v else table_get t' k
  end.

(** The two nested loops that fill [CHAR_TO_POS]. *)
Definition CHAR_TO_POS : table :=
  fold_left (fun t row =>
    fold_left (fun t col =>
      match nth_error DIGIPIN_GRID row with
      | Some line =>
          match nth_error line col with
          | Some ch => table_set t ch (row, col)
          | None => t
          end
      | None => t
      end) (seq 0 4) t) (seq 0 4) [].

(** The validation loop of [decodeDigipin] and [isValidDigipin]:
    [!CHAR_TO_POS[char]] holds for some [char] of [pin]. *)
Definition has_unknown_char (pin : jstring) : bool :=
  existsb (fun char =>
    match table_get CHAR_TO_POS char with Some _ => false | None => true end) pin.

(** ** Completions *)

Inductive completion (A : Type) : Type :=
| Normal (v : A)
| Throw.
Arguments Normal {A} v.
Arguments Throw {A}.

Definition bind {A B} (c : completion A) (k : A -> completion B) : completion B :=
  match c with
  | Normal v => k v
  | Throw => Throw
  end.

Notation "x <- c ;; k" := (bind c (fun x => k))
  (at level 61, c at next level, right associativity).

Fixpoint for_each {S : Type} (levels : list nat)
    (body : nat -> S -> completion S) (s : S) : completion S :=
  match levels with
  | [] => Normal s
  | level :: rest => s' <- body level s ;; for_each rest body s'
  end.

(** ** Numbers *)

(** The operations of a JavaScript [Number] that the codec uses.  [lit]
    reads a numeric literal; [jlt a b] is [a < b] (and [b > a]), [jle a b]
    is [a <= b] (and [b >= a]); [array_index x] is the array index that the
    property key of [x] denotes, if it denotes one. *)
Class JsNumber (num : Type) : Type := {
  lit : Q -> num;
  jadd : num -> num -> num;
  jsub : num -> num -> num;
  jmul : num -> num -> num;
  jdiv : num -> num -> num;
  jlt : num -> num -> bool;
  jle : num -> num -> bool;
  Math_floor : num -> num;
  Math_max : num -> num -> num;
  Math_min : num -> num -> num;
  array_index : num -> option N
}.

Declare Scope js_scope.
Delimit Scope js_scope with js.
Infix "+" := jadd : js_scope.
Infix "-" := jsub : js_scope.
Infix "*" := jmul : js_scope.
Infix "/" := jdiv : js_scope.
Infix "<" := jlt : js_scope.
Infix "<=" := jle : js_scope.
Notation "a > b" := (jlt b a) : js_scope.
Notation "a >= b" := (jle b a) : js_scope.

(** ** The codec *)

Section Codec.
Context {num : Type} {NUM : JsNumber num}.
Local Open Scope js_scope.

Definition of_nat (n : nat) : num := lit (inject_Z (Z.of_nat n)).

Definition MIN_LAT : num := lit (5 # 2).
Definition MAX_LAT : num := lit (77 # 2).
Definition MIN_LON : num := lit (127 # 2).
Definition MAX_LON : num := lit (199 # 2).

Record rect : Type := {
  minLat : num;
  maxLat : num;
  minLon : num;
  maxLon : num
}.

(** The working rectangle that both loops start from. *)
Definition REGION : rect :=
  {| minLat := MIN_LAT; maxLat := MAX_LAT; minLon := MIN_LON; maxLon := MAX_LON |}.

(** [arr[i]] for a number [i]: [undefined] is [None]. *)
Definition js_get {A : Type} (arr : list A) (i : num) : option A :=
  match array_index i with
  | Some n =>
      if (n <? N.of_nat (List.length arr))%N then nth_error arr (N.to_nat n) else None
  | None => None
  end.

(** [DIGIPIN_GRID[row][col]]: indexing [undefined] throws. *)
Definition grid_at (row col : num) : completion (option jchar) :=
  match js_get DIGIPIN_GRID row with
  | Some line => Normal (js_get line col)
  | None => Throw
  end.

(** [digipin += v] *)
Definition append_value (digipin : jstring) (v : option jchar) : jstring :=
  match v with
  | Some ch => digipin ++ [ch]
  | None => digipin ++ str "undefined"
  end.

Definition latDiv (b : rect) : num := (maxLat b - minLat b) / lit 4.
Definition lonDiv (b : rect) : num := (maxLon b - minLon b) / lit 4.

Definition clamp (x : num) : num := Math_min (lit 3) (Math_max (lit 0) x).

(** The clamped [row] and [col] of one iteration of [encodeDigipin]. *)
Definition encode_row (lat : num) (b : rect) : num :=
  clamp (Math_floor ((maxLat b - lat) / latDiv b)).
Definition encode_col (lon : num) (b : rect) : num :=
  clamp (Math_floor ((lon - minLon b) / lonDiv b)).

(** The update of the bounds, as both loops write it. *)
Definition narrow (b : rect) (row col : num) : rect :=
  let newMaxLat := maxLat b - row * latDiv b in
  let newMinLat := newMaxLat - latDiv b in
  let newMinLon := minLon b + col * lonDiv b in
  let newMaxLon := newMinLon + lonDiv b in
  {| minLat := newMinLat; maxLat := newMaxLat;
     minLon := newMinLon; maxLon := newMaxLon |}.

Definition encode_step (lat lon : num) (level : nat) (st : rect * jstring)
  : completion (rect * jstring) :=
  let '(b, digipin) := st in
  let row := encode_row lat b in
  let col := encode_col lon b in
  sym <- grid_at row col ;;
  Normal (narrow b row col, append_value digipin sym).

Definition encode_loop (lat lon : num) (levels : list nat)
  : completion (rect * jstring) :=
  for_each levels (encode_step lat lon) (REGION, []).

Definition encodeDigipin (lat lon : num) : completion (option jstring) :=
  if (lat < MIN_LAT) || (lat > MAX_LAT) || (lon < MIN_LON) || (lon > MAX_LON)
  then Normal None
  else
    st <- encode_loop lat lon (seq 0 10) ;;
    Normal (Some (hyphenate (snd st))).

Record decoded : Type := {
  lat : num;
  lon : num;
  bounds : rect
}.

(** One iteration of the decoding loop; destructuring [undefined] throws. *)
Definition decode_step (pin : jstring) (level : nat) (b : rect) : completion rect :=
  match nth_error pin level with
  | Some char =>
      match table_get CHAR_TO_POS char with
      | Some (row, col) => Normal (narrow b (of_nat row) (of_nat col))
      | None => Throw
      end
  | None => Throw
  end.

Definition decodeDigipin (digipin : jstring) : completion (option decoded) :=
  let pin := normalize digipin in
  if negb (List.length pin =? 10)%nat then Normal None
  else if has_unknown_char pin then Normal None
  else
    b <- for_each (seq 0 10) (decode_step pin) REGION ;;
    Normal (Some {| lat := (minLat b + maxLat b) / lit 2;
                    lon := (minLon b + maxLon b) / lit 2;
                    bounds := b |}).

Definition isWithinBounds (lat lon : num) : bool :=
  (lat >= MIN_LAT) && (lat <= MAX_LAT) && (lon >= MIN_LON) && (lon <= MAX_LON).

End Codec.

Arguments rect num : clear implicits.
Arguments decoded num : clear implicits.

(** These two do no arithmetic. *)

Definition isValidDigipin (digipin : jstring) : bool :=
  let pin := normalize digipin in
  if negb (List.length pin =? 10)%nat then false
  else if has_unknown_char pin then false
  else true.

Definition formatDigipin (pin : jstring) : jstring :=
  let clean := normalize pin in
  if negb (List.length clean =? 10)%nat then pin
  else hyphenate clean.

(** ** Binary64 numbers *)

Module F64.

(** An integer below [2^53] in absolute value, as a float (exactly). *)
Definition of_Z (z : Z) : float :=
  if (z <? 0)%Z then (- of_uint63 (Uint63.of_Z (- z)))%float
  else of_uint63 (Uint63.of_Z z).

(** A numeric literal denotes the double nearest to its value; for a
    numerator and a denominator that are themselves doubles, that is their
    correctly rounded quotient. *)
Definition lit (q : Q) : float := (of_Z (Qnum q) / of_Z (Zpos (Qden q)))%float.

(** [Math.floor]: a double with a non-negative exponent is an integer. *)
Definition floor (x : float) : float :=
  match Prim2SF x with
  | S754_finite s m e =>
      if (0 <=? e)%Z then x
      else of_Z (cond_Zopp s (Zpos m) / 2 ^ (- e))
  | _ => x
  end.

Definition is_neg_zero (x : float) : bool :=
  match classify x with
  | NZero => true
  | _ => false
  end.

(** [Math.max] and [Math.min]: [NaN] if an argument is, and [+0] counts as
    larger than [-0]. *)
Definition max (a b : float) : float :=
  if is_nan a || is_nan b then nan
  else if (a <? b)%float then b
  else if (b <? a)%float then a
  else if is_neg_zero a then b else a.

Definition min (a b : float) : float :=
  if is_nan a || is_nan b then nan
  else if (a <? b)%float then a
  else if (b <? a)%float then b
  else if is_neg_zero a then a else b.

(** The array index that [ToString(x)] denotes: [x] is a non-negative
    integer ([-0] prints as ["0"]). *)
Definition index (x : float) : option N :=
  match Prim2SF x with
  | S754_zero _ => Some 0%N
  | S754_finite false m e =>
      if (0 <=? e)%Z then Some (N.shiftl (Npos m) (Z.to_N e))
      else
        let d := Z.to_N (- e) in
        if (N.land (Npos m) (N.ones d) =? 0)%N then Some (N.shiftr (Npos m) d)
        else None
  | _ => None
  end.

End F64.

#[export] Instance IEEE : JsNumber float := {
  lit := F64.lit;
  jadd := PrimFloat.add;
  jsub := PrimFloat.sub;
  jmul := PrimFloat.mul;
  jdiv := PrimFloat.div;
  jlt := PrimFloat.ltb;
  jle := PrimFloat.leb;
  Math_floor := F64.floor;
  Math_max := F64.max;
  Math_min := F64.min;
  array_index := F64.index
}.

(** ** Exact numbers *)

Module Rat.

(** The four operations keep fractions in lowest terms. *)
Definition add (a b : Q) : Q := Qred (a + b).
Definition sub (a b : Q) : Q := Qred (a - b).
Definition mul (a b : Q) : Q := Qred (a * b).
Definition div (a b : Q) : Q := Qred (a / b).

Definition lt (a b : Q) : bool := negb (Qle_bool b a).

Definition floor (x : Q) : Q := inject_Z (Qfloor x).

Definition max (a b : Q) : Q := if lt a b then b else a.

Definition min (a b : Q) : Q := if lt a b then a else b.

Definition index (x : Q) : option N :=
  if Qeq_bool x (inject_Z (Qfloor x)) && (0 <=? Qfloor x)%Z
  then Some (Z.to_N (Qfloor x))
  else None.

End Rat.

#[export] Instance Exact : JsNumber Q := {
  lit := fun q => q;
  jadd := Rat.add;
  jsub := Rat.sub;
  jmul := Rat.mul;
  jdiv := Rat.div;
  jlt := Rat.lt;
  jle := Qle_bool;
  Math_floor := Rat.floor;
  Math_max := Rat.max;
  Math_min := Rat.min;
  array_index := Rat.index
}.

(** * The application: the handlers of [main.js] that call the codec

    What the handlers do to the page, to the map and to the network is
    recorded, call by call and in order, in a trace; what the map answers
    comes in through the arguments [inView], the value of
    [map.getBounds().contains([lat, lon])], and [mapZoom], that of
    [map.getZoom()].  The map exists and the elements of the page are
    there, as after [initMap].  The numbers are doubles. *)

Module App.

Local Open Scope float_scope.

(** The parameters of the address, [new URLSearchParams(window.location.search)]:
    pairs of a name and a value, in order. *)
Definition params := list (jstring * jstring).

Fixpoint jstring_eqb (a b : jstring) : bool :=
  match a, b with
  | [], [] => true
  | x :: a', y :: b' => jchar_eqb x y && jstring_eqb a' b'
  | _, _ => false
  end.

(** [params.get(name)]: the first value of that name, or [null]. *)
Fixpoint params_get (ps : params) (name : jstring) : option jstring :=
  match ps with
  | [] => None
  | (k, v) :: rest => if jstring_eqb k name then Some v else params_get rest name
  end.

(** [params.delete(name)] *)
Definition params_delete (ps : params) (name : jstring) : params :=
  filter (fun kv => negb (jstring_eqb (fst kv) name)) ps.

(** [params.set(name, value)]: the first pair of that name takes the value
    and the later ones go; without such a pair, one is appended. *)
Fixpoint params_set (ps : params) (name value : jstring) : params :=
  match ps with
  | [] => [(name, value)]
  | (k, v) :: rest =>
      if jstring_eqb k name then (name, value) :: params_delete rest name
      else (k, v) :: params_set rest name value
  end.

(** A function handed to [setTimeout]. *)
Inductive callback : Type :=
| later_setLocation (lat lon : float) (zoom : option float) (updateUrl : bool)
| later_handleSearch.

(** The calls to the page, the map and the network. *)
Inductive effect : Type :=
| showToast (message type : string)
| marker_setLatLng (lat lon : float)
| marker_addTo_map (lat lon : float)
| map_removeLayer (gridRect : rect float)
| rectangle_addTo_map (bounds : rect float)
| map_setView (lat lon zoom : float)
| updateResultSection (digipin : jstring) (lat lon : float)
| closeSidebarOnMobile
| setTimeout (f : callback) (delay : nat)
| fetch_search (query : jstring).

(** The global state of [main.js], the address and the search box. *)
Record page : Type := {
  currentLocation : option (float * float * jstring);
  marker : option (float * float);
  gridRect : option (rect float);
  search : params;
  searchInput : jstring;
  trace : list effect
}.

(** [let map = null; let marker = null; let gridRect = null;
     let currentLocation = { lat: null, lon: null, digipin: null }] *)
Definition initial (search : params) : page :=
  {| currentLocation := None; marker := None; gridRect := None;
     search := search; searchInput := []; trace := [] |}.

Definition emit (e : effect) (p : page) : page :=
  {| currentLocation := currentLocation p; marker := marker p; gridRect := gridRect p;
     search := search p; searchInput := searchInput p; trace := trace p ++ [e] |}.

Definition set_currentLocation (v : float * float * jstring) (p : page) : page :=
  {| currentLocation := Some v; marker := marker p; gridRect := gridRect p;
     search := search p; searchInput := searchInput p; trace := trace p |}.

Definition set_marker (v : float * float) (p : page) : page :=
  {| currentLocation := currentLocation p; marker := Some v; gridRect := gridRect p;
     search := search p; searchInput := searchInput p; trace := trace p |}.

Definition set_gridRect (v : rect float) (p : page) : page :=
  {| currentLocation := currentLocation p; marker := marker p; gridRect := Some v;
     search := search p; searchInput := searchInput p; trace := trace p |}.

Definition set_search (v : params) (p : page) : page :=
  {| currentLocation := currentLocation p; marker := marker p; gridRect := gridRect p;
     search := v; searchInput := searchInput p; trace := trace p |}.

Definition set_searchInput (v : jstring) (p : page) : page :=
  {| currentLocation := currentLocation p; marker := marker p; gridRect := gridRect p;
     search := search p; searchInput := v; trace := trace p |}.

(** Truthiness of a string or [null], and of a number. *)
Definition truthy (s : option jstring) : bool :=
  match s with
  | Some (_ :: _) => true
  | _ => false
  end.

Definition truthy_number (x : float) : bool :=
  negb (PrimFloat.is_nan x || (x =? 0)).

Definition DEFAULT_DIGIPIN : jstring := str "4P3-JM8-K4L6".

(** [updateUrlState(type, value)] *)
Definition updateUrlState (type : string) (value : jstring) (p : page) : page :=
  let ps := search p in
  let ps := params_delete ps (str "pin") in
  let ps := params_delete ps (str "lat") in
  let ps := params_delete ps (str "lng") in
  let ps := params_delete ps (str "lon") in
  let ps := params_delete ps (str "q") in
  let ps := if String.eqb type "pin" && truthy (Some value)
            then params_set ps (str "pin") value else ps in
  set_search ps p.

(** [drawGridCell(lat, lon)]: [decodeDigipin(null)] throws, on
    [null.replace]. *)
Definition drawGridCell (lat lon : float) (p : page) : completion page :=
  code <- encodeDigipin lat lon ;;
  match code with
  | None => Throw
  | Some digipin =>
      decoded <- decodeDigipin digipin ;;
      match decoded with
      | None => Normal p
      | Some d =>
          let p := match gridRect p with
                   | Some r => emit (map_removeLayer r) p
                   | None => p
                   end in
          Normal (emit (rectangle_addTo_map (bounds d)) (set_gridRect (bounds d) p))
      end
  end.

(** [setLocation(lat, lon, zoom = null, updateUrl = true)] *)
Definition setLocation (lat lon : float) (zoom : option float) (updateUrl : bool)
    (inView : bool) (mapZoom : float) (p : page) : completion page :=
  digipin <- encodeDigipin lat lon ;;
  match digipin with
  | None | Some [] =>
      Normal (emit (showToast "Could not generate DigiPIN for this location" "error") p)
  | Some digipin =>
      let p := set_currentLocation (lat, lon, digipin) p in
      let p := match marker p with
               | Some _ => emit (marker_setLatLng lat lon) (set_marker (lat, lon) p)
               | None => emit (marker_addTo_map lat lon) (set_marker (lat, lon) p)
               end in
      p <- drawGridCell lat lon p ;;
      let p := match zoom with
               | Some z =>
                   if truthy_number z then emit (map_setView lat lon z) p
                   else if negb inView
                        then emit (map_setView lat lon (Math_max mapZoom 15)) p
                        else p
               | None =>
                   if negb inView
                   then emit (map_setView lat lon (Math_max mapZoom 15)) p
                   else p
               end in
      let p := emit (updateResultSection digipin lat lon) p in
      let p := if updateUrl then updateUrlState "pin" digipin p else p in
      Normal p
  end.

(** [handleMapClick(e)], with [e.latlng = { lat, lng }] *)
Definition handleMapClick (lat lng : float) (inView : bool) (mapZoom : float)
    (p : page) : completion page :=
  if negb (isWithinBounds lat lng)
  then Normal (emit (showToast "Location is outside DigiPIN coverage area (India)"
                               "error") p)
  else setLocation lat lng None true inView mapZoom p.

(** [showDefaultLocation()] *)
Definition showDefaultLocation (inView : bool) (mapZoom : float) (p : page)
  : completion page :=
  decoded <- decodeDigipin DEFAULT_DIGIPIN ;;
  match decoded with
  | Some d => setLocation (lat d) (lon d) (Some 15) false inView mapZoom p
  | None => Normal p
  end.

(** The success callback of [locateUser], with
    [position.coords = { latitude, longitude }] *)
Definition locateUser_found (latitude longitude : float) (inView : bool)
    (mapZoom : float) (p : page) : completion page :=
  if negb (isWithinBounds latitude longitude)
  then Normal (emit (showToast "Your location is outside DigiPIN coverage (India)"
                               "error") p)
  else
    p <- setLocation latitude longitude (Some 18) true inView mapZoom p ;;
    let p := emit (showToast "Location found!" "success") p in
    Normal (emit closeSidebarOnMobile p).

(** The white space and the line terminators among the characters: tab,
    line feed, vertical tab, form feed, carriage return, space and no-break
    space. *)
Definition is_space (c : jchar) : bool :=
  match c with
  | Latin1 a =>
      let n := nat_of_ascii a in
      ((9 <=? n) && (n <=? 13) || (n =? 32) || (n =? 160))%nat
  | U0178 | U039C => false
  end.

Fixpoint trimStart (s : jstring) : jstring :=
  match s with
  | c :: rest => if is_space c then trimStart rest else s
  | [] => []
  end.

(** [s.trim()] *)
Definition trim (s : jstring) : jstring := rev (trimStart (rev (trimStart s))).

(** [handleSearch()], up to its first [await]: the request to the
    geocoding service is the last call recorded. *)
Definition handleSearch (inView : bool) (mapZoom : float) (p : page)
  : completion page :=
  let query := trim (searchInput p) in
  if negb (truthy (Some query))
  then Normal (emit (showToast "Please enter a DigiPIN or address" "error") p)
  else
    let geocode p :=
      let p := emit (showToast "Searching..." "success") p in
      Normal (emit (fetch_search query) p) in
    if isValidDigipin query then
      decoded <- decodeDigipin query ;;
      match decoded with
      | Some d =>
          p <- setLocation (lat d) (lon d) (Some 18) true inView mapZoom p ;;
          let p := emit (showToast "DigiPIN located!" "success") p in
          Normal (emit closeSidebarOnMobile p)
      | None => geocode p
      end
    else geocode p.

Section Url.

(** [parseFloat], of a string or [null]. *)
Variable parseFloat : option jstring -> float.

(** [a || b] on strings and [null]. *)
Definition or_else (a b : option jstring) : option jstring :=
  if truthy a then a else b.

(** [initUrlHandler()], with its result. *)
Definition initUrlHandler (p : page) : completion (bool * page) :=
  let params := search p in
  let pin := params_get params (str "pin") in
  let otherwise (_ : unit) :=
    let lat := parseFloat (params_get params (str "lat")) in
    let lon := parseFloat (or_else (params_get params (str "lng"))
                                   (params_get params (str "lon"))) in
    if negb (PrimFloat.is_nan lat) && negb (PrimFloat.is_nan lon) && isWithinBounds lat lon
    then Normal (true, emit (setTimeout (later_setLocation lat lon (Some 18) false) 500) p)
    else
      let query := params_get params (str "q") in
      match query with
      | Some (c :: q) =>
          let p := set_searchInput (c :: q) p in
          Normal (true, emit (setTimeout later_handleSearch 500) p)
      | _ => Normal (false, p)
      end in
  match pin with
  | Some (c :: s) =>
      if isValidDigipin (c :: s) then
        decoded <- decodeDigipin (c :: s) ;;
        match decoded with
        | Some d =>
            Normal (true, emit (setTimeout (later_setLocation (lat d) (lon d)
                                                              (Some 18) false) 500) p)
        | None => otherwise tt
        end
      else otherwise tt
  | _ => otherwise tt
  end.

End Url.

(** Running a function that [setTimeout] was given. *)
Definition run (f : callback) (inView : bool) (mapZoom : float) (p : page)
  : completion page :=
  match f with
  | later_setLocation lat lon zoom updateUrl =>
      setLocation lat lon zoom updateUrl inView mapZoom p
  | later_handleSearch => handleSearch inView mapZoom p
  end.

End App.

Import App.

(** * The vocabulary of the statements *)

(** ** Codes and paths *)

Definition ALPHABET : jstring := str "23456789CFJKLMPT".

(** Ten symbols with the two hyphens of the display form. *)
Definition grouped (c0 c1 c2 c3 c4 c5 c6 c7 c8 c9 : jchar) : jstring :=
  [c0; c1; c2; hyphen; c3; c4; c5; hyphen; c6; c7; c8; c9].

(** Three letters outside ASCII: the sharp s U+00DF, whose upper case is
    the two letters [SS], and the e with acute accent, U+00E9, with its
    capital U+00C9. *)
Definition sharp_s : jchar := Latin1 (ascii_of_nat 223).

Definition e_acute : jchar := Latin1 (ascii_of_nat 233).

Definition E_acute : jchar := Latin1 (ascii_of_nat 201).

(** A character that [toUpperCase] leaves as it is. *)
Definition upper (c : jchar) : Prop := upperChar c = [c].

(** [DIGIPIN_GRID[row][col]] for a position of the grid. *)
Definition symbol (rc : nat * nat) : jchar :=
  nth (snd rc) (nth (fst rc) DIGIPIN_GRID []) hyphen.

Definition in_grid (rc : nat * nat) : Prop := (fst rc < 4)%nat /\ (snd rc < 4)%nat.

Section Paths.
Context {num : Type} {NUM : JsNumber num}.

(** The rectangle reached from [b] by a path of grid positions. *)
Definition narrow_all (b : rect num) (path : list (nat * nat)): rect num :=
  fold_left (fun b rc => narrow b (of_nat (fst rc)) (of_nat (snd rc))) path b.

Definition positions (pin : jstring) (path : list (nat * nat)) : Prop :=
  Forall2 (fun ch rc => table_get CHAR_TO_POS ch = Some rc) pin path.

(** [follows b path]: started in [b], the loop of [encodeDigipin] computes
    the rows and columns of [path], one per iteration. *)
Fixpoint follows (lat lon : num) (b : rect num) (path : list (nat * nat)) : Prop :=
  match path with
  | [] => True
  | rc :: rest =>
      in_grid rc /\
      encode_row lat b = of_nat (fst rc) /\
      encode_col lon b = of_nat (snd rc) /\
      follows lat lon (narrow b (of_nat (fst rc)) (of_nat (snd rc))) rest
  end.

(** The code that [encodeDigipin] returns for a path of ten positions. *)
Definition code_of (path : list (nat * nat)) : jstring :=
  hyphenate (map symbol path).

End Paths.

(** The bounds rectangle [b] contains the point. *)
Definition contains {num : Type} {NUM : JsNumber num} (b : rect num) (lat lon : num)
  : bool :=
  ((minLat b <= lat) && (lat <= maxLat b) && (minLon b <= lon) && (lon <= maxLon b))%js.

(** The point is strictly inside the bounds rectangle [b]: on none of its
    edges. *)
Definition inside {num : Type} {NUM : JsNumber num} (b : rect num) (lat lon : num)
  : bool :=
  ((minLat b < lat) && (lat < maxLat b) && (minLon b < lon) && (lon < maxLon b))%js.

(** The record that [decodeDigipin] builds from the final rectangle. *)
Definition cell {num : Type} {NUM : JsNumber num} (b : rect num) : decoded num :=
  {| lat := ((minLat b + maxLat b) / lit 2)%js;
     lon := ((minLon b + maxLon b) / lit 2)%js;
     bounds := b |}.

(** ** Rectangles of rationals *)

Definition within (b : rect Q) (lat lon : Q) : Prop :=
  (minLat b <= lat <= maxLat b) /\ (minLon b <= lon <= maxLon b).

Definition proper (b : rect Q) : Prop :=
  minLat b < maxLat b /\ minLon b < maxLon b.

(** The invariant of the loop of [encodeDigipin] in exact arithmetic. *)
Definition ExactInv (lat lon : Q) (n : nat) (b : rect Q) : Prop :=
  within b lat lon /\ proper b.

(** The cell of a rectangle: the rectangle without its southern and its
    eastern edge, whose points belong to the next cell, unless the edge is
    the boundary of the region. *)
Definition in_cell (b : rect Q) (lat lon : Q) : Prop :=
  ((minLat b < lat \/ (lat == minLat b /\ minLat b == MIN_LAT)) /\ lat <= maxLat b) /\
  (minLon b <= lon /\ (lon < maxLon b \/ (lon == maxLon b /\ maxLon b == MAX_LON))).

(** A rectangle inside the region. *)
Definition in_region (b : rect Q) : Prop :=
  MIN_LAT <= minLat b /\ maxLon b <= MAX_LON.

(** The invariant of the loop of [encodeDigipin] that keeps the point in
    the cell of the working rectangle. *)
Definition CellInv (lat lon : Q) (n : nat) (b : rect Q) : Prop :=
  in_cell b lat lon /\ proper b /\ in_region b.

(** The rows (and the columns) of a path, read as the digits of a number in
    base 4: the index of the cell among the cells of its level, counted from
    the north (from the west). *)
Definition row_index (path : list (nat * nat)) : Z :=
  fold_left (fun acc rc => (4 * acc + Z.of_nat (fst rc))%Z) path 0%Z.

Definition col_index (path : list (nat * nat)) : Z :=
  fold_left (fun acc rc => (4 * acc + Z.of_nat (snd rc))%Z) path 0%Z.

Definition pow4 (n : nat) : Q := inject_Z (4 ^ Z.of_nat n).

(** Two rectangles that share an edge: one is the neighbour of the other to
    the north, south, east or west. *)
Definition adjacent (a b : rect Q) : Prop :=
  ((minLat a == maxLat b \/ maxLat a == minLat b) /\
   minLon a == minLon b /\ maxLon a == maxLon b) \/
  ((minLon a == maxLon b \/ maxLon a == minLon b) /\
   minLat a == minLat b /\ maxLat a == maxLat b).

(** ** Doubles *)

(** A specification-level value that is a number, zero included. *)
Definition finite_value (f : spec_float) : Prop :=
  match f with
  | S754_zero _ | S754_finite _ _ _ => True
  | _ => False
  end.

(** A rounded result keeps the sign it is given. *)
Definition signed (s : bool) (f : spec_float) : Prop :=
  match f with
  | S754_zero s' | S754_infinity s' | S754_finite s' _ _ => s' = s
  | S754_nan => False
  end.

Local Open Scope float_scope.

Definition finite (x : float) : bool := PrimFloat.is_finite x.

Definition divisor (x : float) : bool :=
  PrimFloat.is_finite x && negb (PrimFloat.is_zero x).

(** The four values that a clamped row or column takes. *)
Definition indices : list float := [0; 1; 2; 3].

(** The bounds of the working rectangle depend on the rows and columns
    chosen so far, not on the point.  [lat_tree n mn mx] checks, for every
    choice of [n] further rows, that the latitude bounds stay finite and
    that their quarter is a finite non-zero number; [lon_tree] does the
    same for the longitude bounds. *)
Fixpoint lat_tree (n : nat) (mn mx : float) : bool :=
  match n with
  | O => true
  | S n' =>
      let d := (mx - mn) / 4 in
      finite mx && divisor d &&
      forallb (fun row => let mx' := mx - row * d in lat_tree n' (mx' - d) mx')
              indices
  end.

Fixpoint lon_tree (n : nat) (mn mx : float) : bool :=
  match n with
  | O => true
  | S n' =>
      let d := (mx - mn) / 4 in
      finite mn && divisor d &&
      forallb (fun col => let mn' := mn + col * d in lon_tree n' mn' (mn' + d))
              indices
  end.

(** The invariant of the loop of [encodeDigipin] in binary64 arithmetic. *)
Definition IEEEInv (n : nat) (b : rect float) : Prop :=
  lat_tree n (minLat b) (maxLat b) = true /\
  lon_tree n (minLon b) (maxLon b) = true.

(** The side of a cell of the tenth level: [36 / 4^10] degrees, the double
    [0x1.2p-15]. *)
Definition CELL_SIZE : float := 0x1.2p-15.

(** [lat_rows lat mn mx rows]: started with the latitude bounds [mn] and
    [mx], in each iteration of [encodeDigipin] the quotient that is floored
    lies between the row of the list and the next integer.  [lon_cols] is
    the same for the columns. *)
Fixpoint lat_rows (lat mn mx : float) (rows : list float) : bool :=
  match rows with
  | [] => true
  | row :: rest =>
      let d := (mx - mn) / 4 in
      let q := (mx - lat) / d in
      (row <=? q) && (q <? row + 1) &&
      (let mx' := mx - row * d in lat_rows lat (mx' - d) mx' rest)
  end.

Fixpoint lon_cols (lon mn mx : float) (cols : list float) : bool :=
  match cols with
  | [] => true
  | col :: rest =>
      let d := (mx - mn) / 4 in
      let q := (lon - mn) / d in
      (col <=? q) && (q <? col + 1) &&
      (let mn' := mn + col * d in lon_cols lon mn' (mn' + d) rest)
  end.

(** What is checked of the latitude bounds [mn] and [mx] that a list of
    rows leads to, and of their midpoint: the bounds are in the region and
    a cell apart, the midpoint is strictly between them, and from the
    midpoint the loop of [encodeDigipin] finds the rows again. *)
Definition lat_leaf (mn mx : float) (rows : list float) : bool :=
  let c := (mn + mx) / 2 in
  (2.5 <=? mn) && (mx <=? 38.5) && (mn <? c) && (c <? mx) &&
  (2.5 <=? c) && (c <=? 38.5) &&
  (mx - mn =? CELL_SIZE) && lat_rows c 2.5 38.5 rows.

Definition lon_leaf (mn mx : float) (cols : list float) : bool :=
  let c := (mn + mx) / 2 in
  (63.5 <=? mn) && (mx <=? 99.5) && (mn <? c) && (c <? mx) &&
  (63.5 <=? c) && (c <=? 99.5) &&
  (mx - mn =? CELL_SIZE) && lon_cols c 63.5 99.5 cols.

(** [lat_centres n mn mx rows] checks [lat_leaf] for every choice of [n]
    further rows after [rows]; [lon_centres] checks [lon_leaf]. *)
Fixpoint lat_centres (n : nat) (mn mx : float) (rows : list float) : bool :=
  match n with
  | O => lat_leaf mn mx rows
  | S n' =>
      let d := (mx - mn) / 4 in
      forallb (fun row => let mx' := mx - row * d in
                          lat_centres n' (mx' - d) mx' (rows ++ [row]))
              indices
  end.

Fixpoint lon_centres (n : nat) (mn mx : float) (cols : list float) : bool :=
  match n with
  | O => lon_leaf mn mx cols
  | S n' =>
      let d := (mx - mn) / 4 in
      forallb (fun col => let mn' := mn + col * d in
                          lon_centres n' mn' (mn' + d) (cols ++ [col]))
              indices
  end.

Definition rows_of (path : list (nat * nat)) : list float :=
  map (fun rc => of_nat (fst rc)) path.

Definition cols_of (path : list (nat * nat)) : list float :=
  map (fun rc => of_nat (snd rc)) path.

(** The longitude bounds of the working rectangle of [encodeDigipin] when
    the longitude is [NaN]: those of the region before the first iteration,
    [NaN] after it. *)
Definition lon_lost (b : rect float) : Prop :=
  (minLon b = 63.5 /\ maxLon b = 99.5) \/ (minLon b = nan /\ maxLon b = nan).

(** The rational value of a double that is a number. *)
Definition value (x : float) : option Q :=
  match Prim2SF x with
  | S754_zero _ => Some 0%Q
  | S754_finite s m e => Some (inject_Z (cond_Zopp s (Z.pos m)) * 2 ^ e)%Q
  | _ => None
  end.

(** The double [x] is a number, and without rounding error the rational
    [q]. *)
Definition exactly (x : float) (q : Q) : Prop :=
  exists v, value x = Some v /\ (v == q)%Q.

(** The double [z * 2^(e - 2101)], for a machine integer [z] below [2^53]
    and an exponent in range. *)
Definition dyadic (z e : int) : float := ldshiftexp (of_uint63 z) e.

(** [lat_exact n mn mx R] checks, for every choice of [n] further rows
    after the rows whose digits in base 4 make the index [R], that the
    latitude bounds reached and their midpoint are the doubles of their
    exact values: the multiples [38.5 - 9 R / 2^18] and
    [38.5 - 9 (R + 1) / 2^18] of [2^-18], and a multiple of [2^-19].
    [lon_exact] is the same for the longitude bounds, from [63.5]. *)
Fixpoint lat_exact (n : nat) (mn mx : float) (R : int) : bool :=
  match n with
  | O =>
      let top := (10092544 - 9 * R)%uint63 in
      (mx =? dyadic top 2083) && (mn =? dyadic (top - 9)%uint63 2083) &&
      ((mn + mx) / 2 =? dyadic (2 * top - 9)%uint63 2082)
  | S n' =>
      let d := (mx - mn) / 4 in
      forallb (fun k => let mx' := mx - of_uint63 k * d in
                        lat_exact n' (mx' - d) mx' (4 * R + k)%uint63)
              [0; 1; 2; 3]%uint63
  end.

Fixpoint lon_exact (n : nat) (mn mx : float) (C : int) : bool :=
  match n with
  | O =>
      let left := (16646144 + 9 * C)%uint63 in
      (mn =? dyadic left 2083) && (mx =? dyadic (left + 9)%uint63 2083) &&
      ((mn + mx) / 2 =? dyadic (2 * left + 9)%uint63 2082)
  | S n' =>
      let d := (mx - mn) / 4 in
      forallb (fun k => let mn' := mn + of_uint63 k * d in
                        lon_exact n' mn' (mn' + d) (4 * C + k)%uint63)
              [0; 1; 2; 3]%uint63
  end.

(** The guard of [encodeDigipin]. *)
Definition out_of_range (lat lon : float) : bool :=
  ((lat < MIN_LAT) || (lat > MAX_LAT) || (lon < MIN_LON) || (lon > MAX_LON))%js.

(** The double that the literal [11.500000000000002] denotes: the successor
    of 11.5. *)
Definition lat_above_11_5 : float := 0x1.7000000000001p+3.

Local Close Scope float_scope.

(** The southern edge of the cell ["FFF-FFF-FFFF"], which is the northern
    edge of the cell ["FFF-FFF-FFFJ"]: [38.5 - 9 / 2^18], the double
    [38.499965667724609375]. *)
Definition edge_lat {num : Type} {NUM : JsNumber num} : num :=
  lit (10092535 # 262144).

(** Two points of one closed rectangle with different codes, and two points
    of adjacent rectangles with the same code. *)
Definition edge_points {num : Type} {NUM : JsNumber num} : Prop :=
  let north := lit (77 # 2) in
  let west := lit (127 # 2) in
  exists a b : decoded num,
    decodeDigipin (str "FFF-FFF-FFFF") = Normal (Some a) /\
    decodeDigipin (str "FFF-FFF-FFFJ") = Normal (Some b) /\
    (isWithinBounds north west = true /\
     isWithinBounds edge_lat west = true /\
     contains (bounds a) north west = true /\
     contains (bounds a) edge_lat west = true /\
     encodeDigipin north west = Normal (Some (str "FFF-FFF-FFFF")) /\
     encodeDigipin edge_lat west = Normal (Some (str "FFF-FFF-FFFJ"))) /\
    (minLat (bounds a) = edge_lat /\ maxLat (bounds b) = edge_lat /\
     minLon (bounds a) = minLon (bounds b) /\
     maxLon (bounds a) = maxLon (bounds b) /\
     isWithinBounds (lat b) (lon b) = true /\
     contains (bounds b) (lat b) (lon b) = true /\
     jlt (lat b) edge_lat = true /\
     encodeDigipin (lat b) (lon b) = Normal (Some (str "FFF-FFF-FFFJ"))).

(** ** The page *)

(** What one successful [setLocation(lat, lon, zoom, updateUrl)] leaves: the
    point and its code in [currentLocation], the marker on the point, the
    rectangle [r] on the map, and the code in the address if [updateUrl]. *)
Definition located (lat lon : float) (digipin : jstring) (r : option (rect float))
    (updateUrl : bool) (p p' : page) : Prop :=
  currentLocation p' = Some (lat, lon, digipin) /\
  marker p' = Some (lat, lon) /\
  gridRect p' = r /\
  search p' = (if updateUrl then search (updateUrlState "pin" digipin p) else search p) /\
  searchInput p' = searchInput p /\
  exists effects, trace p' = trace p ++ effects /\
    In (updateResultSection digipin lat lon) effects.

(** The code on the page is the code of the point on the page, the marker
    is on that point, and the rectangle on the map is the one of the code
    when the code is valid. *)
Definition consistent (p : page) : Prop :=
  match currentLocation p with
  | None => True
  | Some (lat, lon, digipin) =>
      encodeDigipin lat lon = Normal (Some digipin) /\
      marker p = Some (lat, lon) /\
      forall d, decodeDigipin digipin = Normal (Some d) -> gridRect p = Some (bounds d)
  end.

(** The message of [setLocation] when [encodeDigipin] returns [null]. *)
Definition could_not : effect :=
  showToast "Could not generate DigiPIN for this location" "error".

(** * Lemmas and theorems *)

(** ** The string helpers *)

Ltac each_char c := destruct c as [[[] [] [] [] [] [] [] []]| |].

Lemma jchar_eqb_spec (a b : jchar) : reflect (a = b) (jchar_eqb a b).
Proof.
  destruct a as [x| |], b as [y| |]; cbn; try (constructor; congruence).
  destruct (Ascii.eqb_spec x y); constructor; congruence.
Qed.

Lemma jchar_dec (a b : jchar) : {a = b} + {a <> b}.
Proof. destruct (jchar_eqb_spec a b); [now left|now right]. Qed.

Lemma toUpperCase_app (s t : jstring) :
  toUpperCase (s ++ t) = toUpperCase s ++ toUpperCase t.
Proof. apply flat_map_app. Qed.

Lemma removeHyphens_app (s t : jstring) :
  removeHyphens (s ++ t) = removeHyphens s ++ removeHyphens t.
Proof. apply filter_app. Qed.

(** Upper-casing an upper-cased character changes nothing. *)
Lemma upperChar_idem (c : jchar) : toUpperCase (upperChar c) = upperChar c.
Proof. each_char c; reflexivity. Qed.

(** Upper-casing makes no hyphen and keeps the hyphen. *)
Lemma upperChar_hyphen (c : jchar) :
  removeHyphens (upperChar c) = if jchar_eqb c hyphen then [] else upperChar c.
Proof. each_char c; reflexivity. Qed.

Lemma removeHyphens_toUpperCase (s : jstring) :
  removeHyphens (toUpperCase s) = toUpperCase (removeHyphens s).
Proof.
  induction s as [|c s IH]; [reflexivity|].
  change (toUpperCase (c :: s)) with (upperChar c ++ toUpperCase s).
  rewrite removeHyphens_app, upperChar_hyphen, IH.
  change (removeHyphens (c :: s))
    with (if negb (jchar_eqb c hyphen) then c :: removeHyphens s else removeHyphens s).
  destruct (jchar_eqb c hyphen); reflexivity.
Qed.

Lemma removeHyphens_idem (s : jstring) :
  removeHyphens (removeHyphens s) = removeHyphens s.
Proof.
  unfold removeHyphens.
  induction s as [|c s IH]; [reflexivity|].
  cbn [filter].
  destruct (jchar_eqb c hyphen) eqn:E; cbn [negb filter]; [exact IH|].
  now rewrite E, IH.
Qed.

Lemma toUpperCase_idem (s : jstring) : toUpperCase (toUpperCase s) = toUpperCase s.
Proof.
  induction s as [|c s IH]; [reflexivity|].
  change (toUpperCase (c :: s)) with (upperChar c ++ toUpperCase s).
  now rewrite toUpperCase_app, upperChar_idem, IH.
Qed.

(** The characters of an upper-cased string are upper case. *)
Lemma upperChar_upper (c : jchar) : Forall upper (upperChar c).
Proof. each_char c; repeat constructor. Qed.

Lemma toUpperCase_upper (s : jstring) : Forall upper (toUpperCase s).
Proof.
  induction s as [|c s IH]; [constructor|].
  change (toUpperCase (c :: s)) with (upperChar c ++ toUpperCase s).
  apply Forall_app. split; [apply upperChar_upper|exact IH].
Qed.

Lemma removeHyphens_no_hyphen (s : jstring) :
  Forall (fun c => c <> hyphen) (removeHyphens s).
Proof.
  apply Forall_forall. intros c I.
  apply filter_In in I as [_ N].
  destruct (jchar_eqb_spec c hyphen); [discriminate N|assumption].
Qed.

(** The normalised string has no hyphen and only upper-case characters. *)
Lemma normalize_normal (s : jstring) :
  Forall (fun c => c <> hyphen /\ upper c) (normalize s).
Proof.
  apply Forall_forall. intros c I. split.
  - unfold normalize in I. rewrite <- removeHyphens_toUpperCase in I.
    exact (proj1 (Forall_forall _ _) (removeHyphens_no_hyphen _) c I).
  - exact (proj1 (Forall_forall _ _) (toUpperCase_upper _) c I).
Qed.

Lemma normalize_idem (s : jstring) : normalize (normalize s) = normalize s.
Proof.
  unfold normalize.
  now rewrite removeHyphens_toUpperCase, removeHyphens_idem, toUpperCase_idem.
Qed.

Lemma length10_inv {A : Type} (l : list A) :
  List.length l = 10%nat ->
  exists c0 c1 c2 c3 c4 c5 c6 c7 c8 c9, l = [c0; c1; c2; c3; c4; c5; c6; c7; c8; c9].
Proof.
  intros L.
  do 10 (destruct l as [|? l]; [discriminate L|]).
  destruct l; [|discriminate L].
  now do 10 eexists.
Qed.

Lemma normalize_hyphenate (s : jstring) :
  List.length s = 10%nat -> normalize s = s -> normalize (hyphenate s) = s.
Proof.
  intros L N.
  destruct (length10_inv s L) as (c0 & c1 & c2 & c3 & c4 & c5 & c6 & c7 & c8 & c9 & ->).
  rewrite <- N at 2.
  unfold normalize. apply (f_equal toUpperCase).
  change (hyphenate [c0; c1; c2; c3; c4; c5; c6; c7; c8; c9])
    with ([c0; c1; c2] ++ [hyphen] ++ [c3; c4; c5] ++ [hyphen] ++ [c6; c7; c8; c9]).
  change [c0; c1; c2; c3; c4; c5; c6; c7; c8; c9]
    with ([c0; c1; c2] ++ [c3; c4; c5] ++ [c6; c7; c8; c9]).
  now rewrite !removeHyphens_app.
Qed.

(** A character has an entry in [CHAR_TO_POS] exactly when it is one of the
    sixteen symbols. *)
Lemma CHAR_TO_POS_alphabet (c : jchar) :
  table_get CHAR_TO_POS c = None <-> ~ In c ALPHABET.
Proof.
  assert (B : match table_get CHAR_TO_POS c with Some _ => false | None => true end
              = negb (existsb (jchar_eqb c) ALPHABET)) by (each_char c; reflexivity).
  split.
  - intros E I. rewrite E in B.
    assert (X : existsb (jchar_eqb c) ALPHABET = true).
    { apply existsb_exists. exists c. split; [exact I|].
      now destruct (jchar_eqb_spec c c). }
    rewrite X in B. discriminate B.
  - intros NI. destruct (table_get CHAR_TO_POS c); [|reflexivity].
    exfalso. apply NI. symmetry in B. apply negb_false_iff in B.
    apply existsb_exists in B as (x & I & E).
    destruct (jchar_eqb_spec c x); [now subst x|discriminate E].
Qed.

Lemma has_unknown_char_spec (pin : jstring) :
  has_unknown_char pin = true <-> exists c, In c pin /\ ~ In c ALPHABET.
Proof.
  unfold has_unknown_char. rewrite existsb_exists.
  split; intros (c & I & H); exists c; split; trivial.
  - apply CHAR_TO_POS_alphabet. now destruct (table_get CHAR_TO_POS c).
  - apply CHAR_TO_POS_alphabet in H. now rewrite H.
Qed.

(** The grid and the reverse table are inverse to each other. *)
Lemma CHAR_TO_POS_grid (ch : jchar) (row col : nat) :
  table_get CHAR_TO_POS ch = Some (row, col) <->
  exists line, nth_error DIGIPIN_GRID row = Some line /\ nth_error line col = Some ch.
Proof.
  split.
  - each_char ch; vm_compute; intros E; try discriminate E;
      injection E as <- <-; eexists; split; reflexivity.
  - intros (line & R & C).
    do 4 (destruct row as [|row]; [injection R as <-;
      do 4 (destruct col as [|col]; [injection C as <-; reflexivity|]);
      destruct col; discriminate C|]).
    destruct row; discriminate R.
Qed.

(** ** The decoding loop on a validated string *)

Section DecodeLoop.
Context {num : Type} {NUM : JsNumber num}.

Lemma known_positions (pin : jstring) :
  has_unknown_char pin = false -> exists path, positions pin path.
Proof.
  unfold has_unknown_char, positions.
  induction pin as [|ch pin IH]; intros H.
  - exists []. constructor.
  - cbn [existsb] in H. apply orb_false_elim in H as [H1 H2].
    destruct (IH H2) as [path P].
    destruct (table_get CHAR_TO_POS ch) as [rc|] eqn:E; [|discriminate H1].
    exists (rc :: path). now constructor.
Qed.

Lemma decode_loop_from (pre pin : jstring) (path : list (nat * nat)) (b : rect num) :
  positions pin path ->
  for_each (seq (List.length pre) (List.length pin)) (decode_step (pre ++ pin)) b
  = Normal (narrow_all b path).
Proof.
  intros P. revert pre b.
  induction P as [|ch rc pin path E P IH]; intros pre b; [reflexivity|].
  cbn [List.length seq for_each].
  unfold decode_step at 1.
  rewrite nth_error_app2, Nat.sub_diag by apply Nat.le_refl.
  cbn [nth_error]. rewrite E. destruct rc as [row col]. cbn [bind].
  specialize (IH (pre ++ [ch]) (narrow b (of_nat row) (of_nat col))).
  rewrite <- app_assoc, length_app, Nat.add_1_r in IH.
  exact IH.
Qed.

Lemma decode_loop_known (pin : jstring) (path : list (nat * nat)) (b : rect num) :
  positions pin path ->
  for_each (seq 0 (List.length pin)) (decode_step pin) b = Normal (narrow_all b path).
Proof. exact (decode_loop_from [] pin path b). Qed.

(** What [decodeDigipin] returns, case by case. *)
Lemma decodeDigipin_cases (digipin : jstring) :
  let pin := normalize digipin in
  (decodeDigipin digipin = Normal None /\
     (List.length pin <> 10%nat \/ has_unknown_char pin = true))
  \/ (exists path,
        List.length pin = 10%nat /\ has_unknown_char pin = false /\
        positions pin path /\
        let b := narrow_all REGION path in
        decodeDigipin digipin =
          Normal (Some {| lat := (minLat b + maxLat b) / lit 2;
                          lon := (minLon b + maxLon b) / lit 2;
                          bounds := b |}))%js.
Proof.
  intros pin. unfold decodeDigipin. fold pin.
  destruct (Nat.eqb_spec (List.length pin) 10) as [L|L]; cbn [negb].
  - destruct (has_unknown_char pin) eqn:U.
    + left. split; [reflexivity|now right].
    + right. destruct (known_positions pin U) as [path P].
      exists path. repeat split; trivial.
      cbv zeta. rewrite <- L, (decode_loop_known _ _ REGION P). reflexivity.
  - left. split; [reflexivity|now left].
Qed.

End DecodeLoop.

(** ** Validation, formatting and normalisation *)

(** C4. For every string [s], with [t] the string [s] without hyphens and in
    upper case: [decodeDigipin s] is [null] exactly when [t] is not ten
    characters long or has a character outside the sixteen symbols;
    [isValidDigipin s] is [true] in exactly the other cases, and [false]
    otherwise; neither raises.  This holds for any arithmetic. *)
Theorem validation_shared_by_decode_and_isValid
    (num : Type) (NUM : JsNumber num) (s : jstring) :
  let t := normalize s in
  let invalid := List.length t <> 10%nat \/ exists c, In c t /\ ~ In c ALPHABET in
  (decodeDigipin (num := num) s = Normal None <-> invalid) /\
  (isValidDigipin s = true <-> ~ invalid) /\
  (isValidDigipin s = false <-> invalid) /\
  decodeDigipin (num := num) s <> Throw.
Proof.
  intros t invalid.
  assert (V : isValidDigipin s = true <-> ~ invalid).
  { unfold isValidDigipin, invalid. change (normalize s) with t.
    destruct (Nat.eqb_spec (List.length t) 10) as [L|L]; cbn [negb].
    - destruct (has_unknown_char t) eqn:U.
      + split; [discriminate|]. intros H. exfalso. apply H. right.
        now apply has_unknown_char_spec.
      + split; [|reflexivity]. intros _ [H|H]; [contradiction|].
        apply has_unknown_char_spec in H. congruence.
    - split; [discriminate|]. intros H. exfalso. apply H. now left. }
  pose proof (decodeDigipin_cases (num := num) s) as C.
  cbv zeta in C. change (normalize s) with t in C.
  destruct C as [[E H]|(path & L & U & _ & E)]; rewrite E.
  - assert (I : invalid).
    { destruct H as [H|H]; [now left|right; now apply has_unknown_char_spec]. }
    split; [tauto|]. split; [exact V|]. split; [|discriminate].
    split; [tauto|]. intros _.
    destruct (isValidDigipin s); [|reflexivity]. now destruct (proj1 V).
  - assert (I : ~ invalid).
    { intros [H|H]; [contradiction|]. apply has_unknown_char_spec in H. congruence. }
    split; [split; [discriminate|tauto]|].
    split; [exact V|]. split; [|discriminate].
    split; [|tauto]. intros H. apply V in I. congruence.
Qed.

(** C7. For every string [x], with [t] the string obtained from [x] by
    removing all hyphens and upper-casing: when [t] is not ten characters
    long, [formatDigipin x] is [x] itself, unchanged; otherwise it is the
    ten characters of [t], none of them a hyphen and each of them upper
    case, with a hyphen after the third and after the sixth.
    [formatDigipin] is a total function: it fails on no string.  On
    examples: lower case and misplaced hyphens are normalised; a string
    that does not normalise to ten characters comes back as it is, lower
    case included; the sharp s counts as the two letters [SS], so that
    eight symbols and a sharp s are grouped and nine symbols and a sharp s
    are not. *)
Theorem formatDigipin_passthrough_or_grouping (x : jstring) :
  let t := toUpperCase (removeHyphens x) in
  ((List.length t <> 10%nat /\ formatDigipin x = x) \/
   (exists c0 c1 c2 c3 c4 c5 c6 c7 c8 c9,
      t = [c0; c1; c2; c3; c4; c5; c6; c7; c8; c9] /\
      Forall (fun c => c <> hyphen /\ upper c)
             [c0; c1; c2; c3; c4; c5; c6; c7; c8; c9] /\
      formatDigipin x = grouped c0 c1 c2 c3 c4 c5 c6 c7 c8 c9)) /\
  formatDigipin (str "4p3jm8k4l6") = str "4P3-JM8-K4L6" /\
  formatDigipin (str "4-P-3JM8K4-L6") = str "4P3-JM8-K4L6" /\
  formatDigipin (str "4p3-jm8-k4l") = str "4p3-jm8-k4l" /\
  formatDigipin [] = [] /\
  formatDigipin (str "4p3jm8k4l" ++ [e_acute]) = str "4P3-JM8-K4L" ++ [E_acute] /\
  formatDigipin (str "4P3JM8K4" ++ [sharp_s]) = str "4P3-JM8-K4SS" /\
  formatDigipin (str "4P3JM8K4L" ++ [sharp_s]) = str "4P3JM8K4L" ++ [sharp_s].
Proof.
  cbv zeta. split; [|repeat split].
  change (toUpperCase (removeHyphens x)) with (normalize x).
  unfold formatDigipin.
  destruct (Nat.eqb_spec (List.length (normalize x)) 10) as [L|L]; cbn [negb].
  - right.
    pose proof (normalize_normal x) as N.
    destruct (length10_inv _ L) as (c0 & c1 & c2 & c3 & c4 & c5 & c6 & c7 & c8 & c9 & E).
    exists c0, c1, c2, c3, c4, c5, c6, c7, c8, c9.
    rewrite E in N |- *. now repeat split.
  - now left.
Qed.

(** C8. [formatDigipin (formatDigipin x) = formatDigipin x] for every
    string [x], also where upper-casing changes the length of [x]. *)
Theorem formatDigipin_idempotent (x : jstring) :
  formatDigipin (formatDigipin x) = formatDigipin x.
Proof.
  unfold formatDigipin at 2 3.
  destruct (Nat.eqb_spec (List.length (normalize x)) 10) as [L|L]; cbn [negb].
  - unfold formatDigipin.
    rewrite (normalize_hyphenate _ L (normalize_idem x)).
    apply Nat.eqb_eq in L. now rewrite L.
  - unfold formatDigipin. apply Nat.eqb_neq in L. now rewrite L.
Qed.

(** C10. Parsing ignores where the hyphens are and the case of the letters:
    for every string [s], with [t] the string [s] without hyphens and in
    upper case, [decodeDigipin s = decodeDigipin t] and
    [isValidDigipin s = isValidDigipin t], for any arithmetic.  So a code
    with hyphens anywhere, or in lower case, decodes like the grouped form. *)
Theorem parsing_ignores_hyphens_and_case
    (num : Type) (NUM : JsNumber num) (s : jstring) :
  decodeDigipin (num := num) s = decodeDigipin (normalize s) /\
  isValidDigipin s = isValidDigipin (normalize s) /\
  decodeDigipin (num := num) (str "4-P-3JM8K4-L6") = decodeDigipin (str "4P3-JM8-K4L6") /\
  decodeDigipin (num := num) (str "4p3-jm8-k4l6") = decodeDigipin (str "4P3-JM8-K4L6") /\
  decodeDigipin (num := num) (str "4-P-3JM8K4-L6") <> Normal None /\
  isValidDigipin (str "4-P-3JM8K4-L6") = true /\
  isValidDigipin (str "4p3jm8k4l6") = true.
Proof.
  split; [|split; [|split; [|split; [|split; [|split]]]]]; try reflexivity.
  - unfold decodeDigipin. now rewrite normalize_idem.
  - unfold isValidDigipin. now rewrite normalize_idem.
  - pose proof (decodeDigipin_cases (num := num) (str "4-P-3JM8K4-L6")) as C.
    cbv zeta in C.
    destruct C as [[_ [H|H]]|(path & _ & _ & _ & E)].
    + now destruct H.
    + discriminate H.
    + rewrite E. discriminate.
Qed.

(** ** The encoding loop along a path *)

Lemma symbol_position (rc : nat * nat) :
  in_grid rc -> table_get CHAR_TO_POS (symbol rc) = Some rc.
Proof.
  destruct rc as [r c]. intros [R C]. cbn [fst snd] in R, C.
  do 4 (destruct r as [|r]; [do 4 (destruct c as [|c]; [reflexivity|]); lia|]); lia.
Qed.

Lemma symbol_alphabet (rc : nat * nat) : in_grid rc -> In (symbol rc) ALPHABET.
Proof.
  intros G. apply symbol_position in G.
  destruct (in_dec jchar_dec (symbol rc) ALPHABET) as [I|I]; [exact I|].
  apply CHAR_TO_POS_alphabet in I. congruence.
Qed.

Lemma positions_symbols (path : list (nat * nat)) :
  Forall in_grid path -> positions (map symbol path) path.
Proof.
  induction 1 as [|rc path G _ IH]; constructor; [now apply symbol_position|exact IH].
Qed.

Lemma alphabet_normalized (s : jstring) :
  Forall (fun c => In c ALPHABET) s -> normalize s = s.
Proof.
  unfold normalize, toUpperCase, removeHyphens.
  induction 1 as [|c s I _ IH]; [reflexivity|].
  cbn [filter].
  assert (E : jchar_eqb c hyphen = false /\ upperChar c = [c]).
  { cbv in I. intuition (subst c; split; reflexivity). }
  destruct E as [E1 E2]. rewrite E1. cbn [negb flat_map]. now rewrite E2, IH.
Qed.

Lemma alphabet_known (s : jstring) :
  Forall (fun c => In c ALPHABET) s -> has_unknown_char s = false.
Proof.
  intros F. destruct (has_unknown_char s) eqn:U; [|reflexivity].
  apply has_unknown_char_spec in U as (c & I & N).
  rewrite Forall_forall in F. now destruct (N (F c I)).
Qed.

Section EncodeLoop.
Context {num : Type} {NUM : JsNumber num}.
Variables lat lon : num.

(** The small integers are array indices. *)
Hypothesis index_of_nat :
  forall k, (k < 4)%nat -> array_index (of_nat k) = Some (N.of_nat k).

Lemma grid_at_position (rc : nat * nat) :
  in_grid rc -> grid_at (of_nat (fst rc)) (of_nat (snd rc)) = Normal (Some (symbol rc)).
Proof.
  destruct rc as [r c]. intros [R C]. cbn [fst snd] in *.
  unfold grid_at, js_get. rewrite (index_of_nat _ R).
  do 4 (destruct r as [|r];
    [cbn; rewrite (index_of_nat _ C);
     do 4 (destruct c as [|c]; [reflexivity|]); lia|]).
  lia.
Qed.

Lemma follows_in_grid (path : list (nat * nat)) (b : rect num) :
  follows lat lon b path -> Forall in_grid path.
Proof.
  revert b. induction path as [|rc path IH]; intros b F; constructor.
  - exact (proj1 F).
  - exact (IH _ (proj2 (proj2 (proj2 F)))).
Qed.

Lemma follows_app (p q : list (nat * nat)) (b : rect num) :
  follows lat lon b (p ++ q) <-> follows lat lon b p /\ follows lat lon (narrow_all b p) q.
Proof.
  revert b. induction p as [|rc p IH]; intros b; cbn [app follows narrow_all fold_left].
  - tauto.
  - fold (narrow_all (narrow b (of_nat (fst rc)) (of_nat (snd rc))) p).
    rewrite IH. tauto.
Qed.

Lemma encode_follows (path : list (nat * nat)) (levels : list nat)
    (b : rect num) (digipin : jstring) :
  List.length levels = List.length path ->
  follows lat lon b path ->
  for_each levels (encode_step lat lon) (b, digipin)
  = Normal (narrow_all b path, digipin ++ map symbol path).
Proof.
  revert levels b digipin.
  induction path as [|rc path IH]; intros levels b digipin L F.
  - destruct levels; [|discriminate L]. cbn. now rewrite app_nil_r.
  - destruct levels as [|level levels]; [discriminate L|].
    destruct F as (G & R & C & F).
    cbn [for_each encode_step]. rewrite R, C, (grid_at_position _ G). cbn [bind].
    rewrite (IH levels _ _ (eq_add_S _ _ L) F).
    cbn [narrow_all fold_left map append_value]. now rewrite <- app_assoc.
Qed.

(** The state at the start of iteration [level], and the row and column
    computed in it. *)
Lemma follows_level (path : list (nat * nat)) (level : nat) (b : rect num) :
  follows lat lon b path -> (level < List.length path)%nat ->
  exists rc,
    nth_error path level = Some rc /\ in_grid rc /\
    let b' := narrow_all b (firstn level path) in
    for_each (seq 0 level) (encode_step lat lon) (b, [])
    = Normal (b', map symbol (firstn level path)) /\
    encode_row lat b' = of_nat (fst rc) /\
    encode_col lon b' = of_nat (snd rc) /\
    grid_at (encode_row lat b') (encode_col lon b') = Normal (Some (symbol rc)).
Proof.
  intros F L.
  destruct (nth_error path level) as [rc|] eqn:E;
    [|apply nth_error_None in E; lia].
  exists rc. split; [reflexivity|].
  destruct (nth_error_split path level E) as (p & q & -> & Lp).
  rewrite firstn_app, Lp, Nat.sub_diag, firstn_all2, app_nil_r by lia.
  apply follows_app in F as [Fp (G & R & C & _)].
  split; [exact G|]. cbv zeta. split; [|split; [exact R|split; [exact C|]]].
  - apply (encode_follows p (seq 0 level) b []); [|exact Fp].
    now rewrite length_seq.
  - rewrite R, C. now apply grid_at_position.
Qed.

(** An invariant of the working rectangle, indexed by the number of
    iterations still to run, that fixes the row and the column of the
    next iteration. *)
Variable Inv : nat -> rect num -> Prop.

Hypothesis Inv_step :
  forall n b, Inv (S n) b ->
    exists rc, in_grid rc /\
      encode_row lat b = of_nat (fst rc) /\
      encode_col lon b = of_nat (snd rc) /\
      Inv n (narrow b (of_nat (fst rc)) (of_nat (snd rc))).

Lemma Inv_follows (n m : nat) (b : rect num) :
  Inv (n + m) b ->
  exists path, List.length path = n /\ follows lat lon b path /\ Inv m (narrow_all b path).
Proof.
  revert b. induction n as [|n IH]; intros b I.
  - exists []. now repeat split.
  - destruct (Inv_step _ _ I) as (rc & G & R & C & I').
    destruct (IH _ I') as (path & L & F & Im).
    exists (rc :: path). cbn [List.length follows]. now rewrite L.
Qed.

End EncodeLoop.

Section CodeOfPath.
Context {num : Type} {NUM : JsNumber num}.

Lemma symbols_alphabet (path : list (nat * nat)) :
  Forall in_grid path -> Forall (fun c => In c ALPHABET) (map symbol path).
Proof.
  intros F. apply Forall_map. revert F. apply Forall_impl. exact symbol_alphabet.
Qed.

Lemma normalize_code_of (path : list (nat * nat)) :
  List.length path = 10%nat -> Forall in_grid path ->
  normalize (code_of path) = map symbol path.
Proof.
  intros L F. apply normalize_hyphenate.
  - now rewrite length_map.
  - apply alphabet_normalized, symbols_alphabet, F.
Qed.

Lemma decode_code_of (path : list (nat * nat)) :
  List.length path = 10%nat -> Forall in_grid path ->
  decodeDigipin (num := num) (code_of path)
  = Normal (Some (cell (narrow_all REGION path))).
Proof.
  intros L F. unfold decodeDigipin.
  rewrite (normalize_code_of _ L F), length_map, L. cbn [Nat.eqb negb].
  rewrite (alphabet_known _ (symbols_alphabet _ F)).
  replace (seq 0 10) with (seq 0 (List.length (map symbol path)))
    by now rewrite length_map, L.
  rewrite (decode_loop_known _ _ REGION (positions_symbols _ F)).
  reflexivity.
Qed.

Lemma isValid_code_of (path : list (nat * nat)) :
  List.length path = 10%nat -> Forall in_grid path ->
  isValidDigipin (code_of path) = true.
Proof.
  intros L F. unfold isValidDigipin.
  rewrite (normalize_code_of _ L F), length_map, L. cbn [Nat.eqb negb].
  now rewrite (alphabet_known _ (symbols_alphabet _ F)).
Qed.

End CodeOfPath.

(** ** The codec in exact arithmetic *)

Module ExactCodec.

Ltac ops :=
  cbn [jadd jsub jmul jdiv jlt jle Math_floor Math_max Math_min array_index lit
       Exact] in *.

Ltac unred :=
  unfold Rat.add, Rat.sub, Rat.mul, Rat.div in *; rewrite ?Qred_correct in *.

Lemma exact_index (k : nat) :
  (k < 4)%nat -> array_index (of_nat (num := Q) k) = Some (N.of_nat k).
Proof. intros K. do 4 (destruct k as [|k]; [reflexivity|]). lia. Qed.

(** The floor of a quotient between 0 and 4, clamped. *)
Lemma exact_clamp_floor (x : Q) :
  0 <= x -> x <= 4 ->
  exists k, (k < 4)%nat /\ clamp (Math_floor x) = of_nat k /\
    inject_Z (Z.of_nat k) <= x /\
    (x < inject_Z (Z.of_nat k) + 1 \/ (k = 3%nat /\ x == 4)).
Proof.
  intros L U.
  pose proof (Qfloor_le x) as F1. pose proof (Qlt_floor x) as F2.
  assert (B : (0 <= Qfloor x <= 4)%Z).
  { split.
    - apply Z.lt_succ_r. rewrite <- Z.add_1_r, Zlt_Qlt.
      change (inject_Z 0) with 0. lra.
    - rewrite Zle_Qle. change (inject_Z 4) with 4. lra. }
  ops. unfold clamp, Rat.floor. ops.
  assert (C : (Qfloor x = 0 \/ Qfloor x = 1 \/ Qfloor x = 2 \/ Qfloor x = 3
               \/ Qfloor x = 4)%Z) by lia.
  destruct C as [C|[C|[C|[C|C]]]]; rewrite C in *;
    unfold inject_Z in F1, F2; cbn in F2;
    [ exists 0%nat | exists 1%nat | exists 2%nat | exists 3%nat | exists 3%nat ];
    (split; [lia|]); (split; [reflexivity|]); unfold inject_Z; cbn;
    (split; [lra|]).
  1-4: left; lra.
  right. split; [reflexivity|lra].
Qed.

(** One axis of one iteration: the quotient, as a product. *)
Lemma quotient (a d : Q) :
  0 < d -> Rat.div a d * d == a.
Proof. intros D. unred. field. lra. Qed.

Lemma quarter (mn mx : Q) :
  mn < mx -> 0 < Rat.div (Rat.sub mx mn) 4 /\ 4 * Rat.div (Rat.sub mx mn) 4 == mx - mn.
Proof. intros H. unred. split; [|field]. apply Qlt_shift_div_l; lra. Qed.

(** The clamped floor of a quotient [a / d] with [0 <= a <= 4 d]. *)
Lemma clamped_quotient (a d : Q) :
  0 < d -> 0 <= a -> a <= 4 * d ->
  exists k, (k < 4)%nat /\
    clamp (Math_floor (Rat.div a d)) = of_nat k /\
    inject_Z (Z.of_nat k) * d <= a /\
    (a < inject_Z (Z.of_nat k) * d + d \/ (k = 3%nat /\ a == 4 * d)).
Proof.
  intros D L U.
  pose proof (quotient a d D) as X.
  set (x := Rat.div a d) in *.
  assert (B : 0 <= x /\ x <= 4).
  { split; apply Qnot_lt_le; intros N.
    - assert (x * d < 0 * d) by (apply Qmult_lt_compat_r; trivial). lra.
    - assert (4 * d < x * d) by (apply Qmult_lt_compat_r; trivial). lra. }
  destruct (exact_clamp_floor _ (proj1 B) (proj2 B)) as (k & K & E & Lo & Hi).
  exists k. split; [exact K|]. split; [exact E|].
  set (q := inject_Z (Z.of_nat k)) in *.
  assert (Lo' : q * d <= x * d) by (apply Qmult_le_compat_r; lra).
  split; [lra|].
  destruct Hi as [Hi|[-> Hi]].
  - left. assert (Hi' : x * d < (q + 1) * d) by (apply Qmult_lt_compat_r; trivial).
    lra.
  - right. split; [reflexivity|]. now rewrite <- X, Hi.
Qed.

Lemma lat_axis (mn mx lat : Q) :
  mn <= lat <= mx -> mn < mx ->
  let d := Rat.div (Rat.sub mx mn) 4 in
  exists k, (k < 4)%nat /\
    clamp (Math_floor (Rat.div (Rat.sub mx lat) d)) = of_nat k /\
    let mx' := Rat.sub mx (Rat.mul (of_nat k) d) in
    Rat.sub mx' d <= lat <= mx' /\ Rat.sub mx' d < mx'.
Proof.
  intros [L U] P d.
  destruct (quarter _ _ P) as [D D4]. fold d in D, D4.
  destruct (clamped_quotient (Rat.sub mx lat) d D) as (k & K & E & Lo & Hi);
    [unred; lra|unred; lra|].
  exists k. split; [exact K|]. split; [exact E|].
  unfold of_nat. ops. cbv zeta. clearbody d. unred.
  destruct Hi as [Hi|[-> Hi]]; [|change (inject_Z (Z.of_nat 3)) with 3 in *]; lra.
Qed.

Lemma lon_axis (mn mx lon : Q) :
  mn <= lon <= mx -> mn < mx ->
  let d := Rat.div (Rat.sub mx mn) 4 in
  exists k, (k < 4)%nat /\
    clamp (Math_floor (Rat.div (Rat.sub lon mn) d)) = of_nat k /\
    let mn' := Rat.add mn (Rat.mul (of_nat k) d) in
    mn' <= lon <= Rat.add mn' d /\ mn' < Rat.add mn' d.
Proof.
  intros [L U] P d.
  destruct (quarter _ _ P) as [D D4]. fold d in D, D4.
  destruct (clamped_quotient (Rat.sub lon mn) d D) as (k & K & E & Lo & Hi);
    [unred; lra|unred; lra|].
  exists k. split; [exact K|]. split; [exact E|].
  unfold of_nat. ops. cbv zeta. clearbody d. unred.
  destruct Hi as [Hi|[-> Hi]]; [|change (inject_Z (Z.of_nat 3)) with 3 in *]; lra.
Qed.

Lemma contains_within (b : rect Q) (lat lon : Q) :
  contains b lat lon = true <-> within b lat lon.
Proof.
  unfold contains, within. ops.
  rewrite !andb_true_iff, !Qle_bool_iff. tauto.
Qed.

Lemma isWithinBounds_within (lat lon : Q) :
  isWithinBounds lat lon = true <-> within REGION lat lon.
Proof.
  unfold isWithinBounds, within. ops.
  rewrite !andb_true_iff, !Qle_bool_iff. cbn. tauto.
Qed.

Section Run.
Variables lat lon : Q.

Lemma exact_step (n : nat) (b : rect Q) :
  ExactInv lat lon (S n) b ->
  exists rc, in_grid rc /\
    encode_row lat b = of_nat (fst rc) /\
    encode_col lon b = of_nat (snd rc) /\
    ExactInv lat lon n (narrow b (of_nat (fst rc)) (of_nat (snd rc))).
Proof.
  intros [[WA WO] [PA PO]].
  destruct (lat_axis _ _ _ WA PA) as (r & R & ER & WA' & PA').
  destruct (lon_axis _ _ _ WO PO) as (c & C & EC & WO' & PO').
  exists (r, c). cbn [fst snd].
  split; [now split|]. split; [exact ER|]. split; [exact EC|].
  split; split; cbn -[of_nat]; tauto.
Qed.

Lemma exact_encode_path :
  isWithinBounds lat lon = true ->
  exists path, List.length path = 10%nat /\
    follows lat lon REGION path /\
    within (narrow_all REGION path) lat lon /\
    encodeDigipin lat lon = Normal (Some (code_of path)).
Proof.
  intros W.
  assert (G : ((lat < MIN_LAT) || (lat > MAX_LAT) || (lon < MIN_LON)
               || (lon > MAX_LON))%js = false).
  { apply isWithinBounds_within in W as [[? ?] [? ?]]. ops. unfold Rat.lt.
    rewrite !orb_false_iff, !negb_false_iff, !Qle_bool_iff. cbn in *. tauto. }
  assert (I : ExactInv lat lon (10 + 0) REGION).
  { split; [now apply isWithinBounds_within|]. split; reflexivity. }
  destruct (Inv_follows lat lon (ExactInv lat lon) exact_step 10 0 _ I) as (path & L & F & [Wi _]).
  exists path. repeat split; trivial; try apply Wi.
  unfold encodeDigipin. rewrite G. unfold encode_loop.
  rewrite (encode_follows lat lon exact_index path (seq 0 10) REGION []); trivial.
  now rewrite L.
Qed.

End Run.

(** In exact arithmetic the decoded rectangle of the code of an in-bounds
    point contains the point. *)
Theorem round_trip (lat lon : Q) :
  isWithinBounds lat lon = true ->
  exists code d,
    encodeDigipin lat lon = Normal (Some code) /\
    decodeDigipin code = Normal (Some d) /\
    contains (bounds d) lat lon = true.
Proof.
  intros W. destruct (exact_encode_path _ _ W) as (path & L & F & Wi & E).
  exists (code_of path), (cell (narrow_all REGION path)).
  split; [exact E|]. split.
  - apply decode_code_of; [exact L|]. exact (follows_in_grid _ _ _ _ F).
  - now apply contains_within.
Qed.

(** In exact arithmetic too, [encodeDigipin] is [null] exactly out of
    bounds, never throws, and returns the code of a path of ten positions in
    bounds. *)
Lemma exact_encode_total (lat lon : Q) :
  (encodeDigipin lat lon = Normal None <-> isWithinBounds lat lon = false) /\
  encodeDigipin lat lon <> Throw /\
  (isWithinBounds lat lon = true ->
   exists path, List.length path = 10%nat /\ Forall in_grid path /\
     encodeDigipin lat lon = Normal (Some (code_of path))).
Proof.
  destruct (isWithinBounds lat lon) eqn:W.
  - destruct (exact_encode_path _ _ W) as (path & L & F & _ & E). rewrite E.
    split; [split; discriminate|]. split; [discriminate|]. intros _.
    exists path. split; [exact L|]. split; [|reflexivity].
    exact (follows_in_grid _ _ _ _ F).
  - assert (E : encodeDigipin lat lon = Normal None).
    { unfold encodeDigipin, isWithinBounds in *. ops. unfold Rat.lt.
      destruct (Qle_bool MIN_LAT lat), (Qle_bool lat MAX_LAT),
        (Qle_bool MIN_LON lon), (Qle_bool lon MAX_LON); try discriminate W;
        reflexivity. }
    rewrite E. split; [tauto|]. split; discriminate.
Qed.

(** *** Cells *)

Lemma index_bounds (k : nat) :
  (k < 4)%nat -> 0 <= inject_Z (Z.of_nat k) <= 3.
Proof.
  intros K. change 0 with (inject_Z 0). change 3 with (inject_Z 3).
  rewrite <- !Zle_Qle. lia.
Qed.

Lemma narrow_nested (b : rect Q) (rc : nat * nat) :
  proper b -> in_grid rc ->
  let b' := narrow b (of_nat (fst rc)) (of_nat (snd rc)) in
  proper b' /\
  minLat b <= minLat b' /\ maxLat b' <= maxLat b /\
  minLon b <= minLon b' /\ maxLon b' <= maxLon b.
Proof.
  intros [PA PO] [R C]. cbv zeta. unfold proper, narrow, latDiv, lonDiv, of_nat.
  cbn [minLat maxLat minLon maxLon]. ops.
  destruct (quarter _ _ PA) as [DA DA4]. destruct (quarter _ _ PO) as [DO DO4].
  set (da := Rat.div (Rat.sub (maxLat b) (minLat b)) 4) in *.
  set (do := Rat.div (Rat.sub (maxLon b) (minLon b)) 4) in *.
  pose proof (index_bounds _ R) as [R0 R3]. pose proof (index_bounds _ C) as [C0 C3].
  set (r := inject_Z (Z.of_nat (fst rc))) in *.
  set (c := inject_Z (Z.of_nat (snd rc))) in *.
  assert (0 * da <= r * da) by (apply Qmult_le_compat_r; lra).
  assert (r * da <= 3 * da) by (apply Qmult_le_compat_r; lra).
  assert (0 * do <= c * do) by (apply Qmult_le_compat_r; lra).
  assert (c * do <= 3 * do) by (apply Qmult_le_compat_r; lra).
  clearbody da do r c. unred. repeat split; lra.
Qed.

Lemma narrow_all_nested (path : list (nat * nat)) (b : rect Q) :
  Forall in_grid path -> proper b ->
  let b' := narrow_all b path in
  proper b' /\
  minLat b <= minLat b' /\ maxLat b' <= maxLat b /\
  minLon b <= minLon b' /\ maxLon b' <= maxLon b.
Proof.
  intros F. revert b. induction F as [|rc path G _ IH]; intros b P; cbv zeta.
  - cbn. repeat split; try apply P; apply Qle_refl.
  - cbn [narrow_all fold_left].
    destruct (narrow_nested b rc P G) as (P1 & A1 & A2 & A3 & A4).
    destruct (IH _ P1) as (P' & B1 & B2 & B3 & B4).
    unfold narrow_all in *. repeat split; try apply P'; lra.
Qed.

(** The row that the quotient [a / d] selects is the only one whose band
    contains [a]. *)
Lemma clamped_quotient_unique (a d : Q) (k : nat) :
  0 < d -> (k < 4)%nat ->
  inject_Z (Z.of_nat k) * d <= a ->
  a < inject_Z (Z.of_nat k) * d + d \/ (k = 3%nat /\ a == 4 * d) ->
  clamp (Math_floor (Rat.div a d)) = of_nat k.
Proof.
  intros D K Lo Hi.
  pose proof (index_bounds k K) as [K0 K3].
  set (q := inject_Z (Z.of_nat k)) in *.
  assert (Q0 : 0 * d <= q * d) by (apply Qmult_le_compat_r; lra).
  assert (Q3 : q * d <= 3 * d) by (apply Qmult_le_compat_r; lra).
  destruct (clamped_quotient a d D) as (j & J & E & Lo' & Hi');
    [lra|destruct Hi as [Hi|[_ Hi]]; lra|].
  rewrite E. f_equal.
  pose proof (index_bounds j J) as [J0 J3].
  set (q' := inject_Z (Z.of_nat j)) in *.
  assert (J3' : q' * d <= 3 * d) by (apply Qmult_le_compat_r; lra).
  assert (A : q' < q + 1).
  { destruct Hi as [Hi|[K' _]].
    - apply Qnot_le_lt. intros N.
      assert ((q + 1) * d <= q' * d) by (apply Qmult_le_compat_r; lra). lra.
    - assert (q == 3) by (unfold q; rewrite K'; reflexivity). lra. }
  assert (B : q < q' + 1).
  { destruct Hi' as [Hi'|[J' _]].
    - apply Qnot_le_lt. intros N.
      assert ((q' + 1) * d <= q * d) by (apply Qmult_le_compat_r; lra). lra.
    - assert (q' == 3) by (unfold q'; rewrite J'; reflexivity). lra. }
  unfold q, q' in A, B.
  change 1 with (inject_Z 1) in A, B. rewrite <- inject_Z_plus, <- Zlt_Qlt in A, B.
  lia.
Qed.

Section InCell.
Variables lat lon : Q.

(** Inside the cell that a position selects, the loop computes that
    position. *)
Lemma in_cell_step (b : rect Q) (rc : nat * nat) :
  proper b -> in_region b -> in_grid rc ->
  in_cell (narrow b (of_nat (fst rc)) (of_nat (snd rc))) lat lon ->
  encode_row lat b = of_nat (fst rc) /\ encode_col lon b = of_nat (snd rc).
Proof.
  intros [PA PO] [RA RO] [R C]. unfold in_cell, narrow, encode_row, encode_col.
  cbn [minLat maxLat minLon maxLon]. unfold latDiv, lonDiv, of_nat. ops.
  destruct (quarter _ _ PA) as [DA DA4]. destruct (quarter _ _ PO) as [DO DO4].
  set (da := Rat.div (Rat.sub (maxLat b) (minLat b)) 4) in *.
  set (do := Rat.div (Rat.sub (maxLon b) (minLon b)) 4) in *.
  pose proof (index_bounds _ R) as [R0 R3]. pose proof (index_bounds _ C) as [C0 C3].
  set (r := inject_Z (Z.of_nat (fst rc))) in *.
  set (c := inject_Z (Z.of_nat (snd rc))) in *.
  assert (r * da <= 3 * da) by (apply Qmult_le_compat_r; lra).
  assert (c * do <= 3 * do) by (apply Qmult_le_compat_r; lra).
  intros [[WA1 WA2] [WO1 WO2]]. clearbody da do. unred.
  split; apply clamped_quotient_unique; trivial; fold r; fold c; unred.
  - lra.
  - destruct WA1 as [W|[W1 W2]]; [left; lra|right].
    assert (E : 3 <= r).
    { apply Qnot_lt_le. intros N.
      assert (r * da < 3 * da) by (apply Qmult_lt_compat_r; trivial). lra. }
    split; [|lra].
    unfold r in E. change 3 with (inject_Z 3) in E. rewrite <- Zle_Qle in E. lia.
  - lra.
  - destruct WO2 as [W|[W1 W2]]; [left; lra|right].
    assert (E : 3 <= c).
    { apply Qnot_lt_le. intros N.
      assert (c * do < 3 * do) by (apply Qmult_lt_compat_r; trivial). lra. }
    split; [|lra].
    unfold c in E. change 3 with (inject_Z 3) in E. rewrite <- Zle_Qle in E. lia.
Qed.

Lemma in_cell_follows (path : list (nat * nat)) (b : rect Q) :
  Forall in_grid path -> proper b -> in_region b ->
  in_cell (narrow_all b path) lat lon -> follows lat lon b path.
Proof.
  intros F. revert b. induction F as [|rc path G F IH]; intros b P [RA RO] W; [exact I|].
  cbn [narrow_all fold_left] in W.
  fold (narrow_all (narrow b (of_nat (fst rc)) (of_nat (snd rc))) path) in W.
  destruct (narrow_nested b rc P G) as (P1 & N1 & N2 & N3 & N4).
  destruct (narrow_all_nested path _ F P1) as ([QA QO] & A1 & A2 & A3 & A4).
  cbn [follows]. split; [exact G|].
  destruct (in_cell_step b rc P (conj RA RO) G) as [R C].
  { destruct W as [[W1 W2] [W3 W4]]. unfold in_cell. repeat split; lra. }
  split; [exact R|]. split; [exact C|].
  apply IH; trivial. split; lra.
Qed.

Lemma encode_in_cell (path : list (nat * nat)) :
  List.length path = 10%nat -> Forall in_grid path ->
  in_cell (narrow_all REGION path) lat lon ->
  encodeDigipin lat lon = Normal (Some (code_of path)).
Proof.
  intros L F W.
  assert (P : proper REGION) by (split; reflexivity).
  assert (R : in_region REGION) by (split; apply Qle_refl).
  destruct (narrow_all_nested path REGION F P) as (_ & A1 & A2 & A3 & A4).
  assert (G : ((lat < MIN_LAT) || (lat > MAX_LAT) || (lon < MIN_LON)
               || (lon > MAX_LON))%js = false).
  { destruct W as [[W1 W2] [W3 W4]]. cbn in A1, A2, A3, A4. ops. unfold Rat.lt.
    rewrite !orb_false_iff, !negb_false_iff, !Qle_bool_iff.
    change MIN_LAT with (5 # 2) in *. change MAX_LAT with (77 # 2).
    change MIN_LON with (127 # 2). change MAX_LON with (199 # 2) in *.
    repeat split; lra. }
  unfold encodeDigipin. rewrite G. unfold encode_loop.
  rewrite (encode_follows lat lon exact_index path (seq 0 10) REGION []).
  - reflexivity.
  - now rewrite L.
  - now apply in_cell_follows.
Qed.

End InCell.

(** A point on subdivision lines gets the cell to the south and east of
    them: the north-west corner of the cell of a path has the code of the
    path. *)
Lemma corner_code (path : list (nat * nat)) :
  List.length path = 10%nat -> Forall in_grid path ->
  let b := narrow_all REGION path in
  encodeDigipin (maxLat b) (minLon b) = Normal (Some (code_of path)).
Proof.
  intros L F b. apply encode_in_cell; trivial. fold b.
  destruct (narrow_all_nested path REGION F) as ([PA PO] & _);
    [split; reflexivity|].
  fold b in PA, PO. unfold in_cell.
  split; (split; [|now left || apply Qle_refl]); (now left || apply Qle_refl).
Qed.

(** *** Where a cell lies in the region *)

Lemma pow4_pos (n : nat) : 0 < pow4 n.
Proof.
  unfold pow4. change 0 with (inject_Z 0). rewrite <- Zlt_Qlt.
  apply Z.pow_pos_nonneg; lia.
Qed.

Lemma pow4_succ (n : nat) : pow4 (S n) == 4 * pow4 n.
Proof.
  unfold pow4. rewrite Nat2Z.inj_succ, Z.pow_succ_r by lia.
  now rewrite inject_Z_mult.
Qed.

Lemma narrow_all_snoc (b : rect Q) (path : list (nat * nat)) (rc : nat * nat) :
  narrow_all b (path ++ [rc])
  = narrow (narrow_all b path) (of_nat (fst rc)) (of_nat (snd rc)).
Proof. unfold narrow_all. now rewrite fold_left_app. Qed.

Lemma narrow_all_position (path : list (nat * nat)) (b : rect Q) :
  let b' := narrow_all b path in
  let n := List.length path in
  maxLat b' - minLat b' == (maxLat b - minLat b) / pow4 n /\
  maxLat b' == maxLat b - inject_Z (row_index path) * ((maxLat b - minLat b) / pow4 n) /\
  maxLon b' - minLon b' == (maxLon b - minLon b) / pow4 n /\
  minLon b' == minLon b + inject_Z (col_index path) * ((maxLon b - minLon b) / pow4 n).
Proof.
  induction path as [|rc path IH] using rev_ind; cbv zeta.
  - cbn [narrow_all fold_left List.length row_index col_index].
    change (pow4 0) with 1. change (inject_Z 0) with 0.
    split; [|split; [|split]]; field.
  - cbv zeta in IH. destruct IH as (HA & MA & HO & MO).
    rewrite narrow_all_snoc, length_app, Nat.add_1_r.
    unfold row_index, col_index. rewrite !fold_left_app. cbn [fold_left].
    fold (row_index path). fold (col_index path).
    rewrite !inject_Z_plus, !inject_Z_mult.
    pose proof (pow4_pos (List.length path)) as P.
    pose proof (pow4_succ (List.length path)) as S4.
    set (b' := narrow_all b path) in *.
    unfold narrow, latDiv, lonDiv, of_nat. cbn [minLat maxLat minLon maxLon]. ops.
    unred. rewrite S4.
    set (r := inject_Z (Z.of_nat (fst rc))). set (c := inject_Z (Z.of_nat (snd rc))).
    change (inject_Z 4) with 4.
    split; [|split; [|split]].
    + setoid_replace (maxLat b' - r * ((maxLat b' - minLat b') / 4)
                      - (maxLat b' - r * ((maxLat b' - minLat b') / 4)
                         - (maxLat b' - minLat b') / 4))
        with ((maxLat b' - minLat b') / 4) by ring.
      rewrite HA. field. lra.
    + rewrite HA, MA. field. lra.
    + setoid_replace (minLon b' + c * ((maxLon b' - minLon b') / 4)
                      + (maxLon b' - minLon b') / 4
                      - (minLon b' + c * ((maxLon b' - minLon b') / 4)))
        with ((maxLon b' - minLon b') / 4) by ring.
      rewrite HO. field. lra.
    + rewrite HO, MO. field. lra.
Qed.

Lemma index_step (u x : Q) (i j : Z) :
  0 < u -> x - inject_Z i * u - u == x - inject_Z j * u -> (i + 1 = j)%Z.
Proof.
  intros U E. apply inject_Z_injective. rewrite inject_Z_plus.
  change (inject_Z 1) with 1.
  apply (Qmult_inj_r _ _ u); [lra|].
  setoid_replace ((inject_Z i + 1) * u) with (inject_Z i * u + u) by ring. lra.
Qed.

(** The codes of adjacent cells end in different grid positions. *)
Lemma adjacent_last (p q : list (nat * nat)) (k l : nat * nat) :
  List.length p = List.length q -> in_grid k -> in_grid l ->
  adjacent (narrow_all REGION (p ++ [k])) (narrow_all REGION (q ++ [l])) ->
  k <> l.
Proof.
  intros L [K1 K2] [L1 L2] A E. subst l.
  destruct (narrow_all_position (p ++ [k]) REGION) as (HA & MA & HO & MO).
  destruct (narrow_all_position (q ++ [k]) REGION) as (HA' & MA' & HO' & MO').
  cbv zeta in *. rewrite !length_app, <- L in *. cbn [List.length] in *.
  pose proof (pow4_pos (List.length p + 1)) as P.
  unfold row_index, col_index in *. rewrite !fold_left_app in *. cbn [fold_left] in *.
  fold (row_index p) in *. fold (col_index p) in *.
  fold (row_index q) in *. fold (col_index q) in *.
  set (a := narrow_all REGION (p ++ [k])) in *.
  set (b := narrow_all REGION (q ++ [k])) in *.
  assert (UA : 0 < (maxLat REGION - minLat REGION) / pow4 (List.length p + 1)).
  { apply Qlt_shift_div_l; [exact P|]. cbn. lra. }
  assert (UO : 0 < (maxLon REGION - minLon REGION) / pow4 (List.length p + 1)).
  { apply Qlt_shift_div_l; [exact P|]. cbn. lra. }
  set (ua := (maxLat REGION - minLat REGION) / pow4 (List.length p + 1)) in *.
  set (uo := (maxLon REGION - minLon REGION) / pow4 (List.length p + 1)) in *.
  set (x := maxLat REGION) in *. set (y := minLon REGION) in *.
  set (rp := (4 * row_index p + Z.of_nat (fst k))%Z) in *.
  set (rq := (4 * row_index q + Z.of_nat (fst k))%Z) in *.
  set (cp := (4 * col_index p + Z.of_nat (snd k))%Z) in *.
  set (cq := (4 * col_index q + Z.of_nat (snd k))%Z) in *.
  destruct A as [[[A|A] _]|[[A|A] _]].
  - assert (X : (rp + 1 = rq)%Z) by (apply (index_step ua x); [exact UA|lra]).
    lia.
  - assert (X : (rq + 1 = rp)%Z) by (apply (index_step ua x); [exact UA|lra]).
    lia.
  - assert (X : (- cp + 1 = - cq)%Z).
    { apply (index_step uo y); [exact UO|]. rewrite !inject_Z_opp. lra. }
    lia.
  - assert (X : (- cq + 1 = - cp)%Z).
    { apply (index_step uo y); [exact UO|]. rewrite !inject_Z_opp. lra. }
    lia.
Qed.

End ExactCodec.

(** ** Binary64 arithmetic: the facts the codec relies on *)

Module SF.

Local Open Scope Z_scope.

Lemma nan_iff (x : float) : Prim2SF x = S754_nan <-> PrimFloat.is_nan x = true.
Proof.
  unfold Prim2SF. destruct (PrimFloat.is_nan x); [tauto|].
  split; [|discriminate].
  destruct (PrimFloat.is_zero x); [discriminate|].
  destruct (PrimFloat.is_infinity x); [discriminate|].
  destruct (Z.frexp x) as [r e].
  destruct (shr_fexp _ _ _ _ _) as [mrs e'].
  destruct (shr_m mrs); discriminate.
Qed.

(** *** Rounding never produces [NaN] *)

Lemma shr_1_nonneg (mrs : shr_record) : 0 <= shr_m mrs -> 0 <= shr_m (shr_1 mrs).
Proof.
  destruct mrs as [m r s]. cbn [shr_m].
  destruct m as [|[p|p|]|p]; cbn; lia.
Qed.

Lemma iter_shr_1_nonneg (p : positive) (mrs : shr_record) :
  0 <= shr_m mrs -> 0 <= shr_m (iter_pos shr_1 p mrs).
Proof.
  revert mrs. induction p as [p IH|p IH|]; intros mrs H; cbn [iter_pos].
  - apply IH, IH, shr_1_nonneg, H.
  - apply IH, IH, H.
  - apply shr_1_nonneg, H.
Qed.

Lemma shr_fexp_nonneg (m e : Z) (l : location) :
  0 <= m -> 0 <= shr_m (fst (shr_fexp prec emax m e l)).
Proof.
  intros H. unfold shr_fexp, shr.
  assert (R : 0 <= shr_m (shr_record_of_loc m l)) by (destruct l as [|[]]; exact H).
  destruct (_ - e); cbn [fst]; trivial.
  now apply iter_shr_1_nonneg.
Qed.

Lemma round_nearest_even_nonneg (m : Z) (l : location) :
  0 <= m -> 0 <= round_nearest_even m l.
Proof.
  intros H. destruct l as [|[]]; cbn; trivial; [|lia].
  destruct (Z.even m); lia.
Qed.

Lemma binary_round_aux_signed (s : bool) (m e : Z) (l : location) :
  0 <= m -> signed s (binary_round_aux prec emax s m e l).
Proof.
  intros H. unfold binary_round_aux.
  pose proof (shr_fexp_nonneg m e l H) as H1.
  destruct (shr_fexp prec emax m e l) as [mrs' e']. cbn [fst] in H1.
  pose proof (shr_fexp_nonneg _ e' loc_Exact
                (round_nearest_even_nonneg _ (loc_of_shr_record mrs') H1)) as H2.
  destruct (shr_fexp prec emax _ e' loc_Exact) as [mrs'' e'']. cbn [fst] in H2.
  destruct (shr_m mrs''); [reflexivity| |lia].
  destruct (e'' <=? emax - prec); reflexivity.
Qed.

Lemma binary_round_signed (s : bool) (m : positive) (e : Z) :
  signed s (binary_round prec emax s m e).
Proof.
  unfold binary_round. destruct (shl_align _ _ _) as [mz ez].
  now apply binary_round_aux_signed.
Qed.

Lemma signed_not_nan (s : bool) (f : spec_float) : signed s f -> f <> S754_nan.
Proof. now destruct f. Qed.

Lemma binary_normalize_not_nan (m e : Z) (s : bool) :
  binary_normalize prec emax m e s <> S754_nan.
Proof.
  destruct m; cbn [binary_normalize]; [discriminate| |];
    eapply signed_not_nan, binary_round_signed.
Qed.

(** A difference of finite doubles is not [NaN]. *)
Lemma sub_not_nan (x y : spec_float) :
  finite_value x -> finite_value y -> SF64sub x y <> S754_nan.
Proof.
  destruct x as [sx| | |sx mx ex], y as [sy| | |sy my ey]; cbn; try tauto; intros _ _.
  - destruct sx, sy; discriminate.
  - discriminate.
  - discriminate.
  - apply binary_normalize_not_nan.
Qed.

(** A quotient by a finite, non-zero double is not [NaN]. *)
Lemma div_not_nan (x : spec_float) (s : bool) (m : positive) (e : Z) :
  x <> S754_nan -> SF64div x (S754_finite s m e) <> S754_nan.
Proof.
  destruct x as [sx|sx| |sx mx ex]; cbn; try discriminate; [tauto|]. intros _.
  unfold SFdiv_core_binary.
  set (m' := match _ - _ - _ with 0 => Z.pos mx | Z.pos _ => _ | Z.neg _ => 0 end).
  assert (M : 0 <= m').
  { subst m'. destruct (_ - _ - _) as [|p|p]; try lia.
    rewrite Z.shiftl_mul_pow2 by lia. apply Z.mul_nonneg_nonneg; lia. }
  pose proof (Z.div_pos m' (Z.pos m) M eq_refl) as Q.
  unfold Z.div in Q. destruct (Z.div_eucl m' (Z.pos m)) as [q r].
  eapply signed_not_nan, binary_round_aux_signed, Q.
Qed.

(** *** Small integers as doubles *)

Lemma digits2_size (p : positive) : digits2_pos p = Pos.size p.
Proof. induction p as [p IH|p IH|]; cbn; now rewrite ?IH. Qed.

Lemma digits2_shift (p k : positive) :
  digits2_pos (Pos.iter xO p k) = (digits2_pos p + k)%positive.
Proof.
  induction k as [|k IH] using Pos.peano_ind.
  - cbn. now rewrite Pos.add_1_r.
  - rewrite Pos.iter_succ. cbn [digits2_pos]. rewrite IH. lia.
Qed.

Lemma digits2_bound (p : positive) (d : Z) :
  0 <= d -> (Z.pos (digits2_pos p) <= d <-> Z.pos p < 2 ^ d).
Proof.
  intros D. rewrite digits2_size. split; intros H.
  - pose proof (Pos.size_gt p) as G.
    apply Pos2Z.pos_lt_pos in G. rewrite Pos2Z.inj_pow in G.
    eapply Z.lt_le_trans; [exact G|].
    apply Z.pow_le_mono_r; lia.
  - pose proof (Pos.size_le p) as G.
    apply Pos2Z.pos_le_pos in G. rewrite Pos2Z.inj_pow in G.
    change (Z.pos p~0) with (2 * Z.pos p) in G.
    apply Z.nlt_ge. intros N.
    assert (2 ^ (d + 1) <= 2 ^ Z.pos (Pos.size p)) by (apply Z.pow_le_mono_r; lia).
    rewrite Z.pow_add_r in * by lia. lia.
Qed.

(** An integer of at most 53 bits is a double, and its exponent tells its
    number of bits. *)
Lemma binary_normalize_small (p : positive) :
  Z.pos (digits2_pos p) <= 53 ->
  exists mz, binary_normalize prec emax (Z.pos p) 0 false
             = S754_finite false mz (Z.pos (digits2_pos p) - 53).
Proof.
  intros D. cbn [binary_normalize]. unfold binary_round.
  set (d := digits2_pos p) in *.
  assert (F : fexp prec emax (Z.pos d + 0) = Z.pos d - 53).
  { unfold fexp, emin, prec, emax. lia. }
  rewrite F.
  assert (A : exists mz, shl_align p 0 (Z.pos d - 53) = (mz, Z.pos d - 53)
                         /\ Z.pos (digits2_pos mz) = 53).
  { unfold shl_align. destruct (Z.pos d - 53 - 0) as [|k|k] eqn:K; try lia.
    - exists p. split; [f_equal; lia|fold d; lia].
    - exists (Pos.iter xO p k). split; [reflexivity|].
      rewrite digits2_shift. fold d. lia. }
  destruct A as (mz & -> & M). exists mz.
  unfold binary_round_aux, shr_fexp. cbn [Zdigits2]. rewrite M.
  assert (F' : fexp prec emax (53 + (Z.pos d - 53)) - (Z.pos d - 53) = 0).
  { unfold fexp, emin, prec, emax. lia. }
  rewrite F'. cbn [shr shr_record_of_loc shr_m loc_of_shr_record round_nearest_even
                   Zdigits2].
  rewrite M, F'. cbn [shr shr_m].
  destruct (Z.leb_spec (Z.pos d - 53) (emax - prec)) as [_|N]; [reflexivity|].
  unfold emax, prec in N. lia.
Qed.

(** The mantissa of a double has at most 53 bits. *)
Lemma mantissa_bound (x : float) (s : bool) (m : positive) (e : Z) :
  Prim2SF x = S754_finite s m e -> Z.pos (digits2_pos m) <= 53.
Proof.
  intros E. pose proof (Prim2SF_valid x) as V. rewrite E in V.
  cbn [SpecFloat.valid_binary] in V. unfold bounded, canonical_mantissa in V.
  apply andb_prop in V as [V _]. apply Z.eqb_eq in V.
  unfold fexp, emin, prec, emax in V. lia.
Qed.

Lemma of_uint63_small (n : Z) :
  0 < n < 2 ^ 53 ->
  exists mz d, 0 < d <= 53 /\ 2 ^ (d - 1) <= n < 2 ^ d /\
    Prim2SF (of_uint63 (Uint63.of_Z n)) = S754_finite false mz (d - 53).
Proof.
  intros [L U]. rewrite of_uint63_spec, Uint63.of_Z_spec.
  rewrite Z.mod_small by (split; [lia|]; eapply Z.lt_trans; [exact U|reflexivity]).
  destruct n as [|p|p]; try lia.
  assert (D : Z.pos (digits2_pos p) <= 53) by (apply digits2_bound; lia).
  destruct (binary_normalize_small p D) as [mz E].
  exists mz, (Z.pos (digits2_pos p)). split; [lia|]. split; [|exact E].
  split; [|apply digits2_bound; lia].
  rewrite digits2_size.
  pose proof (Pos.size_le p) as G.
  apply Pos2Z.pos_le_pos in G. rewrite Pos2Z.inj_pow in G.
  change (Z.pos p~0) with (2 * Z.pos p) in G.
  replace (Z.pos (Pos.size p)) with (Z.pos (Pos.size p) - 1 + 1) in G by lia.
  rewrite Z.pow_add_r in G by lia. lia.
Qed.

(** *** Comparisons *)

Lemma compare_antisym (x y : spec_float) :
  SFcompare y x = option_map CompOpp (SFcompare x y).
Proof.
  destruct x as [sx|sx| |sx mx ex], y as [sy|sy| |sy my ey]; cbn;
    try reflexivity; try (destruct sx; reflexivity); try (destruct sy; reflexivity);
    try (destruct sx, sy; reflexivity).
  assert (H : Pos.compare_cont Eq my mx = CompOpp (Pos.compare_cont Eq mx my)).
  { now rewrite Pos.compare_cont_antisym. }
  rewrite (Z.compare_antisym ex ey), H.
  destruct sx, sy; cbn; try reflexivity;
    destruct (ex ?= ey); cbn; rewrite ?CompOpp_involutive; reflexivity.
Qed.

Lemma compare_total (x y : spec_float) :
  x <> S754_nan -> y <> S754_nan -> exists c, SFcompare x y = Some c.
Proof.
  destruct x as [sx|sx| |sx mx ex], y as [sy|sy| |sy my ey]; cbn;
    try congruence; intros _ _; eexists; reflexivity.
Qed.

(** For numbers, [b < a] is the negation of [a <= b]. *)
Lemma ltb_negb_leb (a b : float) :
  PrimFloat.is_nan a = false -> PrimFloat.is_nan b = false ->
  (b <? a)%float = negb (a <=? b)%float.
Proof.
  intros A B. rewrite FloatAxioms.ltb_spec, FloatAxioms.leb_spec. unfold SFltb, SFleb.
  rewrite (compare_antisym (Prim2SF a) (Prim2SF b)).
  destruct (compare_total (Prim2SF a) (Prim2SF b)) as [c ->].
  - rewrite nan_iff. congruence.
  - rewrite nan_iff. congruence.
  - now destruct c.
Qed.

(** *** Mantissas and comparisons of positive doubles *)

(** A double above the subnormal range has a mantissa of exactly 53 bits. *)
Lemma mantissa_normal (x : float) (s : bool) (m : positive) (e : Z) :
  Prim2SF x = S754_finite s m e -> -1074 < e -> 2 ^ 52 <= Z.pos m.
Proof.
  intros E N. pose proof (Prim2SF_valid x) as V. rewrite E in V.
  cbn [SpecFloat.valid_binary] in V. unfold bounded, canonical_mantissa in V.
  apply andb_prop in V as [V _]. apply Z.eqb_eq in V.
  unfold fexp, emin, prec, emax in V.
  apply Z.nlt_ge. intros H. apply (digits2_bound m 52) in H; lia.
Qed.

Lemma mantissa_below (x : float) (s : bool) (m : positive) (e : Z) :
  Prim2SF x = S754_finite s m e -> Z.pos m < 2 ^ 53.
Proof.
  intros E. apply (digits2_bound m 53); [lia|]. exact (mantissa_bound x s m e E).
Qed.

Lemma leb_finite (m1 m2 : positive) (e1 e2 : Z) :
  SFleb (S754_finite false m1 e1) (S754_finite false m2 e2) = true ->
  e1 < e2 \/ (e1 = e2 /\ Z.pos m1 <= Z.pos m2).
Proof.
  unfold SFleb. cbn [SFcompare].
  destruct (Z.compare_spec e1 e2) as [E|E|E]; [|now left|discriminate].
  fold (Pos.compare m1 m2). destruct (Pos.compare_spec m1 m2); try discriminate; intros _; right; lia.
Qed.

Lemma ltb_finite (m1 m2 : positive) (e1 e2 : Z) :
  SFltb (S754_finite false m1 e1) (S754_finite false m2 e2) = true ->
  e1 < e2 \/ (e1 = e2 /\ Z.pos m1 < Z.pos m2).
Proof.
  unfold SFltb. cbn [SFcompare].
  destruct (Z.compare_spec e1 e2) as [E|E|E]; [|now left|discriminate].
  fold (Pos.compare m1 m2). destruct (Pos.compare_spec m1 m2); try discriminate; intros _; right; lia.
Qed.

(** Equality with a non-zero finite double is identity. *)
Lemma eqb_finite (x c : float) (s : bool) (m : positive) (e : Z) :
  Prim2SF c = S754_finite s m e -> PrimFloat.eqb x c = true -> x = c.
Proof.
  intros C H. apply Prim2SF_inj. rewrite FloatAxioms.eqb_spec, C in H. rewrite C.
  unfold SFeqb in H.
  destruct (Prim2SF x) as [sx|sx| |sx mx ex]; cbn [SFcompare] in H;
    try discriminate H; try (destruct sx; discriminate H);
    try (destruct s; discriminate H).
  destruct sx, s; try discriminate H;
    destruct (Z.compare_spec ex e) as [E|E|E]; try discriminate H;
    fold (Pos.compare mx m) in H; cbn [CompOpp] in H;
    destruct (Pos.compare_spec mx m) as [M|M|M]; try discriminate H; now subst.
Qed.

End SF.

(** ** The codec in binary64 arithmetic *)

Module IEEECodec.

Local Open Scope float_scope.

Ltac ops :=
  cbn [jadd jsub jmul jdiv jlt jle Math_floor Math_max Math_min array_index lit
       IEEE] in *.

Lemma ieee_index (k : nat) :
  (k < 4)%nat -> array_index (of_nat (num := float) k) = Some (N.of_nat k).
Proof. intros K. do 4 (destruct k as [|k]; [reflexivity|]). lia. Qed.

(** [Math.min(3, Math.max(0, x))] on a number [x]. *)
Lemma clamp_cases (x : float) :
  PrimFloat.is_nan x = false ->
  clamp x = if 0 <? x then (if 3 <? x then 3 else x) else 0.
Proof.
  intros N. unfold clamp. ops.
  change (F64.lit 3) with 3. change (F64.lit 0) with 0.
  unfold F64.max. rewrite N.
  change (PrimFloat.is_nan 0) with false. cbn [orb].
  change (F64.is_neg_zero 0) with false.
  destruct (0 <? x) eqn:P.
  - unfold F64.min. rewrite N.
    change (PrimFloat.is_nan 3) with false. cbn [orb].
    change (F64.is_neg_zero 3) with false.
    destruct (3 <? x); [reflexivity|]. now destruct (x <? 3).
  - now destruct (x <? 0).
Qed.

Lemma sf_0 : Prim2SF 0 = S754_zero false.
Proof. reflexivity. Qed.

Lemma sf_3 : Prim2SF 3 = S754_finite false 6755399441055744 (-51).
Proof. reflexivity. Qed.

Lemma not_nan (x : float) : Prim2SF x <> S754_nan -> PrimFloat.is_nan x = false.
Proof.
  intros H. destruct (PrimFloat.is_nan x) eqn:N; [|reflexivity].
  now apply SF.nan_iff in N.
Qed.

(** What the clamp returns, from the specification-level value. *)
Lemma clamp_by_value (x : float) :
  Prim2SF x <> S754_nan ->
  clamp x =
    if SFltb (S754_zero false) (Prim2SF x)
    then (if SFltb (S754_finite false 6755399441055744 (-51)) (Prim2SF x)
          then 3 else x)
    else 0.
Proof.
  intros H. rewrite (clamp_cases x (not_nan x H)).
  now rewrite !FloatAxioms.ltb_spec, sf_0, sf_3.
Qed.

(** The floor of a number, clamped, is one of 0, 1, 2 and 3. *)
Lemma ieee_clamp_floor (q : float) :
  PrimFloat.is_nan q = false ->
  exists k, (k < 4)%nat /\ clamp (Math_floor q) = of_nat k.
Proof.
  intros N. ops. unfold F64.floor.
  assert (Q : Prim2SF q <> S754_nan) by (rewrite SF.nan_iff; congruence).
  destruct (Prim2SF q) as [s|s| |s m e] eqn:E; [| |congruence|].
  - rewrite (clamp_by_value q), E by congruence.
    exists 0%nat. split; [lia|reflexivity].
  - rewrite (clamp_by_value q), E by congruence.
    destruct s; [exists 0%nat|exists 3%nat]; (split; [lia|reflexivity]).
  - destruct (Z.leb_spec 0 e) as [P|P].
    + rewrite (clamp_by_value q), E by congruence.
      destruct s; [exists 0%nat; split; [lia|reflexivity]|].
      exists 3%nat. split; [lia|]. cbn.
      destruct e; try lia; reflexivity.
    + pose proof (SF.mantissa_bound q s m e E) as M.
      apply SF.digits2_bound in M; [|lia].
      assert (W : (1 < 2 ^ (- e))%Z) by (apply Z.pow_gt_1; lia).
      unfold F64.of_Z. destruct s; cbn [cond_Zopp].
      * set (n := (- Z.pos m / 2 ^ (- e))%Z).
        assert (B : (- 2 ^ 53 < n < 0)%Z).
        { split.
          - apply Z.lt_le_trans with (- Z.pos m)%Z; [lia|].
            apply Z.div_le_lower_bound; nia.
          - apply Z.div_lt_upper_bound; lia. }
        destruct (Z.ltb_spec n 0) as [_|]; [|lia].
        destruct (SF.of_uint63_small (- n)) as (mz & d & _ & _ & V); [lia|].
        assert (V' : Prim2SF (- of_uint63 (Uint63.of_Z (- n)))
                     = S754_finite true mz (d - 53)).
        { now rewrite FloatAxioms.opp_spec, V. }
        rewrite clamp_by_value, V' by (rewrite V'; discriminate).
        exists 0%nat. split; [lia|reflexivity].
      * set (n := (Z.pos m / 2 ^ (- e))%Z).
        assert (B : (0 <= n < 2 ^ 53)%Z).
        { split; [apply Z.div_pos; lia|].
          apply Z.div_lt_upper_bound; nia. }
        destruct (Z.ltb_spec n 0) as [|_]; [lia|].
        assert (C : (n = 0 \/ n = 1 \/ n = 2 \/ n = 3 \/ 4 <= n)%Z) by lia.
        destruct C as [->|[->|[->|[->|C]]]].
        -- exists 0%nat. split; [lia|reflexivity].
        -- exists 1%nat. split; [lia|reflexivity].
        -- exists 2%nat. split; [lia|reflexivity].
        -- exists 3%nat. split; [lia|reflexivity].
        -- destruct (SF.of_uint63_small n) as (mz & d & D & [_ U] & V); [lia|].
           assert (D3 : (3 <= d)%Z).
           { apply Z.nlt_ge. intros D2.
             assert (2 ^ d <= 2 ^ 2)%Z by (apply Z.pow_le_mono_r; lia). lia. }
           rewrite clamp_by_value, V by (rewrite V; discriminate).
           exists 3%nat. split; [lia|]. unfold SFltb. cbn [SFcompare].
           now rewrite (proj2 (Z.compare_lt_iff (-51) (d - 53))) by lia.
Qed.

(** *** The working rectangles *)

Lemma finite_spec (x : float) : finite x = true -> finite_value (Prim2SF x).
Proof.
  unfold finite, PrimFloat.is_finite, Prim2SF.
  destruct (PrimFloat.is_nan x); [discriminate|].
  destruct (PrimFloat.is_infinity x); [discriminate|]. intros _.
  destruct (PrimFloat.is_zero x); [exact I|].
  destruct (Z.frexp x) as [r e].
  destruct (shr_fexp _ _ _ _ _) as [mrs e'].
  now destruct (shr_m mrs).
Qed.

Lemma divisor_spec (x : float) :
  divisor x = true -> exists s m e, Prim2SF x = S754_finite s m e.
Proof.
  unfold divisor. intros H. apply andb_prop in H as [F Z].
  apply finite_spec in F.
  destruct (Prim2SF x) as [s| | |s m e] eqn:E; try contradiction.
  - unfold PrimFloat.is_zero in Z. rewrite FloatAxioms.eqb_spec, E in Z.
    discriminate Z.
  - now exists s, m, e.
Qed.

Lemma quotient_number (a b d : float) :
  finite a = true -> finite b = true -> divisor d = true ->
  PrimFloat.is_nan ((a - b) / d) = false.
Proof.
  intros A B D. apply not_nan. rewrite FloatAxioms.div_spec, FloatAxioms.sub_spec.
  destruct (divisor_spec d D) as (s & m & e & ->).
  apply SF.div_not_nan, SF.sub_not_nan; now apply finite_spec.
Qed.

Lemma of_nat_indices (k : nat) : (k < 4)%nat -> In (of_nat k) indices.
Proof.
  intros K. unfold indices.
  do 4 (destruct k as [|k]; [cbn; tauto|]). lia.
Qed.

Lemma lat_tree_REGION : lat_tree 10 2.5 38.5 = true.
Proof. vm_compute. reflexivity. Qed.

Lemma lon_tree_REGION : lon_tree 10 63.5 99.5 = true.
Proof. vm_compute. reflexivity. Qed.

Section Run.
Variables lat lon : float.
Hypothesis finite_lat : finite lat = true.
Hypothesis finite_lon : finite lon = true.

Lemma ieee_step (n : nat) (b : rect float) :
  IEEEInv (S n) b ->
  exists rc, in_grid rc /\
    encode_row lat b = of_nat (fst rc) /\
    encode_col lon b = of_nat (snd rc) /\
    IEEEInv n (narrow b (of_nat (fst rc)) (of_nat (snd rc))).
Proof.
  intros [TA TO]. cbn [lat_tree lon_tree] in TA, TO.
  apply andb_prop in TA as [TA CA]. apply andb_prop in TA as [FA DA].
  apply andb_prop in TO as [TO CO]. apply andb_prop in TO as [FO DO].
  rewrite forallb_forall in CA, CO.
  destruct (ieee_clamp_floor ((maxLat b - lat) / ((maxLat b - minLat b) / 4)))
    as (r & R & ER); [now apply quotient_number|].
  destruct (ieee_clamp_floor ((lon - minLon b) / ((maxLon b - minLon b) / 4)))
    as (c & C & EC); [now apply quotient_number|].
  exists (r, c). cbn [fst snd].
  split; [now split|]. split; [exact ER|]. split; [exact EC|].
  split.
  - exact (CA _ (of_nat_indices r R)).
  - exact (CO _ (of_nat_indices c C)).
Qed.

End Run.

(** *** In-bounds points *)

Lemma is_finite_finite (x : float) : finite_value (Prim2SF x) -> finite x = true.
Proof.
  intros F. unfold finite, PrimFloat.is_finite, PrimFloat.is_infinity.
  rewrite FloatAxioms.eqb_spec, FloatAxioms.abs_spec.
  rewrite (not_nan x) by (intros E; now rewrite E in F).
  now destruct (Prim2SF x).
Qed.

Lemma between_finite (lo hi x : float) :
  finite lo = true -> finite hi = true ->
  (lo <=? x) = true -> (x <=? hi) = true -> finite x = true.
Proof.
  intros L H A B. apply finite_spec in L, H. apply is_finite_finite.
  rewrite FloatAxioms.leb_spec in A, B.
  destruct (Prim2SF x) as [s|s| |s m e]; cbn; trivial.
  - destruct s.
    + now destruct (Prim2SF lo).
    + now destruct (Prim2SF hi).
  - now destruct (Prim2SF lo).
Qed.

Lemma isWithinBounds_finite (lat lon : float) :
  isWithinBounds lat lon = true -> finite lat = true /\ finite lon = true.
Proof.
  unfold isWithinBounds. ops. rewrite !andb_true_iff. intros [[[A B] C] D].
  split; eapply between_finite; eauto; reflexivity.
Qed.

Lemma out_of_range_isWithinBounds (lat lon : float) :
  PrimFloat.is_nan lat = false -> PrimFloat.is_nan lon = false ->
  out_of_range lat lon = negb (isWithinBounds lat lon).
Proof.
  intros A O. unfold out_of_range, isWithinBounds. ops.
  rewrite (SF.ltb_negb_leb MIN_LAT lat), (SF.ltb_negb_leb lat MAX_LAT),
          (SF.ltb_negb_leb MIN_LON lon), (SF.ltb_negb_leb lon MAX_LON);
    trivial.
  now destruct (_ <=? lat), (lat <=? _), (_ <=? lon), (lon <=? _).
Qed.

Lemma finite_number (x : float) : finite x = true -> PrimFloat.is_nan x = false.
Proof.
  unfold finite, PrimFloat.is_finite. now destruct (PrimFloat.is_nan x).
Qed.

(** The loop of [encodeDigipin] runs its ten iterations on an in-bounds
    point, each with a row and a column of the grid. *)
Lemma ieee_encode_path (lat lon : float) :
  isWithinBounds lat lon = true ->
  exists path, List.length path = 10%nat /\
    follows lat lon REGION path /\
    encodeDigipin lat lon = Normal (Some (code_of path)).
Proof.
  intros W. destruct (isWithinBounds_finite lat lon W) as [FA FO].
  assert (G : out_of_range lat lon = false).
  { rewrite out_of_range_isWithinBounds, W by now apply finite_number.
    reflexivity. }
  assert (I : IEEEInv (10 + 0) REGION).
  { split; [exact lat_tree_REGION|exact lon_tree_REGION]. }
  destruct (Inv_follows lat lon IEEEInv (ieee_step lat lon FA FO) 10 0 _ I)
    as (path & L & F & _).
  exists path. split; [exact L|]. split; [exact F|].
  unfold encodeDigipin. fold (out_of_range lat lon). rewrite G.
  unfold encode_loop.
  rewrite (encode_follows lat lon ieee_index path (seq 0 10) REGION []); trivial.
  now rewrite L.
Qed.

(** *** The floor of a quotient, from comparisons *)

(** [Math.floor] of a positive double below [2^53], from its mantissa. *)
Lemma floor_small (x : float) (m : positive) (e : Z) (k : Z) :
  Prim2SF x = S754_finite false m e -> (e < 0)%Z ->
  (k * 2 ^ (- e) <= Z.pos m < (k + 1) * 2 ^ (- e))%Z ->
  F64.floor x = F64.of_Z k.
Proof.
  intros E N B. unfold F64.floor. rewrite E.
  destruct (Z.leb_spec 0 e) as [|_]; [lia|]. cbn [cond_Zopp].
  f_equal. symmetry. apply Z.div_unique with (Z.pos m - k * 2 ^ (- e))%Z; [|lia].
  left. lia.
Qed.

(** A number between an index and the next integer is floored, and
    clamped, to the index. *)
Lemma clamp_floor_unit (q : float) (k : nat) :
  (k < 4)%nat -> (of_nat k <=? q) = true -> (q <? of_nat k + 1) = true ->
  clamp (Math_floor q) = of_nat k.
Proof.
  intros K Lo Hi. rewrite FloatAxioms.leb_spec in Lo. rewrite FloatAxioms.ltb_spec in Hi.
  cbn [Math_floor IEEE].
  assert (P52 : (2 ^ 52 = 4503599627370496)%Z) by reflexivity.
  assert (P51 : (2 ^ 51 = 2251799813685248)%Z) by reflexivity.
  assert (P53 : (2 ^ 53 = 9007199254740992)%Z) by reflexivity.
  assert (C : k = 0%nat \/ k = 1%nat \/ k = 2%nat \/ k = 3%nat) by lia.
  destruct C as [C|[C|[C|C]]]; subst k.
  - change (Prim2SF (of_nat 0)) with (S754_zero false) in Lo.
    change (Prim2SF (of_nat 0 + 1)) with (S754_finite false 4503599627370496 (-52)) in Hi.
    destruct (Prim2SF q) as [s|s| |s m e] eqn:E;
      [|destruct s; discriminate|discriminate|destruct s; [discriminate|]].
    + unfold F64.floor. rewrite E.
      rewrite (clamp_by_value q), E by congruence. reflexivity.
    + pose proof (SF.mantissa_below q _ _ _ E) as U.
      apply SF.ltb_finite in Hi.
      rewrite (floor_small q m e 0 E); [reflexivity|lia|].
      split; [lia|]. destruct Hi as [Hi|[-> Hi]]; [|cbn; lia].
      assert (2 ^ 53 <= 2 ^ (- e))%Z by (apply Z.pow_le_mono_r; lia). lia.
  - change (Prim2SF (of_nat 1)) with (S754_finite false 4503599627370496 (-52)) in Lo.
    change (Prim2SF (of_nat 1 + 1)) with (S754_finite false 4503599627370496 (-51)) in Hi.
    destruct (Prim2SF q) as [s|s| |s m e] eqn:E;
      [discriminate|destruct s; discriminate|discriminate|destruct s; [discriminate|]].
    pose proof (SF.mantissa_below q _ _ _ E) as U.
    apply SF.leb_finite in Lo. apply SF.ltb_finite in Hi.
    assert (e = -52 \/ e = -51)%Z as [->| ->] by lia.
    + rewrite (floor_small q m (-52) 1 E); [reflexivity|lia|]. cbn. lia.
    + pose proof (SF.mantissa_normal q _ _ _ E). lia.
  - change (Prim2SF (of_nat 2)) with (S754_finite false 4503599627370496 (-51)) in Lo.
    change (Prim2SF (of_nat 2 + 1)) with (S754_finite false 6755399441055744 (-51)) in Hi.
    destruct (Prim2SF q) as [s|s| |s m e] eqn:E;
      [discriminate|destruct s; discriminate|discriminate|destruct s; [discriminate|]].
    apply SF.leb_finite in Lo. apply SF.ltb_finite in Hi.
    assert (e = -51)%Z as -> by lia.
    rewrite (floor_small q m (-51) 2 E); [reflexivity|lia|]. cbn. lia.
  - change (Prim2SF (of_nat 3)) with (S754_finite false 6755399441055744 (-51)) in Lo.
    change (Prim2SF (of_nat 3 + 1)) with (S754_finite false 4503599627370496 (-50)) in Hi.
    destruct (Prim2SF q) as [s|s| |s m e] eqn:E;
      [discriminate|destruct s; discriminate|discriminate|destruct s; [discriminate|]].
    pose proof (SF.mantissa_below q _ _ _ E) as U.
    apply SF.leb_finite in Lo. apply SF.ltb_finite in Hi.
    assert (e = -51 \/ e = -50)%Z as [->| ->] by lia.
    + rewrite (floor_small q m (-51) 3 E); [reflexivity|lia|]. cbn. lia.
    + pose proof (SF.mantissa_normal q _ _ _ E). lia.
Qed.

(** The code of an in-bounds point, from the rows and columns of the loop. *)
Lemma ieee_encode_follows (lat lon : float) (path : list (nat * nat)) :
  isWithinBounds lat lon = true -> List.length path = 10%nat ->
  follows lat lon REGION path ->
  encodeDigipin lat lon = Normal (Some (code_of path)).
Proof.
  intros W L F. destruct (isWithinBounds_finite lat lon W) as [FA FO].
  assert (G : out_of_range lat lon = false).
  { rewrite out_of_range_isWithinBounds, W
      by now apply finite_number.
    reflexivity. }
  unfold encodeDigipin. fold (out_of_range lat lon). rewrite G.
  unfold encode_loop.
  rewrite (encode_follows lat lon ieee_index path (seq 0 10) REGION []); trivial.
  now rewrite L.
Qed.

End IEEECodec.

(** ** The model of the numbers, on examples *)

Local Open Scope float_scope.

Example literals :
  (MIN_LAT, MAX_LAT, MIN_LON, MAX_LON) = (2.5, 38.5, 63.5, 99.5) /\
  (lit 0, lit 2, lit 3, lit 4) = (0, 2, 3, 4) /\
  (of_nat 0, of_nat 1, of_nat 2, of_nat 3) = (0, 1, 2, 3).
Proof. repeat split. Qed.

Example floor_examples :
  Math_floor 2.75 = 2 /\ Math_floor (-2.75) = -3 /\ Math_floor (-0.5) = -1 /\
  Math_floor 0.5 = 0 /\ Math_floor 4 = 4 /\ Math_floor (-0) = -0 /\
  Math_floor infinity = infinity /\ Math_floor nan = nan /\
  Math_floor 4503599627370497 = 4503599627370497.
Proof. repeat split. Qed.

Example clamp_examples :
  clamp 4 = 3 /\ clamp (-1) = 0 /\ clamp 2 = 2 /\ clamp (-0) = 0 /\
  clamp infinity = 3 /\ clamp neg_infinity = 0 /\ clamp nan = nan /\
  Math_max 0 (-0) = 0 /\ Math_max (-0) 0 = 0 /\
  Math_min 0 (-0) = -0 /\ Math_min (-0) 0 = -0.
Proof. repeat split. Qed.

Example index_examples :
  array_index 3 = Some 3%N /\ array_index (-0) = Some 0%N /\
  array_index 2.5 = None /\ array_index (-1) = None /\ array_index nan = None /\
  js_get DIGIPIN_GRID 4 = None /\ grid_at nan 0 = Throw /\
  grid_at 0 nan = Normal None /\ grid_at 1 2 = Normal (Some (Latin1 "2")).
Proof. repeat split. Qed.

(** What [NaN] does to [encodeDigipin]: it passes the guard, and the lookup
    throws on a [NaN] row and yields [undefined] on a [NaN] column. *)
Example encode_nan :
  encodeDigipin nan 70 = Throw /\
  encodeDigipin 12.5 nan = Normal (Some (str "und-efi-nedu")).
Proof. split; vm_compute; reflexivity. Qed.

Local Close Scope float_scope.

(** ** Encoding in binary64 arithmetic *)

Local Open Scope float_scope.

(** C3. For all numbers [lat] and [lon], [encodeDigipin lat lon] is [null]
    exactly when [lat < 2.5], [lat > 38.5], [lon < 63.5] or [lon > 99.5],
    which is exactly when [isWithinBounds lat lon] is false; it never
    throws; and [encodeDigipin 0 0] is [null]. *)
Theorem out_of_range_rejection (lat lon : float) :
  PrimFloat.is_nan lat = false -> PrimFloat.is_nan lon = false ->
  (encodeDigipin lat lon = Normal None <->
     (lat <? 2.5) = true \/ (38.5 <? lat) = true \/
     (lon <? 63.5) = true \/ (99.5 <? lon) = true) /\
  (encodeDigipin lat lon = Normal None <-> isWithinBounds lat lon = false) /\
  encodeDigipin lat lon <> Throw /\
  encodeDigipin 0 0 = Normal None.
Proof.
  intros A O.
  pose proof (IEEECodec.out_of_range_isWithinBounds lat lon A O) as G.
  assert (R : out_of_range lat lon = true <->
              (lat <? 2.5) = true \/ (38.5 <? lat) = true \/
              (lon <? 63.5) = true \/ (99.5 <? lon) = true).
  { unfold out_of_range. rewrite !orb_true_iff. cbn. tauto. }
  destruct (isWithinBounds lat lon) eqn:W.
  - destruct (IEEECodec.ieee_encode_path lat lon W) as (path & _ & _ & E).
    rewrite E. cbn [negb] in G.
    split; [|split; [|split; [discriminate|reflexivity]]].
    + rewrite <- R, G. split; discriminate.
    + split; discriminate.
  - cbn [negb] in G.
    assert (E : encodeDigipin lat lon = Normal None).
    { unfold encodeDigipin. fold (out_of_range lat lon). now rewrite G. }
    rewrite E.
    split; [|split; [|split; [discriminate|reflexivity]]].
    + rewrite <- R, G. tauto.
    + tauto.
Qed.

Lemma out_of_range_rejection_witness :
  (encodeDigipin 12.5 77.5 = Normal None <->
     (12.5 <? 2.5) = true \/ (38.5 <? 12.5) = true \/
     (77.5 <? 63.5) = true \/ (99.5 <? 77.5) = true) /\
  (encodeDigipin 12.5 77.5 = Normal None <-> isWithinBounds 12.5 77.5 = false) /\
  encodeDigipin 12.5 77.5 <> Throw /\
  encodeDigipin 0 0 = Normal None.
Proof. apply (out_of_range_rejection 12.5 77.5); reflexivity. Defined.

(** C5. For every in-bounds point, in each of the ten iterations of
    [encodeDigipin] the clamped row and column are among 0, 1, 2 and 3, the
    grid lookup finds a symbol, and [encodeDigipin] does not throw.  A point
    on subdivision lines gets the cell to the south and east of them:
    [(29.5, 72.5)], on the first lines of the first level, gets the cell
    whose northern edge is 29.5 and whose western edge is 72.5.  On the
    southern edge of the region the floor is 4 and the clamp makes it row 3:
    [(2.5, 99.5)] gets the south-east corner cell.  In exact arithmetic,
    the north-west corner of every cell, a point on a line of each axis,
    gets the code of that cell. *)
Theorem clamped_indices_in_range (lat lon : float) :
  isWithinBounds lat lon = true ->
  (forall level, (level < 10)%nat ->
     exists b digipin r c,
       encode_loop lat lon (seq 0 level) = Normal (b, digipin) /\
       (r < 4)%nat /\ (c < 4)%nat /\
       encode_row lat b = of_nat r /\ encode_col lon b = of_nat c /\
       grid_at (encode_row lat b) (encode_col lon b) = Normal (Some (symbol (r, c)))) /\
  encodeDigipin lat lon <> Throw /\
  encodeDigipin 29.5 72.5 = Normal (Some (str "3FF-FFF-FFFF")) /\
  (exists d, decodeDigipin (str "3FF-FFF-FFFF") = Normal (Some d) /\
             maxLat (bounds d) = 29.5 /\ minLon (bounds d) = 72.5) /\
  Math_floor ((38.5 - 2.5) / latDiv REGION) = 4 /\
  encode_row 2.5 REGION = 3 /\
  encodeDigipin 2.5 99.5 = Normal (Some (str "TTT-TTT-TTTT")) /\
  (forall path, List.length path = 10%nat -> Forall in_grid path ->
     let b := narrow_all (num := Q) REGION path in
     encodeDigipin (maxLat b) (minLon b) = Normal (Some (code_of path))).
Proof.
  intros W. destruct (IEEECodec.ieee_encode_path lat lon W) as (path & L & F & E).
  split; [|split; [rewrite E; discriminate|split; [|split; [|split; [|split; [|split]]]]]].
  - intros level V.
    destruct (follows_level lat lon IEEECodec.ieee_index path level REGION F)
      as ([r c] & _ & [R C] & H); [lia|].
    cbv zeta in H. destruct H as (H1 & H2 & H3 & H4).
    exists (narrow_all REGION (firstn level path)), (map symbol (firstn level path)), r, c.
    repeat split; trivial.
  - vm_compute. reflexivity.
  - eexists. split; [vm_compute; reflexivity|]. split; reflexivity.
  - reflexivity.
  - reflexivity.
  - vm_compute. reflexivity.
  - exact ExactCodec.corner_code.
Qed.

Lemma clamped_indices_in_range_witness :
  isWithinBounds 29.5 72.5 = true /\
  encodeDigipin 29.5 72.5 <> Throw.
Proof.
  split; [reflexivity|].
  exact (proj1 (proj2 (clamped_indices_in_range 29.5 72.5 eq_refl))).
Defined.

(** C6. For every in-bounds point, [encodeDigipin] returns twelve
    characters: ten symbols of the alphabet, with a hyphen after the third
    and after the sixth; and [isValidDigipin] accepts the result. *)
Theorem encode_format (lat lon : float) :
  isWithinBounds lat lon = true ->
  exists c0 c1 c2 c3 c4 c5 c6 c7 c8 c9,
    let code := grouped c0 c1 c2 c3 c4 c5 c6 c7 c8 c9 in
    encodeDigipin lat lon = Normal (Some code) /\
    Forall (fun c => In c ALPHABET) [c0; c1; c2; c3; c4; c5; c6; c7; c8; c9] /\
    List.length code = 12%nat /\
    isValidDigipin code = true.
Proof.
  intros W. destruct (IEEECodec.ieee_encode_path lat lon W) as (path & L & F & E).
  apply follows_in_grid in F.
  pose proof (symbols_alphabet path F) as A.
  pose proof (isValid_code_of path L F) as V.
  unfold code_of in *.
  destruct (length10_inv (map symbol path)) as
    (c0 & c1 & c2 & c3 & c4 & c5 & c6 & c7 & c8 & c9 & S);
    [now rewrite length_map|].
  rewrite S in *.
  exists c0, c1, c2, c3, c4, c5, c6, c7, c8, c9. cbv zeta.
  repeat split; trivial.
Qed.

Lemma encode_format_witness :
  isWithinBounds 12.5 77.5 = true /\
  exists c0 c1 c2 c3 c4 c5 c6 c7 c8 c9,
    let code := grouped c0 c1 c2 c3 c4 c5 c6 c7 c8 c9 in
    encodeDigipin 12.5 77.5 = Normal (Some code) /\
    Forall (fun c => In c ALPHABET) [c0; c1; c2; c3; c4; c5; c6; c7; c8; c9] /\
    List.length code = 12%nat /\
    isValidDigipin code = true.
Proof. split; [reflexivity|]. apply (encode_format 12.5 77.5). reflexivity. Defined.

(** ** The reference code and the points where the claims are decided *)

(** C2. [decodeDigipin "4P3-JM8-K4L6"] succeeds, and [encodeDigipin] of the
    centre it returns is ["4P3-JM8-K4L6"] again; in binary64 and in exact
    arithmetic. *)
Theorem known_vector_self_consistent :
  (exists d : decoded float,
     decodeDigipin (str "4P3-JM8-K4L6") = Normal (Some d) /\
     encodeDigipin (lat d) (lon d) = Normal (Some (str "4P3-JM8-K4L6"))) /\
  (exists d : decoded Q,
     decodeDigipin (str "4P3-JM8-K4L6") = Normal (Some d) /\
     encodeDigipin (lat d) (lon d) = Normal (Some (str "4P3-JM8-K4L6"))).
Proof.
  split; eexists; (split; [vm_compute; reflexivity|]); vm_compute; reflexivity.
Qed.

Lemma lat_above_11_5_literal :
  lit (11500000000000002 # 1000000000000000)%Q = lat_above_11_5 /\
  next_up 11.5 = lat_above_11_5.
Proof. split; reflexivity. Qed.

(** C1, at a failing input.  In binary64 [38.5 - 11.500000000000002] rounds
    to 27, so the first row is [floor (27 / 9) = 3], the band from 2.5 to
    11.5; the latitude lies above it.  The point is in bounds, it is
    encoded as ["L98-9F8-9F89"], and the rectangle decoded from that code
    has [maxLat = 11.5 < lat]: it does not contain the point. *)
Theorem round_trip_fails_above_11_5 :
  isWithinBounds lat_above_11_5 70 = true /\
  (38.5 - lat_above_11_5 = 27) /\
  encode_row lat_above_11_5 REGION = 3 /\
  encodeDigipin lat_above_11_5 70 = Normal (Some (str "L98-9F8-9F89")) /\
  exists d,
    decodeDigipin (str "L98-9F8-9F89") = Normal (Some d) /\
    maxLat (bounds d) = 11.5 /\
    (maxLat (bounds d) <? lat_above_11_5) = true /\
    contains (bounds d) lat_above_11_5 70 = false.
Proof.
  split; [reflexivity|]. split; [reflexivity|]. split; [reflexivity|].
  split; [vm_compute; reflexivity|].
  eexists. split; [vm_compute; reflexivity|].
  split; [reflexivity|]. split; reflexivity.
Qed.

(** The same point in exact arithmetic: the first row is 2, and the code
    differs from the binary64 one in every symbol. *)
Example exact_code_above_11_5 :
  encodeDigipin (num := Q) (6473924464345089 # 562949953421312)%Q 70%Q
  = Normal (Some (str "KPT-PLT-PLTP")).
Proof. vm_compute. reflexivity. Qed.

(** C9, at a failing input.  The point [(11.500000000000002, 70)] is in
    bounds and strictly inside the rectangle of ["KPT-PLT-PLTP"], on none
    of its edges, and so is the centre of that rectangle; the centre is
    encoded as ["KPT-PLT-PLTP"], the point as ["L98-9F8-9F89"]: two points
    of one cell with different codes.  The rectangle of ["L98-9F8-9F89"] is
    the neighbour to the south, across the line [lat = 11.5], with the same
    longitude bounds; its centre has the code of the point, last symbol
    included: two points of adjacent cells with one code.  In exact
    arithmetic the point is encoded as the cell it lies in. *)
Theorem monotonic_resolution_fails_by_rounding :
  exists k l : decoded float,
    decodeDigipin (str "KPT-PLT-PLTP") = Normal (Some k) /\
    decodeDigipin (str "L98-9F8-9F89") = Normal (Some l) /\
    (isWithinBounds lat_above_11_5 70 = true /\
     isWithinBounds (lat k) (lon k) = true /\
     inside (bounds k) lat_above_11_5 70 = true /\
     inside (bounds k) (lat k) (lon k) = true /\
     encodeDigipin lat_above_11_5 70 = Normal (Some (str "L98-9F8-9F89")) /\
     encodeDigipin (lat k) (lon k) = Normal (Some (str "KPT-PLT-PLTP"))) /\
    (minLat (bounds k) = 11.5 /\ maxLat (bounds l) = 11.5 /\
     minLon (bounds k) = minLon (bounds l) /\
     maxLon (bounds k) = maxLon (bounds l) /\
     isWithinBounds (lat l) (lon l) = true /\
     inside (bounds l) (lat l) (lon l) = true /\
     encodeDigipin (lat l) (lon l) = Normal (Some (str "L98-9F8-9F89"))) /\
    (lit (6473924464345089 # 562949953421312)%Q = lat_above_11_5 /\
     encodeDigipin (num := Q) (6473924464345089 # 562949953421312)%Q 70%Q
     = Normal (Some (str "KPT-PLT-PLTP"))).
Proof.
  do 2 eexists.
  split; [vm_compute; reflexivity|]. split; [vm_compute; reflexivity|].
  repeat split; vm_compute; reflexivity.
Qed.

(** On a shared edge the closed rectangles overlap, in binary64 and in
    exact arithmetic alike.  The rectangle of ["FFF-FFF-FFFF"] contains the
    in-bounds points [(38.5, 63.5)] and [(edge_lat, 63.5)], whose codes
    differ.  And the
    rectangles of ["FFF-FFF-FFFF"] and ["FFF-FFF-FFFJ"] are adjacent across
    the line [lat = edge_lat]; the point [(edge_lat, 63.5)] of the first and
    the centre of the second have the same code, last symbol included. *)
Lemma monotonic_resolution_fails_on_edges :
  edge_lat = 38.499965667724609375%float /\
  edge_points (num := float) /\ edge_points (num := Q).
Proof.
  split; [reflexivity|].
  split; do 2 eexists;
    (split; [vm_compute; reflexivity|]); (split; [vm_compute; reflexivity|]);
    split; repeat split; vm_compute; reflexivity.
Qed.

(** ** Cells and codes in exact arithmetic *)

Lemma position_symbol (ch : jchar) (rc : nat * nat) :
  table_get CHAR_TO_POS ch = Some rc -> in_grid rc /\ symbol rc = ch.
Proof.
  destruct rc as [r c]. intros E.
  apply CHAR_TO_POS_grid in E as (line & R & C).
  assert (B : (r < 4)%nat)
    by (apply (proj1 (nth_error_Some DIGIPIN_GRID r)); congruence).
  assert (B' : (c < 4)%nat).
  { do 4 (destruct r as [|r]; [injection R as <-;
      change 4%nat with (List.length [ch; ch; ch; ch]);
      rewrite <- nth_error_Some;
      do 4 (destruct c as [|c]; [discriminate|]);
      destruct c; discriminate C|]). lia. }
  split; [now split|].
  unfold symbol. cbn [fst snd].
  rewrite (nth_error_nth DIGIPIN_GRID r [] R).
  exact (nth_error_nth line c hyphen C).
Qed.

Lemma positions_symbol (pin : jstring) (path : list (nat * nat)) :
  positions pin path ->
  Forall in_grid path /\ pin = map symbol path /\ List.length path = List.length pin.
Proof.
  induction 1 as [|ch rc pin path E _ (F & M & L)].
  - repeat split. constructor.
  - destruct (position_symbol ch rc E) as [G S].
    split; [now constructor|]. split.
    + cbn [map]. rewrite S. now f_equal.
    + cbn [List.length]. now rewrite L.
Qed.

Lemma last_code_of (path : list (nat * nat)) :
  List.length path = 10%nat ->
  last (code_of path) hyphen = symbol (last path (0, 0)%nat).
Proof.
  intros L.
  destruct (length10_inv path L) as (p0 & p1 & p2 & p3 & p4 & p5 & p6 & p7 & p8 & p9 & ->).
  reflexivity.
Qed.

(** A code that decodes names a path of ten grid positions; its rectangle is
    the one the path leads to, and its display form the code of the path. *)
Lemma decoded_path (num : Type) (NUM : JsNumber num) (code : jstring) (d : decoded num) :
  decodeDigipin code = Normal (Some d) ->
  exists path,
    List.length path = 10%nat /\ Forall in_grid path /\
    bounds d = narrow_all REGION path /\
    formatDigipin code = code_of path.
Proof.
  intros D.
  pose proof (decodeDigipin_cases (num := num) code) as C. cbv zeta in C.
  destruct C as [[E _]|(path & L & _ & P & E)]; [congruence|].
  rewrite E in D. injection D as <-.
  destruct (positions_symbol _ _ P) as (F & M & Lp).
  exists path. split; [congruence|]. split; [exact F|]. split; [reflexivity|].
  unfold formatDigipin. rewrite L. cbn [Nat.eqb negb]. unfold code_of. now rewrite M.
Qed.

Local Open Scope Q_scope.

(** In exact arithmetic, with a cell taken without its southern and
    eastern edges, unless they are on the boundary of the region: two
    points in the cell of one code are both encoded as that code; and two
    points in cells that share an edge get codes with different last
    symbols. *)
Theorem monotonic_resolution_half_open_cells :
  (forall (code : jstring) (d : decoded Q) (lat1 lon1 lat2 lon2 : Q),
     decodeDigipin code = Normal (Some d) ->
     in_cell (bounds d) lat1 lon1 ->
     in_cell (bounds d) lat2 lon2 ->
     encodeDigipin lat1 lon1 = Normal (Some (formatDigipin code)) /\
     encodeDigipin lat2 lon2 = Normal (Some (formatDigipin code))) /\
  (forall (code1 code2 : jstring) (d1 d2 : decoded Q) (lat1 lon1 lat2 lon2 : Q),
     decodeDigipin code1 = Normal (Some d1) ->
     decodeDigipin code2 = Normal (Some d2) ->
     adjacent (bounds d1) (bounds d2) ->
     in_cell (bounds d1) lat1 lon1 ->
     in_cell (bounds d2) lat2 lon2 ->
     exists s1 s2,
       encodeDigipin lat1 lon1 = Normal (Some s1) /\
       encodeDigipin lat2 lon2 = Normal (Some s2) /\
       last s1 hyphen <> last s2 hyphen).
Proof.
  split.
  - intros code d lat1 lon1 lat2 lon2 D W1 W2.
    destruct (decoded_path Q Exact code d D) as (path & L & F & B & ->).
    rewrite B in W1, W2.
    split; now apply ExactCodec.encode_in_cell.
  - intros code1 code2 d1 d2 lat1 lon1 lat2 lon2 D1 D2 A W1 W2.
    destruct (decoded_path Q Exact code1 d1 D1) as (path1 & L1 & F1 & B1 & _).
    destruct (decoded_path Q Exact code2 d2 D2) as (path2 & L2 & F2 & B2 & _).
    rewrite B1 in *. rewrite B2 in *.
    exists (code_of path1), (code_of path2).
    split; [now apply ExactCodec.encode_in_cell|].
    split; [now apply ExactCodec.encode_in_cell|].
    rewrite (last_code_of path1 L1), (last_code_of path2 L2).
    assert (N1 : path1 <> []) by (intros ->; discriminate L1).
    assert (N2 : path2 <> []) by (intros ->; discriminate L2).
    destruct (exists_last N1) as (p & k & ->). destruct (exists_last N2) as (q & l & ->).
    rewrite !last_last.
    apply Forall_app in F1 as [_ K]. apply Forall_app in F2 as [_ K'].
    apply Forall_inv in K, K'.
    assert (Lpq : List.length p = List.length q).
    { rewrite !length_app in L1, L2. cbn in L1, L2. lia. }
    pose proof (ExactCodec.adjacent_last p q k l Lpq K K' A) as X.
    intros E. apply X.
    pose proof (symbol_position k K) as Sk. pose proof (symbol_position l K') as Sl.
    congruence.
Qed.

Lemma monotonic_resolution_half_open_cells_witness :
  (encodeDigipin (77 # 2) (127 # 2) = Normal (Some (formatDigipin (str "FFF-FFF-FFFF"))) /\
   encodeDigipin (20185079 # 524288) (33292297 # 524288)
   = Normal (Some (formatDigipin (str "FFF-FFF-FFFF")))) /\
  (exists s1 s2,
     encodeDigipin (77 # 2) (127 # 2) = Normal (Some s1) /\
     encodeDigipin (10092535 # 262144) (127 # 2) = Normal (Some s2) /\
     last s1 hyphen <> last s2 hyphen).
Proof.
  split.
  - eapply (proj1 monotonic_resolution_half_open_cells (str "FFF-FFF-FFFF")).
    + vm_compute. reflexivity.
    + vm_compute. repeat split; first [reflexivity | discriminate | left; reflexivity].
    + vm_compute. repeat split; first [reflexivity | discriminate | left; reflexivity].
  - eapply (proj2 monotonic_resolution_half_open_cells
              (str "FFF-FFF-FFFF") (str "FFF-FFF-FFFJ")).
    + vm_compute. reflexivity.
    + vm_compute. reflexivity.
    + vm_compute. left. split; [left; reflexivity|split; reflexivity].
    + vm_compute. repeat split; first [reflexivity | discriminate | left; reflexivity].
    + vm_compute. repeat split; first [reflexivity | discriminate | left; reflexivity].
Defined.

(** * Further properties

    What follows goes beyond round trips of points: it starts from the
    codes.  Every valid code names the cell of a path of ten grid positions;
    the properties are proved for all [4^10 * 4^10] cells, in binary64
    arithmetic by running the loops on every sequence of rows and on every
    sequence of columns, and in exact arithmetic by induction.  The last
    part follows the codes through the handlers of the page. *)

Local Close Scope Q_scope.
Local Close Scope float_scope.

(** ** Codes, paths and cells *)

(** A decoded record is the cell of a path of ten grid positions, which
    spell the normalised code. *)
Lemma decoded_cell (num : Type) (NUM : JsNumber num) (code : jstring) (d : decoded num) :
  decodeDigipin code = Normal (Some d) ->
  exists path,
    List.length path = 10%nat /\ Forall in_grid path /\
    normalize code = map symbol path /\
    d = cell (narrow_all REGION path) /\
    formatDigipin code = code_of path.
Proof.
  intros D.
  pose proof (decodeDigipin_cases (num := num) code) as C. cbv zeta in C.
  destruct C as [[E _]|(path & L & _ & P & E)]; [congruence|].
  rewrite E in D. injection D as <-.
  destruct (positions_symbol _ _ P) as (F & M & Lp).
  exists path. split; [congruence|]. split; [exact F|]. split; [exact M|].
  split; [reflexivity|].
  unfold formatDigipin. rewrite L. cbn [Nat.eqb negb]. unfold code_of. now rewrite M.
Qed.

(** The code of a path determines the path. *)
Lemma code_of_inj (p q : list (nat * nat)) :
  List.length p = 10%nat -> Forall in_grid p ->
  List.length q = 10%nat -> Forall in_grid q ->
  code_of p = code_of q -> map symbol p = map symbol q.
Proof.
  intros Lp Fp Lq Fq E.
  rewrite <- (normalize_code_of p Lp Fp), <- (normalize_code_of q Lq Fq).
  now rewrite E.
Qed.

Lemma Forall_firstn_skipn {A : Type} (P : A -> Prop) (k : nat) (l : list A) :
  Forall P l -> Forall P (firstn k l) /\ Forall P (skipn k l).
Proof. intros F. apply Forall_app. now rewrite firstn_skipn. Qed.

(** A list of symbols spells one path only. *)
Lemma symbols_inj (p q : list (nat * nat)) :
  Forall in_grid p -> Forall in_grid q -> map symbol p = map symbol q -> p = q.
Proof.
  revert q. induction p as [|a p IH]; intros [|b q] G1 G2 E; try discriminate E;
    [reflexivity|].
  injection E as E1 E2.
  apply Forall_cons_iff in G1 as [Ga G1]. apply Forall_cons_iff in G2 as [Gb G2].
  f_equal; [|now apply IH].
  apply symbol_position in Ga, Gb. congruence.
Qed.

(** ** The centres of the cells in binary64 arithmetic *)

Module IEEECentres.

Local Open Scope float_scope.

Lemma ltb_leb (a b : float) : (a <? b) = true -> (a <=? b) = true.
Proof.
  rewrite FloatAxioms.ltb_spec, FloatAxioms.leb_spec. unfold SFltb, SFleb.
  now destruct (SFcompare (Prim2SF a) (Prim2SF b)) as [[]|].
Qed.

Lemma lat_centres_REGION : lat_centres 10 2.5 38.5 [] = true.
Proof. vm_compute. reflexivity. Qed.

Lemma lon_centres_REGION : lon_centres 10 63.5 99.5 [] = true.
Proof. vm_compute. reflexivity. Qed.

Lemma lat_centres_path (path : list (nat * nat)) (b : rect float) (rows : list float) :
  Forall in_grid path ->
  lat_centres (List.length path) (minLat b) (maxLat b) rows = true ->
  let b' := narrow_all b path in
  lat_leaf (minLat b') (maxLat b') (rows ++ rows_of path) = true.
Proof.
  intros F. revert b rows. induction F as [|rc path [G _] _ IH]; intros b rows H; cbv zeta.
  - cbn [rows_of map]. now rewrite app_nil_r.
  - cbn [List.length lat_centres] in H. rewrite forallb_forall in H.
    specialize (H _ (IEEECodec.of_nat_indices _ G)). cbv zeta in H.
    cbn [narrow_all fold_left rows_of map].
    change (rows ++ ?r :: ?l) with (rows ++ [r] ++ l). rewrite app_assoc.
    exact (IH (narrow b (of_nat (fst rc)) (of_nat (snd rc))) _ H).
Qed.

Lemma lon_centres_path (path : list (nat * nat)) (b : rect float) (cols : list float) :
  Forall in_grid path ->
  lon_centres (List.length path) (minLon b) (maxLon b) cols = true ->
  let b' := narrow_all b path in
  lon_leaf (minLon b') (maxLon b') (cols ++ cols_of path) = true.
Proof.
  intros F. revert b cols. induction F as [|rc path [_ G] _ IH]; intros b cols H; cbv zeta.
  - cbn [cols_of map]. now rewrite app_nil_r.
  - cbn [List.length lon_centres] in H. rewrite forallb_forall in H.
    specialize (H _ (IEEECodec.of_nat_indices _ G)). cbv zeta in H.
    cbn [narrow_all fold_left cols_of map].
    change (cols ++ ?r :: ?l) with (cols ++ [r] ++ l). rewrite app_assoc.
    exact (IH (narrow b (of_nat (fst rc)) (of_nat (snd rc))) _ H).
Qed.

Lemma rows_cols_follows (lat lon : float) (path : list (nat * nat)) (b : rect float) :
  Forall in_grid path ->
  lat_rows lat (minLat b) (maxLat b) (rows_of path) = true ->
  lon_cols lon (minLon b) (maxLon b) (cols_of path) = true ->
  follows lat lon b path.
Proof.
  intros F. revert b. induction F as [|rc path G _ IH]; intros b R C; [exact I|].
  cbn [rows_of cols_of map lat_rows lon_cols] in R, C. cbv zeta in R, C.
  apply andb_prop in R as [R R3]. apply andb_prop in R as [R1 R2].
  apply andb_prop in C as [C C3]. apply andb_prop in C as [C1 C2].
  cbn [follows]. split; [exact G|].
  split; [exact (IEEECodec.clamp_floor_unit _ _ (proj1 G) R1 R2)|].
  split; [exact (IEEECodec.clamp_floor_unit _ _ (proj2 G) C1 C2)|].
  exact (IH (narrow b (of_nat (fst rc)) (of_nat (snd rc))) R3 C3).
Qed.

Section Path.
Variable path : list (nat * nat).
Hypothesis path_length : List.length path = 10%nat.
Hypothesis path_in_grid : Forall in_grid path.

Let b := narrow_all (num := float) REGION path.

Lemma ieee_leaves :
  lat_leaf (minLat b) (maxLat b) (rows_of path) = true /\
  lon_leaf (minLon b) (maxLon b) (cols_of path) = true.
Proof.
  split.
  - apply (lat_centres_path path REGION [] path_in_grid).
    rewrite path_length. exact lat_centres_REGION.
  - apply (lon_centres_path path REGION [] path_in_grid).
    rewrite path_length. exact lon_centres_REGION.
Qed.

(** The centre of a cell is in bounds, and the loop of [encodeDigipin]
    retraces the path of the cell from it. *)
Lemma ieee_centre_code :
  isWithinBounds (lat (cell b)) (lon (cell b)) = true /\
  encodeDigipin (lat (cell b)) (lon (cell b)) = Normal (Some (code_of path)).
Proof.
  destruct ieee_leaves as [A O]. unfold lat_leaf, lon_leaf in A, O. cbv zeta in A, O.
  repeat (apply andb_prop in A as [A ?]). repeat (apply andb_prop in O as [O ?]).
  assert (W : isWithinBounds (lat (cell b)) (lon (cell b)) = true).
  { unfold isWithinBounds. cbn [lat lon cell]. IEEECodec.ops.
    rewrite !andb_true_iff. repeat split; assumption. }
  split; [exact W|].
  apply IEEECodec.ieee_encode_follows; [exact W|exact path_length|].
  apply rows_cols_follows; assumption.
Qed.

Lemma ieee_cell_shape :
  (minLat b <? lat (cell b)) = true /\ (lat (cell b) <? maxLat b) = true /\
  (minLon b <? lon (cell b)) = true /\ (lon (cell b) <? maxLon b) = true /\
  (MIN_LAT <=? minLat b) = true /\ (maxLat b <=? MAX_LAT) = true /\
  (MIN_LON <=? minLon b) = true /\ (maxLon b <=? MAX_LON) = true /\
  maxLat b - minLat b = CELL_SIZE /\ maxLon b - minLon b = CELL_SIZE /\
  contains b (lat (cell b)) (lon (cell b)) = true.
Proof.
  destruct ieee_leaves as [A O]. unfold lat_leaf, lon_leaf in A, O. cbv zeta in A, O.
  repeat (apply andb_prop in A as [A ?]). repeat (apply andb_prop in O as [O ?]).
  repeat split; try assumption.
  - now apply (SF.eqb_finite _ CELL_SIZE false 5066549580791808 (-67)).
  - now apply (SF.eqb_finite _ CELL_SIZE false 5066549580791808 (-67)).
  - unfold contains. cbn [lat lon cell]. IEEECodec.ops.
    rewrite !andb_true_iff. repeat split; now apply ltb_leb.
Qed.

End Path.
End IEEECentres.

(** ** The centres of the cells in exact arithmetic *)

Module ExactCentres.
Import ExactCodec.
Local Open Scope Q_scope.

Lemma exact_centre_code (path : list (nat * nat)) :
  List.length path = 10%nat -> Forall in_grid path ->
  let b := narrow_all (num := Q) REGION path in
  encodeDigipin (lat (cell b)) (lon (cell b)) = Normal (Some (code_of path)).
Proof.
  intros L F b. apply encode_in_cell; trivial. fold b.
  destruct (narrow_all_nested path REGION F) as ([PA PO] & _);
    [split; reflexivity|].
  fold b in PA, PO. unfold in_cell. cbn [lat lon cell]. ops. unred.
  assert (H : forall x y : Q, x < y -> x < (x + y) / 2 /\ (x + y) / 2 < y).
  { intros x y H. split; [apply Qlt_shift_div_l|apply Qlt_shift_div_r]; lra. }
  destruct (H _ _ PA), (H _ _ PO).
  split; split; try (left; assumption); lra.
Qed.

End ExactCentres.

(** ** [NaN] arguments *)

Module IEEENaN.

Local Open Scope float_scope.

Lemma nan_unique (x : float) : PrimFloat.is_nan x = true -> x = nan.
Proof.
  intros H. apply Prim2SF_inj. apply SF.nan_iff in H. now rewrite H.
Qed.

Lemma nan_not_within (lat lon : float) :
  PrimFloat.is_nan lat || PrimFloat.is_nan lon = true -> isWithinBounds lat lon = false.
Proof.
  intros H. unfold isWithinBounds. IEEECodec.ops.
  apply orb_prop in H as [H|H]; apply nan_unique in H; subst.
  - reflexivity.
  - change (MIN_LON <=? nan) with false. now rewrite andb_false_r.
Qed.

Section Lon.
Variable lat : float.
Hypothesis finite_lat : finite lat = true.

Lemma nan_col (n level : nat) (b : rect float) (digipin : jstring) :
  lat_tree (S n) (minLat b) (maxLat b) = true -> lon_lost b ->
  exists b',
    encode_step lat nan level (b, digipin) = Normal (b', digipin ++ str "undefined") /\
    lat_tree n (minLat b') (maxLat b') = true /\ lon_lost b'.
Proof.
  intros TA LO. cbn [lat_tree] in TA.
  apply andb_prop in TA as [TA CA]. apply andb_prop in TA as [FA DA].
  rewrite forallb_forall in CA.
  destruct (IEEECodec.ieee_clamp_floor ((maxLat b - lat) / ((maxLat b - minLat b) / 4)))
    as (r & R & ER); [now apply IEEECodec.quotient_number|].
  assert (EC : encode_col nan b = nan).
  { unfold encode_col, lonDiv. destruct LO as [[-> ->]|[-> ->]]; reflexivity. }
  exists (narrow b (of_nat r) nan).
  split; [|split].
  - unfold encode_step. change (encode_row lat b) with
      (clamp (Math_floor ((maxLat b - lat) / ((maxLat b - minLat b) / 4)))).
    rewrite ER, EC.
    assert (G : grid_at (of_nat r) nan = Normal None).
    { do 4 (destruct r as [|r]; [reflexivity|]). lia. }
    rewrite G. reflexivity.
  - exact (CA _ (IEEECodec.of_nat_indices r R)).
  - right. unfold narrow, lonDiv. cbn [minLon maxLon].
    destruct LO as [[-> ->]|[-> ->]]; split; reflexivity.
Qed.

Lemma nan_col_loop (levels : list nat) (b : rect float) (digipin : jstring) :
  lat_tree (List.length levels) (minLat b) (maxLat b) = true -> lon_lost b ->
  exists b',
    for_each levels (encode_step lat nan) (b, digipin)
    = Normal (b', digipin ++ List.concat (repeat (str "undefined") (List.length levels))).
Proof.
  revert b digipin. induction levels as [|level levels IH]; intros b digipin TA LO.
  - exists b. cbn. now rewrite app_nil_r.
  - destruct (nan_col (List.length levels) level b digipin TA LO) as (b1 & E & TA1 & LO1).
    destruct (IH b1 (digipin ++ str "undefined") TA1 LO1) as (b' & E').
    exists b'. cbn [for_each]. rewrite E. unfold bind at 1.
    etransitivity; [exact E'|].
    cbn [List.length repeat List.concat]. now rewrite <- app_assoc.
Qed.

End Lon.

(** [encodeDigipin] with a [NaN] latitude: the guard sees the longitude
    only, and the first lookup throws. *)
Lemma nan_lat (lat lon : float) :
  PrimFloat.is_nan lat = true ->
  encodeDigipin lat lon
  = if (lon <? 63.5) || (99.5 <? lon) then Normal None else Throw.
Proof.
  intros N. apply nan_unique in N. subst lat.
  unfold encodeDigipin. IEEECodec.ops.
  change (nan <? MIN_LAT) with false. change (MAX_LAT <? nan) with false.
  cbn [orb]. change MIN_LON with 63.5. change MAX_LON with 99.5.
  destruct ((lon <? 63.5) || (99.5 <? lon)); reflexivity.
Qed.

(** [encodeDigipin] with a [NaN] longitude: the guard sees the latitude
    only, and every lookup yields [undefined]. *)
Lemma nan_lon (lat lon : float) :
  PrimFloat.is_nan lat = false -> PrimFloat.is_nan lon = true ->
  encodeDigipin lat lon
  = if (lat <? 2.5) || (38.5 <? lat) then Normal None
    else Normal (Some (str "und-efi-nedu")).
Proof.
  intros A N. apply nan_unique in N. subst lon.
  unfold encodeDigipin. IEEECodec.ops.
  change (nan <? MIN_LON) with false. change (MAX_LON <? nan) with false.
  rewrite !orb_false_r. change MIN_LAT with 2.5. change MAX_LAT with 38.5.
  destruct ((lat <? 2.5) || (38.5 <? lat)) eqn:G; [reflexivity|].
  apply orb_false_elim in G as [G1 G2].
  rewrite SF.ltb_negb_leb in G1, G2 by (trivial; reflexivity).
  apply negb_false_iff in G1, G2.
  assert (F : finite lat = true)
    by (apply (IEEECodec.between_finite 2.5 38.5); trivial; reflexivity).
  destruct (nan_col_loop lat F (seq 0 10) REGION [])
    as (b' & E); [exact IEEECodec.lat_tree_REGION|left; split; reflexivity|].
  change (encode_loop lat nan (seq 0 10)
          = Normal (b', [] ++ List.concat (repeat (str "undefined") 10))) in E.
  rewrite E. reflexivity.
Qed.

End IEEENaN.

(** ** The cell of a point in exact arithmetic *)

Module ExactCells.
Import ExactCodec.
Local Open Scope Q_scope.

Section Run.
Variables lat lon : Q.

Lemma cell_step (n : nat) (b : rect Q) :
  CellInv lat lon (S n) b ->
  exists rc, in_grid rc /\
    encode_row lat b = of_nat (fst rc) /\
    encode_col lon b = of_nat (snd rc) /\
    CellInv lat lon n (narrow b (of_nat (fst rc)) (of_nat (snd rc))).
Proof.
  intros ([[WA1 WA2] [WO1 WO2]] & [PA PO] & [RA RO]).
  destruct (quarter _ _ PA) as [DA DA4]. destruct (quarter _ _ PO) as [DO DO4].
  destruct (clamped_quotient (Rat.sub (maxLat b) lat) _ DA) as (r & R & ER & LoA & HiA);
    [unred; destruct WA1 as [?|[? ?]]; lra|unred; destruct WA1 as [?|[? ?]]; lra|].
  destruct (clamped_quotient (Rat.sub lon (minLon b)) _ DO) as (c & C & EC & LoO & HiO);
    [unred; lra|unred; destruct WO2 as [?|[? ?]]; lra|].
  exists (r, c). cbn [fst snd].
  split; [now split|]. split; [exact ER|]. split; [exact EC|].
  destruct (narrow_nested b (r, c) (conj PA PO) (conj R C)) as (P' & N1 & N2 & N3 & N4).
  cbn [fst snd] in P', N1, N2, N3, N4.
  split; [|split; [exact P'|split; lra]].
  clear P' N1 N2 N3 N4.
  unfold in_cell, narrow, latDiv, lonDiv, of_nat. cbn [minLat maxLat minLon maxLon]. ops.
  set (da := Rat.div (Rat.sub (maxLat b) (minLat b)) 4) in *.
  set (do := Rat.div (Rat.sub (maxLon b) (minLon b)) 4) in *.
  clearbody da do. unred.
  split; split.
  - destruct HiA as [H|[-> H]]; [left; lra|right].
    change (inject_Z (Z.of_nat 3)) with 3 in *.
    destruct WA1 as [W|[W1 W2]]; [lra|]. split; lra.
  - lra.
  - lra.
  - destruct HiO as [H|[-> H]]; [left; lra|right].
    change (inject_Z (Z.of_nat 3)) with 3 in *.
    destruct WO2 as [W|[W1 W2]]; [lra|]. split; lra.
Qed.

(** The loop of [encodeDigipin] ends in a cell that has the point. *)
Lemma exact_encode_cell :
  isWithinBounds lat lon = true ->
  exists path, List.length path = 10%nat /\ Forall in_grid path /\
    in_cell (narrow_all REGION path) lat lon /\
    encodeDigipin lat lon = Normal (Some (code_of path)).
Proof.
  intros W.
  assert (I : CellInv lat lon (10 + 0) REGION).
  { apply isWithinBounds_within in W as [[W1 W2] [W3 W4]].
    cbn [REGION minLat maxLat minLon maxLon] in *.
    split; [|split; split; try reflexivity; apply Qle_refl].
    unfold in_cell. cbn [REGION minLat maxLat minLon maxLon].
    split; split; trivial.
    - destruct (Qlt_le_dec MIN_LAT lat) as [H|H]; [now left|right].
      split; [|reflexivity]. now apply Qle_antisym.
    - destruct (Qlt_le_dec lon MAX_LON) as [H|H]; [now left|right].
      split; [|reflexivity]. now apply Qle_antisym. }
  destruct (Inv_follows lat lon (CellInv lat lon) cell_step 10 0 _ I)
    as (path & L & F & (C & _)).
  pose proof (follows_in_grid _ _ _ _ F) as G.
  exists path. split; [exact L|]. split; [exact G|]. split; [exact C|].
  now apply encode_in_cell.
Qed.

End Run.

(** *** The position of a cell *)

Lemma row_col_index_snoc (path : list (nat * nat)) (rc : nat * nat) :
  row_index (path ++ [rc]) = (4 * row_index path + Z.of_nat (fst rc))%Z /\
  col_index (path ++ [rc]) = (4 * col_index path + Z.of_nat (snd rc))%Z.
Proof. unfold row_index, col_index. now rewrite !fold_left_app. Qed.

Lemma index_range (path : list (nat * nat)) :
  Forall in_grid path ->
  (0 <= row_index path < 4 ^ Z.of_nat (List.length path))%Z /\
  (0 <= col_index path < 4 ^ Z.of_nat (List.length path))%Z.
Proof.
  induction path as [|rc path IH] using rev_ind; intros F.
  - cbn. lia.
  - apply Forall_app in F as [F G]. apply Forall_inv in G. destruct G as [G1 G2].
    destruct (IH F) as [[R0 R1] [C0 C1]].
    destruct (row_col_index_snoc path rc) as [-> ->].
    rewrite length_app, Nat.add_1_r, Nat2Z.inj_succ, Z.pow_succ_r by lia.
    lia.
Qed.

End ExactCells.

(** ** Decoding is exact in binary64 arithmetic *)

Section DecodeSymbols.
Context {num : Type} {NUM : JsNumber num}.

(** Decoding a string whose normal form spells a path. *)
Lemma decode_symbols (s : jstring) (path : list (nat * nat)) :
  List.length path = 10%nat -> Forall in_grid path ->
  normalize s = map symbol path ->
  decodeDigipin (num := num) s = Normal (Some (cell (narrow_all REGION path))).
Proof.
  intros L F N. unfold decodeDigipin.
  rewrite N, length_map, L. cbn [Nat.eqb negb].
  rewrite (alphabet_known _ (symbols_alphabet _ F)).
  replace (seq 0 10) with (seq 0 (List.length (map symbol path)))
    by now rewrite length_map, L.
  rewrite (decode_loop_known _ _ REGION (positions_symbols _ F)).
  reflexivity.
Qed.

End DecodeSymbols.

(** *** Doubles with a mantissa of 53 bits *)

Module SFExact.
Local Open Scope Z_scope.

Lemma shift_value (p k : positive) : Z.pos (Pos.iter xO p k) = Z.pos p * 2 ^ Z.pos k.
Proof.
  induction k as [|k IH] using Pos.peano_ind.
  - cbn. lia.
  - rewrite Pos.iter_succ, Pos2Z.inj_succ, Z.pow_succ_r by lia.
    change (Z.pos (Pos.iter xO p k)~0) with (2 * Z.pos (Pos.iter xO p k)). lia.
Qed.

(** Rounding leaves a mantissa of 53 bits with an exponent in range as it is. *)
Lemma binary_round_aux_canonical (s : bool) (m : positive) (e : Z) :
  Z.pos (digits2_pos m) = 53 -> -1074 <= e <= 971 ->
  binary_round_aux prec emax s (Z.pos m) e loc_Exact = S754_finite s m e.
Proof.
  intros M E.
  assert (F' : fexp prec emax (53 + e) - e = 0).
  { unfold fexp, emin, prec, emax. lia. }
  unfold binary_round_aux, shr_fexp. cbn [Zdigits2]. rewrite M, F'.
  cbn [shr shr_record_of_loc shr_m loc_of_shr_record round_nearest_even Zdigits2].
  rewrite M, F'. cbn [shr shr_m].
  destruct (Z.leb_spec e (emax - prec)) as [_|N]; [reflexivity|].
  unfold emax, prec in N. lia.
Qed.

Lemma binary_round_canonical (s : bool) (m : positive) (e : Z) :
  Z.pos (digits2_pos m) = 53 -> -1074 <= e <= 971 ->
  binary_round prec emax s m e = S754_finite s m e.
Proof.
  intros M E. unfold binary_round.
  assert (F : fexp prec emax (Z.pos (digits2_pos m) + e) = e).
  { unfold fexp, emin, prec, emax. lia. }
  rewrite F. unfold shl_align. rewrite Z.sub_diag.
  now apply binary_round_aux_canonical.
Qed.

(** A positive integer below [2^53] as a double: its mantissa and exponent. *)
Lemma binary_normalize_value (p : positive) :
  Z.pos (digits2_pos p) <= 53 ->
  exists m e, binary_normalize prec emax (Z.pos p) 0 false = S754_finite false m e /\
    Z.pos (digits2_pos m) = 53 /\ -52 <= e <= 0 /\ Z.pos m = Z.pos p * 2 ^ (- e).
Proof.
  intros D. cbn [binary_normalize]. unfold binary_round.
  set (d := digits2_pos p) in *.
  assert (F : fexp prec emax (Z.pos d + 0) = Z.pos d - 53).
  { unfold fexp, emin, prec, emax. lia. }
  rewrite F.
  assert (A : exists mz, shl_align p 0 (Z.pos d - 53) = (mz, Z.pos d - 53)
                         /\ Z.pos (digits2_pos mz) = 53
                         /\ Z.pos mz = Z.pos p * 2 ^ (- (Z.pos d - 53))).
  { unfold shl_align. destruct (Z.pos d - 53 - 0) as [|k|k] eqn:K; try lia.
    - exists p. split; [f_equal; lia|]. split; [fold d; lia|].
      replace (- (Z.pos d - 53)) with 0 by lia. lia.
    - exists (Pos.iter xO p k). split; [reflexivity|].
      split; [rewrite SF.digits2_shift; fold d; lia|].
      rewrite shift_value. f_equal. f_equal. lia. }
  destruct A as (mz & -> & M & V). exists mz, (Z.pos d - 53).
  split; [apply binary_round_aux_canonical; [exact M|lia]|].
  split; [exact M|]. split; [lia|exact V].
Qed.

End SFExact.

(** *** The rectangle of a path in exact arithmetic *)

Module ExactPosition.
Import ExactCodec.
Local Open Scope Q_scope.

(** The rectangle and the centre of a path of ten positions, from the
    indices of its row and of its column. *)
Lemma exact_position (path : list (nat * nat)) :
  List.length path = 10%nat ->
  let b := narrow_all (num := Q) REGION path in
  let R := inject_Z (row_index path) in
  let C := inject_Z (col_index path) in
  maxLat b == (77 # 2) - R * (9 # 262144) /\
  minLat b == (77 # 2) - (R + 1) * (9 # 262144) /\
  minLon b == (127 # 2) + C * (9 # 262144) /\
  maxLon b == (127 # 2) + (C + 1) * (9 # 262144) /\
  lat (cell b) == (77 # 2) - (R + (1 # 2)) * (9 # 262144) /\
  lon (cell b) == (127 # 2) + (C + (1 # 2)) * (9 # 262144).
Proof.
  intros L b R C.
  destruct (narrow_all_position path REGION) as (HA & MA & HO & MO).
  cbv zeta in HA, MA, HO, MO. rewrite L in HA, MA, HO, MO.
  fold b in HA, MA, HO, MO. fold R in MA. fold C in MO.
  assert (U : (maxLat REGION - minLat REGION) / pow4 10 == 9 # 262144) by reflexivity.
  assert (V : (maxLon REGION - minLon REGION) / pow4 10 == 9 # 262144) by reflexivity.
  rewrite U in HA, MA. rewrite V in HO, MO.
  change (maxLat REGION) with (77 # 2) in MA. change (minLon REGION) with (127 # 2) in MO.
  cbn [lat lon cell]. ops. unred.
  repeat split; try lra.
  - setoid_replace ((minLat b + maxLat b) / 2) with (maxLat b - (maxLat b - minLat b) / 2)
      by field.
    rewrite HA, MA. field.
  - setoid_replace ((minLon b + maxLon b) / 2) with (minLon b + (maxLon b - minLon b) / 2)
      by field.
    rewrite HO, MO. field.
Qed.

End ExactPosition.

(** *** The rectangle of a path in binary64 arithmetic *)

Module IEEEExact.
Local Open Scope float_scope.

(** Arithmetic on machine integers that does not wrap around. *)
Lemma to_Z_add (a b : int) :
  (Uint63.to_Z a + Uint63.to_Z b < 2 ^ 63)%Z ->
  Uint63.to_Z (a + b)%uint63 = (Uint63.to_Z a + Uint63.to_Z b)%Z.
Proof.
  intros H. rewrite Uint63.add_spec. apply Z.mod_small.
  pose proof (Uint63.to_Z_bounded a). pose proof (Uint63.to_Z_bounded b).
  change wB with (2 ^ 63)%Z in *. lia.
Qed.

Lemma to_Z_mul (a b : int) :
  (Uint63.to_Z a * Uint63.to_Z b < 2 ^ 63)%Z ->
  Uint63.to_Z (a * b)%uint63 = (Uint63.to_Z a * Uint63.to_Z b)%Z.
Proof.
  intros H. rewrite Uint63.mul_spec. apply Z.mod_small.
  pose proof (Uint63.to_Z_bounded a). pose proof (Uint63.to_Z_bounded b).
  change wB with (2 ^ 63)%Z in *. nia.
Qed.

Lemma to_Z_sub (a b : int) :
  (Uint63.to_Z b <= Uint63.to_Z a)%Z ->
  Uint63.to_Z (a - b)%uint63 = (Uint63.to_Z a - Uint63.to_Z b)%Z.
Proof.
  intros H. rewrite Uint63.sub_spec. apply Z.mod_small.
  pose proof (Uint63.to_Z_bounded a). pose proof (Uint63.to_Z_bounded b).
  change wB with (2 ^ 63)%Z in *. lia.
Qed.

(** The digits of a path, collected in a machine integer. *)
Lemma index_to_Z (g : nat * nat -> nat) (path : list (nat * nat)) (R : int) (k : nat) :
  Forall (fun rc => (g rc < 4)%nat) path ->
  (Uint63.to_Z R < 4 ^ Z.of_nat k)%Z -> (k + List.length path <= 30)%nat ->
  Uint63.to_Z (fold_left (fun acc rc => (4 * acc + Uint63.of_Z (Z.of_nat (g rc)))%uint63)
                         path R)
  = fold_left (fun acc rc => (4 * acc + Z.of_nat (g rc))%Z) path (Uint63.to_Z R).
Proof.
  intros F. revert R k. induction F as [|rc path G _ IH]; intros R k B L; [reflexivity|].
  cbn [fold_left List.length] in *.
  assert (P : (4 ^ Z.of_nat (S k) <= 4 ^ 30)%Z) by (apply Z.pow_le_mono_r; lia).
  rewrite Nat2Z.inj_succ, Z.pow_succ_r in P by lia.
  pose proof (Uint63.to_Z_bounded R) as BR.
  assert (E4 : Uint63.to_Z (4 * R)%uint63 = (4 * Uint63.to_Z R)%Z).
  { rewrite to_Z_mul; change (Uint63.to_Z 4) with 4%Z; [reflexivity|].
    change (2 ^ 63)%Z with 9223372036854775808%Z.
    change (4 ^ 30)%Z with 1152921504606846976%Z in P. lia. }
  assert (Eg : Uint63.to_Z (Uint63.of_Z (Z.of_nat (g rc))) = Z.of_nat (g rc)).
  { rewrite Uint63.of_Z_spec. apply Z.mod_small. change wB with (2 ^ 63)%Z.
    change (2 ^ 63)%Z with 9223372036854775808%Z. lia. }
  assert (E : Uint63.to_Z (4 * R + Uint63.of_Z (Z.of_nat (g rc)))%uint63
              = (4 * Uint63.to_Z R + Z.of_nat (g rc))%Z).
  { rewrite to_Z_add; rewrite E4, Eg; [reflexivity|].
    change (2 ^ 63)%Z with 9223372036854775808%Z.
    change (4 ^ 30)%Z with 1152921504606846976%Z in P. lia. }
  rewrite (IH _ (S k)); [now rewrite E| |lia].
  rewrite E, Nat2Z.inj_succ, Z.pow_succ_r by lia. lia.
Qed.

(** A positive integer below [2^53] as a double: its mantissa and exponent. *)
Lemma of_uint63_value (i : int) :
  (0 < Uint63.to_Z i < 2 ^ 53)%Z ->
  exists m e, Prim2SF (of_uint63 i) = S754_finite false m e /\
    Z.pos (digits2_pos m) = 53%Z /\ (-52 <= e <= 0)%Z /\
    (Z.pos m = Uint63.to_Z i * 2 ^ (- e))%Z.
Proof.
  intros [L U]. rewrite of_uint63_spec.
  destruct (Uint63.to_Z i) as [|p|p]; try lia.
  apply SFExact.binary_normalize_value. apply SF.digits2_bound; lia.
Qed.

Local Open Scope Q_scope.

(** The value of [dyadic z e]. *)
Lemma dyadic_value (z e : int) :
  (0 < Uint63.to_Z z < 2 ^ 53)%Z -> (-1000 <= Uint63.to_Z e - shift <= 900)%Z ->
  (exists s m e', Prim2SF (dyadic z e) = S754_finite s m e') /\
  exactly (dyadic z e) (inject_Z (Uint63.to_Z z) * 2 ^ (Uint63.to_Z e - shift)).
Proof.
  intros Z E. destruct (of_uint63_value z Z) as (m & e0 & V & M & B & W).
  assert (P : Prim2SF (dyadic z e) = S754_finite false m (e0 + (Uint63.to_Z e - shift))).
  { unfold dyadic. rewrite FloatAxioms.ldshiftexp_spec, V. cbn [SFldexp].
    apply SFExact.binary_round_canonical; [exact M|lia]. }
  split; [now exists false, m, (e0 + (Uint63.to_Z e - shift))%Z|].
  unfold exactly, value. rewrite P. eexists. split; [reflexivity|].
  cbn [cond_Zopp]. rewrite W, inject_Z_mult.
  rewrite Zpower_Qpower by lia. change (inject_Z 2) with 2.
  rewrite Qpower_plus by discriminate.
  rewrite <- Qmult_assoc, (Qmult_assoc (2 ^ (- e0))), <- Qpower_plus by discriminate.
  replace (- e0 + e0)%Z with 0%Z by lia. change (2 ^ 0) with 1. ring.
Qed.

Local Close Scope Q_scope.

Lemma lat_exact_path (path : list (nat * nat)) (b : rect float) (R : int) :
  Forall in_grid path ->
  lat_exact (List.length path) (minLat b) (maxLat b) R = true ->
  let b' := narrow_all b path in
  lat_exact 0 (minLat b') (maxLat b')
    (fold_left (fun acc rc => (4 * acc + Uint63.of_Z (Z.of_nat (fst rc)))%uint63) path R)
  = true.
Proof.
  intros F. revert b R.
  induction F as [|[r c] path [G _] _ IH]; intros b R H; cbv zeta.
  - exact H.
  - cbn [List.length lat_exact] in H. rewrite forallb_forall in H.
    cbn [fst] in G. cbn [narrow_all fold_left fst snd]. apply IH.
    destruct r as [|[|[|[|r]]]]; [| | | |lia].
    + exact (H 0%uint63 (or_introl eq_refl)).
    + exact (H 1%uint63 (or_intror (or_introl eq_refl))).
    + exact (H 2%uint63 (or_intror (or_intror (or_introl eq_refl)))).
    + exact (H 3%uint63 (or_intror (or_intror (or_intror (or_introl eq_refl))))).
Qed.

Lemma lon_exact_path (path : list (nat * nat)) (b : rect float) (C : int) :
  Forall in_grid path ->
  lon_exact (List.length path) (minLon b) (maxLon b) C = true ->
  let b' := narrow_all b path in
  lon_exact 0 (minLon b') (maxLon b')
    (fold_left (fun acc rc => (4 * acc + Uint63.of_Z (Z.of_nat (snd rc)))%uint63) path C)
  = true.
Proof.
  intros F. revert b C.
  induction F as [|[r c] path [_ G] _ IH]; intros b C H; cbv zeta.
  - exact H.
  - cbn [List.length lon_exact] in H. rewrite forallb_forall in H.
    cbn [snd] in G. cbn [narrow_all fold_left fst snd]. apply IH.
    destruct c as [|[|[|[|c]]]]; [| | | |lia].
    + exact (H 0%uint63 (or_introl eq_refl)).
    + exact (H 1%uint63 (or_intror (or_introl eq_refl))).
    + exact (H 2%uint63 (or_intror (or_intror (or_introl eq_refl)))).
    + exact (H 3%uint63 (or_intror (or_intror (or_intror (or_introl eq_refl))))).
Qed.

Lemma lat_exact_REGION : lat_exact 10 2.5 38.5 0 = true.
Proof. vm_compute. reflexivity. Qed.

Lemma lon_exact_REGION : lon_exact 10 63.5 99.5 0 = true.
Proof. vm_compute. reflexivity. Qed.

Local Open Scope Q_scope.

Lemma inject_Z_sub (a b : Z) : inject_Z (a - b) == inject_Z a - inject_Z b.
Proof. unfold Z.sub. rewrite inject_Z_plus, inject_Z_opp. ring. Qed.

(** A double that equals [dyadic z e] has its value. *)
Lemma eqb_dyadic (x : float) (i e : int) (z : Z) (q : Q) :
  Uint63.to_Z i = z ->
  (0 < z < 2 ^ 53)%Z -> (-1000 <= Uint63.to_Z e - shift <= 900)%Z ->
  PrimFloat.eqb x (dyadic i e) = true ->
  inject_Z z * 2 ^ (Uint63.to_Z e - shift) == q ->
  exactly x q.
Proof.
  intros <- Z E H V. destruct (dyadic_value i e Z E) as [(s & m & e' & P) (v & X & Y)].
  rewrite (SF.eqb_finite x _ s m e' P H).
  exists v. split; [exact X|]. now rewrite Y.
Qed.

Lemma ieee_exact_path (path : list (nat * nat)) :
  List.length path = 10%nat -> Forall in_grid path ->
  let b := narrow_all (num := float) REGION path in
  let R := inject_Z (row_index path) in
  let C := inject_Z (col_index path) in
  exactly (maxLat b) ((77 # 2) - R * (9 # 262144)) /\
  exactly (minLat b) ((77 # 2) - (R + 1) * (9 # 262144)) /\
  exactly (minLon b) ((127 # 2) + C * (9 # 262144)) /\
  exactly (maxLon b) ((127 # 2) + (C + 1) * (9 # 262144)) /\
  exactly (lat (cell b)) ((77 # 2) - (R + (1 # 2)) * (9 # 262144)) /\
  exactly (lon (cell b)) ((127 # 2) + (C + (1 # 2)) * (9 # 262144)).
Proof.
  intros L F b R C.
  destruct (ExactCells.index_range path F) as [HR HC]. rewrite L in HR, HC.
  change (4 ^ Z.of_nat 10)%Z with 1048576%Z in HR, HC.
  pose proof (lat_exact_path path REGION 0 F) as A.
  pose proof (lon_exact_path path REGION 0 F) as O.
  rewrite L in A, O. specialize (A lat_exact_REGION). specialize (O lon_exact_REGION).
  cbv zeta in A, O. fold b in A, O.
  assert (FR : Forall (fun rc : nat * nat => (fst rc < 4)%nat) path)
    by (eapply Forall_impl; [|exact F]; now intros rc [G _]).
  assert (FC : Forall (fun rc : nat * nat => (snd rc < 4)%nat) path)
    by (eapply Forall_impl; [|exact F]; now intros rc [_ G]).
  pose proof (index_to_Z fst path 0 0 FR ltac:(reflexivity) ltac:(lia)) as IR.
  pose proof (index_to_Z snd path 0 0 FC ltac:(reflexivity) ltac:(lia)) as IC.
  change (Uint63.to_Z 0) with 0%Z in IR, IC.
  fold (row_index path) in IR. fold (col_index path) in IC.
  set (Ri := fold_left _ path 0%uint63) in A, IR.
  set (Ci := fold_left _ path 0%uint63) in O, IC.
  cbn [lat_exact lon_exact] in A, O. cbv zeta in A, O.
  apply andb_prop in A as [A A3]. apply andb_prop in A as [A1 A2].
  apply andb_prop in O as [O O3]. apply andb_prop in O as [O1 O2].
  assert (P18 : 2 ^ (Uint63.to_Z 2083 - shift) == 1 # 262144) by reflexivity.
  assert (P19 : 2 ^ (Uint63.to_Z 2082 - shift) == 1 # 524288) by reflexivity.
  assert (E18 : (-1000 <= Uint63.to_Z 2083 - shift <= 900)%Z) by (cbv; split; discriminate).
  assert (E19 : (-1000 <= Uint63.to_Z 2082 - shift <= 900)%Z) by (cbv; split; discriminate).
  assert (B : (2 ^ 53 = 9007199254740992)%Z) by reflexivity.
  assert (W63 : (2 ^ 63 = 9223372036854775808)%Z) by reflexivity.
  assert (T9 : Uint63.to_Z (9 * Ri)%uint63 = (9 * row_index path)%Z).
  { rewrite to_Z_mul; rewrite IR; change (Uint63.to_Z 9) with 9%Z; [reflexivity|lia]. }
  assert (C9 : Uint63.to_Z (9 * Ci)%uint63 = (9 * col_index path)%Z).
  { rewrite to_Z_mul; rewrite IC; change (Uint63.to_Z 9) with 9%Z; [reflexivity|lia]. }
  assert (TT : Uint63.to_Z (10092544 - 9 * Ri)%uint63 = (10092544 - 9 * row_index path)%Z).
  { rewrite to_Z_sub; rewrite T9; change (Uint63.to_Z 10092544) with 10092544%Z;
      [reflexivity|lia]. }
  assert (LL : Uint63.to_Z (16646144 + 9 * Ci)%uint63 = (16646144 + 9 * col_index path)%Z).
  { rewrite to_Z_add; rewrite C9; change (Uint63.to_Z 16646144) with 16646144%Z;
      [reflexivity|lia]. }
  set (topi := (10092544 - 9 * Ri)%uint63) in *.
  set (lefti := (16646144 + 9 * Ci)%uint63) in *.
  set (top := (10092544 - 9 * row_index path)%Z) in *.
  set (left := (16646144 + 9 * col_index path)%Z) in *.
  assert (T : (655360 < top <= 10092544)%Z) by (unfold top; lia).
  assert (W : (16646144 <= left < 26083328)%Z) by (unfold left; lia).
  assert (TT9 : Uint63.to_Z (topi - 9)%uint63 = (top - 9)%Z).
  { rewrite to_Z_sub; rewrite TT; change (Uint63.to_Z 9) with 9%Z; [reflexivity|lia]. }
  assert (LL9 : Uint63.to_Z (lefti + 9)%uint63 = (left + 9)%Z).
  { rewrite to_Z_add; rewrite LL; change (Uint63.to_Z 9) with 9%Z; [reflexivity|lia]. }
  assert (T2 : Uint63.to_Z (2 * topi - 9)%uint63 = (2 * top - 9)%Z).
  { assert (X : Uint63.to_Z (2 * topi)%uint63 = (2 * top)%Z).
    { rewrite to_Z_mul; rewrite TT; change (Uint63.to_Z 2) with 2%Z; [reflexivity|lia]. }
    rewrite to_Z_sub; rewrite X; change (Uint63.to_Z 9) with 9%Z; [reflexivity|lia]. }
  assert (L2 : Uint63.to_Z (2 * lefti + 9)%uint63 = (2 * left + 9)%Z).
  { assert (X : Uint63.to_Z (2 * lefti)%uint63 = (2 * left)%Z).
    { rewrite to_Z_mul; rewrite LL; change (Uint63.to_Z 2) with 2%Z; [reflexivity|lia]. }
    rewrite to_Z_add; rewrite X; change (Uint63.to_Z 9) with 9%Z; [reflexivity|lia]. }
  unfold R, C.
  repeat split.
  - apply (eqb_dyadic _ topi 2083 top); [exact TT|lia|exact E18|exact A1|].
    rewrite P18. unfold top. rewrite inject_Z_sub, inject_Z_mult. field.
  - apply (eqb_dyadic _ (topi - 9)%uint63 2083 (top - 9)); [exact TT9|lia|exact E18|exact A2|].
    rewrite P18. unfold top. rewrite !inject_Z_sub, inject_Z_mult. field.
  - apply (eqb_dyadic _ lefti 2083 left); [exact LL|lia|exact E18|exact O1|].
    rewrite P18. unfold left. rewrite inject_Z_plus, inject_Z_mult. field.
  - apply (eqb_dyadic _ (lefti + 9)%uint63 2083 (left + 9)); [exact LL9|lia|exact E18|exact O2|].
    rewrite P18. unfold left. rewrite !inject_Z_plus, inject_Z_mult. field.
  - apply (eqb_dyadic _ (2 * topi - 9)%uint63 2082 (2 * top - 9)); [exact T2|lia|exact E19|exact A3|].
    rewrite P19. unfold top.
    rewrite inject_Z_sub, inject_Z_mult, inject_Z_sub, inject_Z_mult. field.
  - apply (eqb_dyadic _ (2 * lefti + 9)%uint63 2082 (2 * left + 9)); [exact L2|lia|exact E19|exact O3|].
    rewrite P19. unfold left.
    rewrite inject_Z_plus, inject_Z_mult, inject_Z_plus, inject_Z_mult. field.
Qed.

Lemma exactly_eq (x : float) (q q' : Q) : exactly x q -> (q == q')%Q -> exactly x q'.
Proof. intros (v & V & E) H. exists v. split; [exact V|]. now rewrite E. Qed.

End IEEEExact.

(** *** Codes with a common prefix *)

Local Open Scope Q_scope.

(** In exact arithmetic, two codes that share their first [k] symbols
    have centres less than [36 / 4^k] degrees apart in latitude and in
    longitude. *)
Lemma exact_shared_prefix (c1 c2 : jstring) (d1 d2 : decoded Q) (k : nat) :
  decodeDigipin c1 = Normal (Some d1) ->
  decodeDigipin c2 = Normal (Some d2) ->
  (k <= 10)%nat ->
  firstn k (normalize c1) = firstn k (normalize c2) ->
  let w := 36 / pow4 k in
  - w < lat d1 - lat d2 < w /\ - w < lon d1 - lon d2 < w.
Proof.
  intros D1 D2 K E w.
  destruct (decoded_cell _ _ c1 d1 D1) as (p1 & L1 & F1 & N1 & -> & _).
  destruct (decoded_cell _ _ c2 d2 D2) as (p2 & L2 & F2 & N2 & -> & _).
  rewrite N1, N2, !firstn_map in E.
  destruct (Forall_firstn_skipn in_grid k p1 F1) as [G1 K1].
  destruct (Forall_firstn_skipn in_grid k p2 F2) as [G2 K2].
  assert (P : firstn k p1 = firstn k p2) by now apply symbols_inj.
  set (pre := firstn k p1) in *.
  assert (Lp : List.length pre = k) by (unfold pre; rewrite length_firstn; lia).
  assert (PR : proper REGION) by (split; reflexivity).
  destruct (ExactCodec.narrow_all_nested pre REGION G1 PR) as (PB & _).
  destruct (ExactCodec.narrow_all_position pre REGION) as (HA & _ & HO & _).
  cbv zeta in HA, HO. rewrite Lp in HA, HO.
  change (maxLat REGION - minLat REGION) with ((77 # 2) - (5 # 2)) in HA.
  change (maxLon REGION - minLon REGION) with ((199 # 2) - (127 # 2)) in HO.
  set (B := narrow_all REGION pre) in *.
  assert (S1 : narrow_all REGION p1 = narrow_all B (skipn k p1)).
  { rewrite <- (firstn_skipn k p1) at 1. unfold narrow_all. now rewrite fold_left_app. }
  assert (S2 : narrow_all REGION p2 = narrow_all B (skipn k p2)).
  { rewrite <- (firstn_skipn k p2) at 1. unfold narrow_all. rewrite fold_left_app.
    now rewrite <- P. }
  rewrite S1, S2.
  destruct (ExactCodec.narrow_all_nested (skipn k p1) B) as ([PA1 PO1] & A1 & A2 & A3 & A4);
    [assumption|exact PB|].
  destruct (ExactCodec.narrow_all_nested (skipn k p2) B) as ([PA2 PO2] & B1 & B2 & B3 & B4);
    [assumption|exact PB|].
  set (x1 := narrow_all B (skipn k p1)) in *. set (x2 := narrow_all B (skipn k p2)) in *.
  cbn [lat lon cell]. ExactCodec.ops. ExactCodec.unred.
  assert (H : forall x y : Q, x < y -> x < (x + y) / 2 /\ (x + y) / 2 < y).
  { intros x y H. split; [apply Qlt_shift_div_l|apply Qlt_shift_div_r]; lra. }
  destruct (H _ _ PA1), (H _ _ PO1), (H _ _ PA2), (H _ _ PO2).
  assert (WA : maxLat B - minLat B == w) by (rewrite HA; unfold w; field; pose proof (ExactCodec.pow4_pos k); lra).
  assert (WO : maxLon B - minLon B == w) by (rewrite HO; unfold w; field; pose proof (ExactCodec.pow4_pos k); lra).
  repeat split; lra.
Qed.

Local Close Scope Q_scope.

(** The record decoded in binary64 arithmetic is the record decoded in
    exact arithmetic. *)
Lemma decoded_exactly (code : jstring) (df : decoded float) :
  decodeDigipin code = Normal (Some df) ->
  exists (dq : decoded Q) (path : list (nat * nat)),
    decodeDigipin code = Normal (Some dq) /\
    List.length path = 10%nat /\ Forall in_grid path /\
    normalize code = map symbol path /\
    df = cell (narrow_all REGION path) /\ dq = cell (narrow_all REGION path) /\
    exactly (lat df) (lat dq) /\ exactly (lon df) (lon dq) /\
    exactly (minLat (bounds df)) (minLat (bounds dq)) /\
    exactly (maxLat (bounds df)) (maxLat (bounds dq)) /\
    exactly (minLon (bounds df)) (minLon (bounds dq)) /\
    exactly (maxLon (bounds df)) (maxLon (bounds dq)).
Proof.
  intros D.
  destruct (decoded_cell _ _ code df D) as (path & L & F & N & -> & _).
  exists (cell (num := Q) (narrow_all REGION path)), path.
  split; [exact (decode_symbols code path L F N)|].
  split; [exact L|]. split; [exact F|]. split; [exact N|].
  split; [reflexivity|]. split; [reflexivity|].
  destruct (IEEEExact.ieee_exact_path path L F) as (F1 & F2 & F3 & F4 & F5 & F6).
  destruct (ExactPosition.exact_position path L) as (Q1 & Q2 & Q3 & Q4 & Q5 & Q6).
  cbn [bounds].
  repeat split; eapply IEEEExact.exactly_eq; try eassumption; symmetry; assumption.
Qed.

(** ** The handlers of the page *)

Module AppFacts.
Local Open Scope float_scope.

Lemma code_of_cons (path : list (nat * nat)) :
  List.length path = 10%nat -> exists c s, code_of path = c :: s.
Proof.
  intros L. unfold code_of.
  destruct (length10_inv (map symbol path)) as
    (c0 & c1 & c2 & c3 & c4 & c5 & c6 & c7 & c8 & c9 & ->); [now rewrite length_map|].
  now do 2 eexists.
Qed.

Section SetLocation.
Variables (lat0 lon0 : float) (zoom : option float) (updateUrl inView : bool)
  (mapZoom : float) (p : page).

(** [setLocation] on a point whose code is that of a path. *)
Lemma setLocation_path (path : list (nat * nat)) :
  List.length path = 10%nat -> Forall in_grid path ->
  encodeDigipin lat0 lon0 = Normal (Some (code_of path)) ->
  exists p',
    setLocation lat0 lon0 zoom updateUrl inView mapZoom p = Normal p' /\
    located lat0 lon0 (code_of path) (Some (narrow_all REGION path)) updateUrl p p'.
Proof.
  intros L F E.
  pose proof (decode_code_of (num := float) path L F) as D.
  destruct (code_of_cons path L) as (c & s & C). rewrite C in *.
  unfold setLocation, drawGridCell. rewrite E. cbn [bind]. rewrite D.
  cbn [bind bounds cell].
  eexists. split; [reflexivity|].
  unfold located. clear E D C.
  destruct p as [cl [mk|] [gr|] se si tr], zoom as [z|], updateUrl, inView;
    try destruct (truthy_number z);
    cbn; (repeat split; trivial);
    eexists; (split; [rewrite <- ?app_assoc; reflexivity|]);
    cbn [app In]; repeat (first [left; reflexivity | right]).
Qed.

Lemma setLocation_in_bounds :
  isWithinBounds lat0 lon0 = true ->
  exists path p',
    List.length path = 10%nat /\ Forall in_grid path /\
    encodeDigipin lat0 lon0 = Normal (Some (code_of path)) /\
    setLocation lat0 lon0 zoom updateUrl inView mapZoom p = Normal p' /\
    located lat0 lon0 (code_of path) (Some (narrow_all REGION path)) updateUrl p p'.
Proof.
  intros W. destruct (IEEECodec.ieee_encode_path lat0 lon0 W) as (path & L & F & E).
  apply follows_in_grid in F.
  destruct (setLocation_path path L F E) as (p' & S & H).
  now exists path, p'.
Qed.

End SetLocation.

(** A page that differs from [p] in its trace only. *)
Lemma located_emit (lat0 lon0 : float) (code : jstring) (r : option (rect float))
    (u : bool) (p p' : page) (e : effect) :
  located lat0 lon0 code r u p p' -> located lat0 lon0 code r u p (emit e p').
Proof.
  intros (H1 & H2 & H3 & H4 & H5 & effects & T & I).
  repeat split; trivial.
  exists (effects ++ [e]). split; [cbn; now rewrite T, app_assoc|].
  apply in_or_app. now left.
Qed.

(** What [setLocation] does, for all doubles. *)
Lemma setLocation_cases (lat0 lon0 : float) (zoom : option float) (u inView : bool)
    (mapZoom : float) (p : page) :
  (encodeDigipin lat0 lon0 = Normal None /\
   setLocation lat0 lon0 zoom u inView mapZoom p = Normal (emit could_not p)) \/
  (exists path p',
     isWithinBounds lat0 lon0 = true /\
     List.length path = 10%nat /\ Forall in_grid path /\
     encodeDigipin lat0 lon0 = Normal (Some (code_of path)) /\
     setLocation lat0 lon0 zoom u inView mapZoom p = Normal p' /\
     located lat0 lon0 (code_of path) (Some (narrow_all REGION path)) u p p') \/
  (PrimFloat.is_nan lat0 = true /\
   encodeDigipin lat0 lon0 = Throw /\
   setLocation lat0 lon0 zoom u inView mapZoom p = Throw) \/
  (exists p',
     PrimFloat.is_nan lon0 = true /\
     encodeDigipin lat0 lon0 = Normal (Some (str "und-efi-nedu")) /\
     setLocation lat0 lon0 zoom u inView mapZoom p = Normal p' /\
     located lat0 lon0 (str "und-efi-nedu") (gridRect p) u p p').
Proof.
  destruct (PrimFloat.is_nan lat0) eqn:NA.
  { pose proof (IEEENaN.nan_lat lat0 lon0 NA) as E.
    destruct ((lon0 <? 63.5) || (99.5 <? lon0)).
    - left. split; [exact E|]. unfold setLocation. now rewrite E.
    - right. right. left. split; [reflexivity|]. split; [exact E|].
      unfold setLocation. now rewrite E. }
  destruct (PrimFloat.is_nan lon0) eqn:NO.
  { pose proof (IEEENaN.nan_lon lat0 lon0 NA NO) as E.
    destruct ((lat0 <? 2.5) || (38.5 <? lat0)).
    - left. split; [exact E|]. unfold setLocation. now rewrite E.
    - right. right. right.
      eexists. split; [reflexivity|]. split; [exact E|].
      unfold setLocation, drawGridCell. rewrite E.
      change (str "und-efi-nedu") with (Latin1 "u" :: str "nd-efi-nedu").
      cbn [bind].
      change (decodeDigipin (num := float) (Latin1 "u" :: str "nd-efi-nedu")) with
        (@Normal (option (decoded float)) None).
      cbn [bind]. split; [reflexivity|].
      unfold located.
      destruct p as [cl [mk|] gr se si tr], zoom as [z|], u, inView;
        try destruct (truthy_number z);
        cbn; (repeat split; trivial);
        eexists; (split; [rewrite <- ?app_assoc; reflexivity|]);
        cbn [app In]; repeat (first [left; reflexivity | right]). }
  pose proof (IEEECodec.out_of_range_isWithinBounds lat0 lon0 NA NO) as G.
  destruct (isWithinBounds lat0 lon0) eqn:W.
  - right. left.
    destruct (setLocation_in_bounds lat0 lon0 zoom u inView mapZoom p W)
      as (path & p' & L & F & E & S & H).
    exists path, p'. split; [reflexivity|]. now split; [|split; [|split; [|split]]].
  - left. cbn [negb] in G.
    assert (E : encodeDigipin lat0 lon0 = Normal None).
    { unfold encodeDigipin. fold (out_of_range lat0 lon0). now rewrite G. }
    split; [exact E|]. unfold setLocation. now rewrite E.
Qed.

(** A decoded code is located at its centre, under its display form. *)
Lemma setLocation_decoded (code : jstring) (d : decoded float) (zoom : option float)
    (u inView : bool) (mapZoom : float) (p : page) :
  decodeDigipin code = Normal (Some d) ->
  exists p',
    setLocation (lat d) (lon d) zoom u inView mapZoom p = Normal p' /\
    located (lat d) (lon d) (formatDigipin code) (Some (bounds d)) u p p'.
Proof.
  intros D. destruct (decoded_cell _ _ code d D) as (path & L & F & _ & -> & ->).
  destruct (IEEECentres.ieee_centre_code path L F) as [_ E].
  exact (setLocation_path _ _ zoom u inView mapZoom p path L F E).
Qed.

Lemma consistent_located (lat0 lon0 : float) (path : list (nat * nat))
    (u : bool) (p p' : page) :
  List.length path = 10%nat -> Forall in_grid path ->
  encodeDigipin lat0 lon0 = Normal (Some (code_of path)) ->
  located lat0 lon0 (code_of path) (Some (narrow_all REGION path)) u p p' ->
  consistent p'.
Proof.
  intros L F E (H1 & H2 & H3 & _). unfold consistent. rewrite H1.
  split; [exact E|]. split; [exact H2|].
  intros d D. rewrite (decode_code_of path L F) in D. injection D as <-.
  exact H3.
Qed.

Lemma consistent_emit (e : effect) (p : page) : consistent p -> consistent (emit e p).
Proof. now destruct p. Qed.

Lemma setLocation_consistent (lat0 lon0 : float) (zoom : option float) (u inView : bool)
    (mapZoom : float) (p p' : page) :
  consistent p -> setLocation lat0 lon0 zoom u inView mapZoom p = Normal p' ->
  consistent p'.
Proof.
  intros C S.
  destruct (setLocation_cases lat0 lon0 zoom u inView mapZoom p)
    as [[_ S']|[(path & q & _ & L & F & E & S' & H)|[(_ & _ & S')|(q & _ & E & S' & H)]]];
    rewrite S' in S; try discriminate S; injection S as <-.
  - now apply consistent_emit.
  - exact (consistent_located _ _ path u p q L F E H).
  - destruct H as (H1 & H2 & _). unfold consistent. rewrite H1.
    split; [exact E|]. split; [exact H2|]. intros d D. discriminate D.
Qed.

(** A valid code: [decodeDigipin] accepts it, it is not empty. *)
Lemma decoded_valid (num : Type) (NUM : JsNumber num) (code : jstring) (d : decoded num) :
  decodeDigipin code = Normal (Some d) ->
  isValidDigipin code = true /\ exists c s, code = c :: s.
Proof.
  intros D.
  pose proof (decodeDigipin_cases (num := num) code) as C. cbv zeta in C.
  destruct C as [[E _]|(path & L & U & _ & _)]; [congruence|].
  split.
  - unfold isValidDigipin. rewrite L, U. reflexivity.
  - destruct code as [|c s]; [discriminate L|]. now exists c, s.
Qed.

(** The display form of the code of a path is the code. *)
Lemma formatDigipin_code_of (path : list (nat * nat)) :
  List.length path = 10%nat -> Forall in_grid path ->
  formatDigipin (code_of path) = code_of path.
Proof.
  intros L F. unfold formatDigipin.
  rewrite (normalize_code_of path L F), length_map, L. reflexivity.
Qed.

Lemma jstring_eqb_spec (a b : jstring) : reflect (a = b) (jstring_eqb a b).
Proof.
  revert b. induction a as [|x a IH]; intros [|y b]; cbn [jstring_eqb];
    try (constructor; congruence).
  destruct (jchar_eqb_spec x y) as [->|N]; cbn [andb].
  - destruct (IH b) as [->|N]; constructor; congruence.
  - constructor. congruence.
Qed.

Lemma params_get_delete (ps : params) (k k' : jstring) :
  params_get (params_delete ps k) k'
  = if jstring_eqb k k' then None else params_get ps k'.
Proof.
  unfold params_delete. induction ps as [|[x v] ps IH]; cbn [filter params_get fst].
  - now destruct (jstring_eqb k k').
  - destruct (jstring_eqb_spec x k) as [->|N]; cbn [negb params_get].
    + rewrite IH. destruct (jstring_eqb_spec k k'); reflexivity.
    + rewrite IH. destruct (jstring_eqb_spec x k') as [->|N'].
      * destruct (jstring_eqb_spec k k'); [congruence|reflexivity].
      * reflexivity.
Qed.

Lemma params_get_set (ps : params) (k k' v : jstring) :
  params_get (params_set ps k v) k'
  = if jstring_eqb k k' then Some v else params_get ps k'.
Proof.
  induction ps as [|[x w] ps IH]; cbn [params_set params_get].
  - reflexivity.
  - destruct (jstring_eqb_spec x k) as [->|N]; cbn [params_get].
    + destruct (jstring_eqb_spec k k') as [->|N']; [reflexivity|].
      rewrite params_get_delete. now destruct (jstring_eqb_spec k k').
    + destruct (jstring_eqb_spec x k') as [->|N'].
      * destruct (jstring_eqb_spec k k'); [congruence|reflexivity].
      * exact IH.
Qed.

(** The address after [updateUrlState('pin', value)]. *)
Lemma updateUrlState_pin (c : jchar) (s : jstring) (p : page) :
  let ps := search (updateUrlState "pin" (c :: s) p) in
  params_get ps (str "pin") = Some (c :: s) /\
  params_get ps (str "lat") = None /\ params_get ps (str "lng") = None /\
  params_get ps (str "lon") = None /\ params_get ps (str "q") = None.
Proof.
  cbv zeta. unfold updateUrlState. cbn [search set_search truthy String.eqb Ascii.eqb
                                        Bool.eqb andb].
  rewrite !params_get_set, !params_get_delete. repeat split.
Qed.

Section Url.
Variable parseFloat : option jstring -> float.

Lemma initUrlHandler_pin (code : jstring) (d : decoded float) (p : page) :
  params_get (search p) (str "pin") = Some code ->
  decodeDigipin code = Normal (Some d) ->
  initUrlHandler parseFloat p
  = Normal (true, emit (setTimeout (later_setLocation (lat d) (lon d) (Some 18) false)
                                   500) p).
Proof.
  intros G D. destruct (decoded_valid _ _ code d D) as (V & c & s & ->).
  unfold initUrlHandler. rewrite G, V, D. reflexivity.
Qed.

End Url.

(** An in-bounds point is located under a valid code, with the rectangle
    of that code. *)
Lemma setLocation_valid (lat0 lon0 : float) (zoom : option float) (u inView : bool)
    (mapZoom : float) (p : page) :
  isWithinBounds lat0 lon0 = true ->
  exists (code : jstring) (d : decoded float) (p' : page),
    encodeDigipin lat0 lon0 = Normal (Some code) /\
    isValidDigipin code = true /\ formatDigipin code = code /\
    decodeDigipin code = Normal (Some d) /\
    setLocation lat0 lon0 zoom u inView mapZoom p = Normal p' /\
    located lat0 lon0 code (Some (bounds d)) u p p'.
Proof.
  intros W.
  destruct (setLocation_in_bounds lat0 lon0 zoom u inView mapZoom p W)
    as (path & p' & L & F & E & S & H).
  exists (code_of path), (cell (num := float) (narrow_all REGION path)), p'.
  split; [exact E|]. split; [exact (isValid_code_of path L F)|].
  split; [exact (formatDigipin_code_of path L F)|].
  split; [exact (decode_code_of path L F)|]. split; [exact S|exact H].
Qed.

Lemma handleSearch_decoded (code : jstring) (d : decoded float) (inView : bool)
    (mapZoom : float) (p : page) :
  trim (searchInput p) = code -> decodeDigipin code = Normal (Some d) ->
  exists p',
    setLocation (lat d) (lon d) (Some 18) true inView mapZoom p = Normal p' /\
    located (lat d) (lon d) (formatDigipin code) (Some (bounds d)) true p p' /\
    handleSearch inView mapZoom p
    = Normal (emit closeSidebarOnMobile (emit (showToast "DigiPIN located!" "success") p')).
Proof.
  intros T D. destruct (decoded_valid _ _ code d D) as (V & c & s & ->).
  destruct (setLocation_decoded (c :: s) d (Some 18) true inView mapZoom p D)
    as (p' & S & H).
  exists p'. split; [exact S|]. split; [exact H|].
  unfold handleSearch. rewrite T. cbn [truthy negb]. rewrite V, D. cbn [bind].
  rewrite S. reflexivity.
Qed.

Lemma handleSearch_consistent (inView : bool) (mapZoom : float) (p p' : page) :
  consistent p -> handleSearch inView mapZoom p = Normal p' -> consistent p'.
Proof.
  intros C. unfold handleSearch.
  destruct (truthy (Some (trim (searchInput p)))); cbn [negb].
  2: { intros H. injection H as <-. now apply consistent_emit. }
  assert (G : forall q, Normal (emit (fetch_search (trim (searchInput p)))
                                     (emit (showToast "Searching..." "success") p))
                        = Normal q -> consistent q).
  { intros q H. injection H as <-. now do 2 apply consistent_emit. }
  destruct (isValidDigipin (trim (searchInput p))); [|apply G].
  destruct (decodeDigipin (num := float) (trim (searchInput p))) as [[d|]|];
    cbn [bind]; [| apply G | discriminate].
  destruct (setLocation (lat d) (lon d) (Some 18) true inView mapZoom p) as [q|] eqn:S;
    cbn [bind]; [|discriminate].
  intros H. injection H as <-. do 2 apply consistent_emit.
  exact (setLocation_consistent _ _ _ _ _ _ p q C S).
Qed.

Lemma decode_total (num : Type) (NUM : JsNumber num) (s : jstring) :
  decodeDigipin (num := num) s <> Throw.
Proof.
  pose proof (decodeDigipin_cases (num := num) s) as C. cbv zeta in C.
  destruct C as [[E _]|(path & _ & _ & _ & E)]; rewrite E; discriminate.
Qed.

(** The centre of a decoded cell is in bounds. *)
Lemma decoded_within (code : jstring) (d : decoded float) :
  decodeDigipin code = Normal (Some d) -> isWithinBounds (lat d) (lon d) = true.
Proof.
  intros D. destruct (decoded_cell _ _ code d D) as (path & L & F & _ & -> & _).
  exact (proj1 (IEEECentres.ieee_centre_code path L F)).
Qed.

Section Url.
Variable parseFloat : option jstring -> float.

(** What [initUrlHandler] does. *)
Lemma initUrlHandler_cases (p : page) :
  initUrlHandler parseFloat p = Normal (false, p) \/
  (exists (c : jchar) (q : jstring),
     params_get (search p) (str "q") = Some (c :: q) /\
     initUrlHandler parseFloat p
     = Normal (true, emit (setTimeout later_handleSearch 500)
                          (set_searchInput (c :: q) p))) \/
  (exists lat0 lon0 : float,
     isWithinBounds lat0 lon0 = true /\
     initUrlHandler parseFloat p
     = Normal (true, emit (setTimeout (later_setLocation lat0 lon0 (Some 18) false) 500)
                          p)).
Proof.
  unfold initUrlHandler.
  set (lat0 := parseFloat (params_get (search p) (str "lat"))).
  set (lon0 := parseFloat (or_else (params_get (search p) (str "lng"))
                                   (params_get (search p) (str "lon")))).
  assert (O : forall r,
    r = (if negb (PrimFloat.is_nan lat0) && negb (PrimFloat.is_nan lon0)
            && isWithinBounds lat0 lon0
         then Normal (true, emit (setTimeout (later_setLocation lat0 lon0 (Some 18) false)
                                             500) p)
         else match params_get (search p) (str "q") with
              | Some (c :: q) =>
                  Normal (true, emit (setTimeout later_handleSearch 500)
                                     (set_searchInput (c :: q) p))
              | _ => Normal (false, p)
              end) ->
    r = Normal (false, p) \/
    (exists (c : jchar) (q : jstring),
       params_get (search p) (str "q") = Some (c :: q) /\
       r = Normal (true, emit (setTimeout later_handleSearch 500)
                              (set_searchInput (c :: q) p))) \/
    (exists lat1 lon1 : float,
       isWithinBounds lat1 lon1 = true /\
       r = Normal (true, emit (setTimeout (later_setLocation lat1 lon1 (Some 18) false)
                                          500) p))).
  { intros r ->.
    destruct (negb (PrimFloat.is_nan lat0) && negb (PrimFloat.is_nan lon0)
              && isWithinBounds lat0 lon0) eqn:G.
    - right. right. exists lat0, lon0. apply andb_prop in G as [_ G]. now split.
    - destruct (params_get (search p) (str "q")) as [[|c q]|]; [now left| |now left].
      right. left. now exists c, q. }
  destruct (params_get (search p) (str "pin")) as [[|c s]|]; try (apply O; reflexivity).
  destruct (isValidDigipin (c :: s)); [|apply O; reflexivity].
  destruct (decodeDigipin (num := float) (c :: s)) as [[d|]|] eqn:D; cbn [bind].
  - right. right. exists (lat d), (lon d). split; [|reflexivity].
    exact (decoded_within _ d D).
  - apply O; reflexivity.
  - now destruct (decode_total _ _ (c :: s) D).
Qed.

End Url.

End AppFacts.

(** ** The properties *)

(** X1.  Decoding, then encoding the centre: when [decodeDigipin code]
    returns a record, [encodeDigipin] of its [lat] and [lon] returns the
    code in display form, [formatDigipin code]; for every string, in
    binary64 and in exact arithmetic. *)
Theorem decode_then_encode :
  (forall (code : jstring) (d : decoded float),
     decodeDigipin code = Normal (Some d) ->
     encodeDigipin (lat d) (lon d) = Normal (Some (formatDigipin code))) /\
  (forall (code : jstring) (d : decoded Q),
     decodeDigipin code = Normal (Some d) ->
     encodeDigipin (lat d) (lon d) = Normal (Some (formatDigipin code))).
Proof.
  split; intros code d D;
    destruct (decoded_cell _ _ code d D) as (path & L & F & _ & -> & ->).
  - exact (proj2 (IEEECentres.ieee_centre_code path L F)).
  - exact (ExactCentres.exact_centre_code path L F).
Qed.

Lemma decode_then_encode_witness :
  (exists d : decoded float,
     decodeDigipin (str "jk2-345-6789") = Normal (Some d) /\
     encodeDigipin (lat d) (lon d) = Normal (Some (str "JK2-345-6789"))) /\
  (exists d : decoded Q,
     decodeDigipin (str "jk2-345-6789") = Normal (Some d) /\
     encodeDigipin (lat d) (lon d) = Normal (Some (str "JK2-345-6789"))).
Proof.
  split; eexists; (split; [vm_compute; reflexivity|]).
  - apply (proj1 decode_then_encode (str "jk2-345-6789")). vm_compute. reflexivity.
  - apply (proj2 decode_then_encode (str "jk2-345-6789")). vm_compute. reflexivity.
Defined.

Local Open Scope float_scope.

(** X2.  The record that [decodeDigipin] returns, in binary64: the
    centre is the midpoint of the bounds and lies strictly between them;
    the bounds are inside the region and [36 / 4^10] degrees apart in both
    directions, without rounding error; the centre passes
    [isWithinBounds]. *)
Theorem decoded_cell_shape (code : jstring) (d : decoded float) :
  decodeDigipin code = Normal (Some d) ->
  let b := bounds d in
  lat d = (minLat b + maxLat b) / 2 /\ lon d = (minLon b + maxLon b) / 2 /\
  (minLat b <? lat d) = true /\ (lat d <? maxLat b) = true /\
  (minLon b <? lon d) = true /\ (lon d <? maxLon b) = true /\
  (2.5 <=? minLat b) = true /\ (maxLat b <=? 38.5) = true /\
  (63.5 <=? minLon b) = true /\ (maxLon b <=? 99.5) = true /\
  maxLat b - minLat b = 0x1.2p-15 /\ maxLon b - minLon b = 0x1.2p-15 /\
  contains b (lat d) (lon d) = true /\
  isWithinBounds (lat d) (lon d) = true.
Proof.
  intros D b. subst b.
  destruct (decoded_cell _ _ code d D) as (path & L & F & _ & -> & _).
  pose proof (IEEECentres.ieee_cell_shape path L F) as S.
  pose proof (IEEECentres.ieee_centre_code path L F) as [W _].
  cbn [bounds cell] in *. cbn [lat lon].
  split; [reflexivity|]. split; [reflexivity|].
  destruct S as (S1 & S2 & S3 & S4 & S5 & S6 & S7 & S8 & S9 & S10 & S11).
  repeat split; assumption.
Qed.

Lemma decoded_cell_shape_witness :
  exists d : decoded float,
    decodeDigipin (str "4P3-JM8-K4L6") = Normal (Some d) /\
    maxLat (bounds d) - minLat (bounds d) = 0x1.2p-15 /\
    isWithinBounds (lat d) (lon d) = true.
Proof.
  eexists. split; [reflexivity|].
  destruct (decoded_cell_shape (str "4P3-JM8-K4L6") _ eq_refl)
    as (_ & _ & _ & _ & _ & _ & _ & _ & _ & _ & S & _ & _ & W).
  split; [exact S|exact W].
Defined.

(** X3.  Snapping to the centre is stable, in binary64: for every
    in-bounds pair of doubles, the code that [encodeDigipin] returns is in
    display form, it decodes, and the centre of the decoded cell is in
    bounds and encoded as the same code. *)
Theorem encode_decode_encode (lat0 lon0 : float) :
  isWithinBounds lat0 lon0 = true ->
  exists code (d : decoded float),
    encodeDigipin lat0 lon0 = Normal (Some code) /\
    formatDigipin code = code /\
    decodeDigipin code = Normal (Some d) /\
    isWithinBounds (lat d) (lon d) = true /\
    encodeDigipin (lat d) (lon d) = Normal (Some code).
Proof.
  intros W. destruct (IEEECodec.ieee_encode_path lat0 lon0 W) as (path & L & F & E).
  apply follows_in_grid in F.
  exists (code_of path), (cell (num := float) (narrow_all REGION path)).
  split; [exact E|].
  split.
  { unfold formatDigipin. rewrite (normalize_code_of path L F), length_map, L.
    reflexivity. }
  split; [exact (decode_code_of path L F)|].
  exact (IEEECentres.ieee_centre_code path L F).
Qed.

Lemma encode_decode_encode_witness :
  isWithinBounds 12.5 77.5 = true /\
  exists code (d : decoded float),
    encodeDigipin 12.5 77.5 = Normal (Some code) /\
    formatDigipin code = code /\
    decodeDigipin code = Normal (Some d) /\
    isWithinBounds (lat d) (lon d) = true /\
    encodeDigipin (lat d) (lon d) = Normal (Some code).
Proof. split; [reflexivity|]. apply (encode_decode_encode 12.5 77.5). reflexivity. Defined.

(** X4.  [decodeDigipin] is injective on codes: two strings that decode
    to records with the same centre have the same normalised form. *)
Theorem decode_injective :
  (forall (c1 c2 : jstring) (d1 d2 : decoded float),
     decodeDigipin c1 = Normal (Some d1) ->
     decodeDigipin c2 = Normal (Some d2) ->
     lat d1 = lat d2 -> lon d1 = lon d2 ->
     normalize c1 = normalize c2) /\
  (forall (c1 c2 : jstring) (d1 d2 : decoded Q),
     decodeDigipin c1 = Normal (Some d1) ->
     decodeDigipin c2 = Normal (Some d2) ->
     lat d1 = lat d2 -> lon d1 = lon d2 ->
     normalize c1 = normalize c2).
Proof.
  split; intros c1 c2 d1 d2 D1 D2 A O;
    destruct (decoded_cell _ _ c1 d1 D1) as (p1 & L1 & F1 & N1 & E1 & _);
    destruct (decoded_cell _ _ c2 d2 D2) as (p2 & L2 & F2 & N2 & E2 & _);
    rewrite N1, N2; apply code_of_inj; trivial.
  - pose proof (proj2 (IEEECentres.ieee_centre_code p1 L1 F1)) as X1.
    pose proof (proj2 (IEEECentres.ieee_centre_code p2 L2 F2)) as X2.
    rewrite <- E1 in X1. rewrite <- E2 in X2. rewrite A, O in X1. congruence.
  - pose proof (ExactCentres.exact_centre_code p1 L1 F1) as X1.
    pose proof (ExactCentres.exact_centre_code p2 L2 F2) as X2.
    cbv zeta in X1, X2.
    rewrite <- E1 in X1. rewrite <- E2 in X2. rewrite A, O in X1. congruence.
Qed.

(** X5.  [encodeDigipin] on [NaN], which the range guard lets through
    since every comparison with [NaN] is false.  With a [NaN] latitude the
    row is [NaN], [DIGIPIN_GRID[NaN]] is [undefined] and indexing it
    throws, unless the longitude is out of range, when the result is
    [null].  With a latitude that is a number and a [NaN] longitude, the
    result is [null] for a latitude out of range, and otherwise ten times
    [undefined], cut to ["und-efi-nedu"]; [isValidDigipin] and
    [decodeDigipin] reject that string.  [isWithinBounds] is [false] when
    an argument is [NaN]. *)
Theorem encode_not_a_number (lat0 lon0 : float) :
  (PrimFloat.is_nan lat0 = true ->
   encodeDigipin lat0 lon0
   = if (lon0 <? 63.5) || (99.5 <? lon0) then Normal None else Throw) /\
  (PrimFloat.is_nan lat0 = false -> PrimFloat.is_nan lon0 = true ->
   encodeDigipin lat0 lon0
   = if (lat0 <? 2.5) || (38.5 <? lat0) then Normal None
     else Normal (Some (str "und-efi-nedu"))) /\
  (PrimFloat.is_nan lat0 || PrimFloat.is_nan lon0 = true ->
   isWithinBounds lat0 lon0 = false) /\
  isValidDigipin (str "und-efi-nedu") = false /\
  decodeDigipin (num := float) (str "und-efi-nedu") = Normal None.
Proof.
  split; [|split; [|split; [|split; reflexivity]]].
  - apply IEEENaN.nan_lat.
  - apply IEEENaN.nan_lon.
  - apply IEEENaN.nan_not_within.
Qed.

Lemma encode_not_a_number_witness :
  encodeDigipin nan 70 = Throw /\
  encodeDigipin 12.5 nan = Normal (Some (str "und-efi-nedu")) /\
  isWithinBounds 12.5 nan = false.
Proof.
  split; [|split].
  - exact (proj1 (encode_not_a_number nan 70) eq_refl).
  - exact (proj1 (proj2 (encode_not_a_number 12.5 nan)) eq_refl eq_refl).
  - exact (proj1 (proj2 (proj2 (encode_not_a_number 12.5 nan))) eq_refl).
Defined.

Local Close Scope float_scope.

(** X6.  [CHAR_TO_POS] is the inverse of [DIGIPIN_GRID]: a character
    is mapped to [(r, c)] exactly when it stands in row [r] and column [c]
    of the grid; no symbol stands at two positions; the characters without
    an entry are those outside the sixteen symbols; the table has sixteen
    entries. *)
Theorem CHAR_TO_POS_inverts_grid :
  (forall ch r c,
     table_get CHAR_TO_POS ch = Some (r, c) <->
     (r < 4)%nat /\ (c < 4)%nat /\ symbol (r, c) = ch) /\
  (forall rc1 rc2, in_grid rc1 -> in_grid rc2 -> symbol rc1 = symbol rc2 -> rc1 = rc2) /\
  (forall ch, table_get CHAR_TO_POS ch = None <-> ~ In ch ALPHABET) /\
  List.length CHAR_TO_POS = 16%nat.
Proof.
  split; [|split; [|split; [exact CHAR_TO_POS_alphabet|reflexivity]]].
  - intros ch r c. split.
    + intros E. destruct (position_symbol ch (r, c) E) as [[R C] S]. now repeat split.
    + intros (R & C & <-). apply symbol_position. now split.
  - intros rc1 rc2 G1 G2 E.
    apply symbol_position in G1, G2. congruence.
Qed.

(** X7.  [formatDigipin] keeps what the parsers read: the formatted
    string has the normalised form of the input, so [isValidDigipin]
    accepts both or neither and [decodeDigipin] returns the same result for
    both.  Formatting is no validation: ten letters that are no symbols are
    grouped like a code. *)
Theorem formatDigipin_keeps_the_code (num : Type) (NUM : JsNumber num) (x : jstring) :
  normalize (formatDigipin x) = normalize x /\
  isValidDigipin (formatDigipin x) = isValidDigipin x /\
  decodeDigipin (num := num) (formatDigipin x) = decodeDigipin x /\
  formatDigipin (str "abcdefghij") = str "ABC-DEF-GHIJ" /\
  isValidDigipin (str "abcdefghij") = false.
Proof.
  assert (N : normalize (formatDigipin x) = normalize x).
  { unfold formatDigipin.
    destruct (Nat.eqb_spec (List.length (normalize x)) 10) as [L|L]; cbn [negb].
    - exact (normalize_hyphenate _ L (normalize_idem x)).
    - reflexivity. }
  split; [exact N|]. split; [|split; [|split; reflexivity]].
  - unfold isValidDigipin. now rewrite N.
  - unfold decodeDigipin. now rewrite N.
Qed.


Local Open Scope Q_scope.

(** In exact arithmetic the cells partition the region: an in-bounds
    point lies in the cell of the code it is encoded as, and in the cell of
    no other code. *)
Theorem cells_partition_the_region (lat0 lon0 : Q) :
  isWithinBounds lat0 lon0 = true ->
  exists (code : jstring) (d : decoded Q),
    encodeDigipin lat0 lon0 = Normal (Some code) /\
    decodeDigipin code = Normal (Some d) /\
    in_cell (bounds d) lat0 lon0 /\
    forall (code' : jstring) (d' : decoded Q),
      decodeDigipin code' = Normal (Some d') ->
      in_cell (bounds d') lat0 lon0 ->
      formatDigipin code' = code.
Proof.
  intros W.
  destruct (ExactCells.exact_encode_cell lat0 lon0 W) as (path & L & F & C & E).
  exists (code_of path), (cell (num := Q) (narrow_all REGION path)).
  split; [exact E|]. split; [exact (decode_code_of path L F)|]. split; [exact C|].
  intros code' d' D' C'.
  destruct (decoded_cell _ _ code' d' D') as (path' & L' & F' & _ & -> & ->).
  pose proof (ExactCodec.encode_in_cell lat0 lon0 path' L' F' C') as E'.
  congruence.
Qed.

Lemma cells_partition_the_region_witness :
  exists (code : jstring) (d : decoded Q),
    encodeDigipin (59 # 2) (145 # 2) = Normal (Some code) /\
    decodeDigipin code = Normal (Some d) /\
    in_cell (bounds d) (59 # 2) (145 # 2) /\
    forall (code' : jstring) (d' : decoded Q),
      decodeDigipin code' = Normal (Some d') ->
      in_cell (bounds d') (59 # 2) (145 # 2) ->
      formatDigipin code' = code.
Proof. apply (cells_partition_the_region (59 # 2) (145 # 2)). reflexivity. Defined.

Local Close Scope Q_scope.

(** X8.  [decodeDigipin] computes without rounding error: the centre and
    the four bounds that it returns in binary64 arithmetic are numbers, and
    their values are the rationals that the same loop computes in exact
    arithmetic. *)
Theorem decode_is_exact (code : jstring) (df : decoded float) :
  decodeDigipin code = Normal (Some df) ->
  exists dq : decoded Q,
    decodeDigipin code = Normal (Some dq) /\
    exactly (lat df) (lat dq) /\ exactly (lon df) (lon dq) /\
    exactly (minLat (bounds df)) (minLat (bounds dq)) /\
    exactly (maxLat (bounds df)) (maxLat (bounds dq)) /\
    exactly (minLon (bounds df)) (minLon (bounds dq)) /\
    exactly (maxLon (bounds df)) (maxLon (bounds dq)).
Proof.
  intros D.
  destruct (decoded_exactly code df D) as (dq & path & Dq & _ & _ & _ & _ & _ & E).
  exists dq. split; [exact Dq|exact E].
Qed.

Lemma decode_is_exact_witness :
  exists (df : decoded float) (dq : decoded Q),
    decodeDigipin (str "4P3-JM8-K4L6") = Normal (Some df) /\
    decodeDigipin (str "4P3-JM8-K4L6") = Normal (Some dq) /\
    exactly (lat df) (lat dq) /\ exactly (lon df) (lon dq).
Proof.
  eexists.
  destruct (decode_is_exact (str "4P3-JM8-K4L6") _ eq_refl) as (dq & D & A & O & _).
  exists dq. split; [reflexivity|]. split; [exact D|]. split; [exact A|exact O].
Defined.

Local Open Scope Q_scope.

(** X9.  The cell of a code in closed form, in binary64 arithmetic.  With
    [R] the rows and [C] the columns of the ten symbols, read as numbers in
    base 4, the cell is the [R]-th from the north and the [C]-th from the
    west among the [4^10] by [4^10] cells of side [9 / 2^18] degrees, and
    the centre is its midpoint; the doubles returned have these values. *)
Theorem decode_closed_form (code : jstring) (d : decoded float) :
  decodeDigipin code = Normal (Some d) ->
  exists path,
    positions (normalize code) path /\
    let R := row_index path in
    let C := col_index path in
    (0 <= R < 4 ^ 10)%Z /\ (0 <= C < 4 ^ 10)%Z /\
    exactly (maxLat (bounds d)) ((77 # 2) - inject_Z R * (9 # 262144)) /\
    exactly (minLat (bounds d)) ((77 # 2) - (inject_Z R + 1) * (9 # 262144)) /\
    exactly (minLon (bounds d)) ((127 # 2) + inject_Z C * (9 # 262144)) /\
    exactly (maxLon (bounds d)) ((127 # 2) + (inject_Z C + 1) * (9 # 262144)) /\
    exactly (lat d) ((77 # 2) - (inject_Z R + (1 # 2)) * (9 # 262144)) /\
    exactly (lon d) ((127 # 2) + (inject_Z C + (1 # 2)) * (9 # 262144)).
Proof.
  intros D.
  destruct (decoded_cell _ _ code d D) as (path & L & F & N & -> & _).
  exists path. split; [rewrite N; now apply positions_symbols|].
  cbv zeta.
  destruct (ExactCells.index_range path F) as [HR HC]. rewrite L in HR, HC.
  split; [exact HR|]. split; [exact HC|].
  destruct (IEEEExact.ieee_exact_path path L F) as (F1 & F2 & F3 & F4 & F5 & F6).
  cbn [bounds]. repeat split; assumption.
Qed.

Lemma decode_closed_form_witness :
  exists (d : decoded float) path,
    decodeDigipin (str "FFF-FFF-FFFJ") = Normal (Some d) /\
    positions (normalize (str "FFF-FFF-FFFJ")) path /\
    row_index path = 1%Z /\ col_index path = 0%Z /\
    exactly (maxLat (bounds d)) ((77 # 2) - inject_Z (row_index path) * (9 # 262144)).
Proof.
  eexists.
  destruct (decode_closed_form (str "FFF-FFF-FFFJ") _ eq_refl) as (path & P & _ & _ & M & _).
  exists path. split; [reflexivity|]. split; [exact P|].
  assert (E : path = [(0, 0); (0, 0); (0, 0); (0, 0); (0, 0); (0, 0); (0, 0); (0, 0);
                      (0, 0); (1, 0)]%nat).
  { clear M. vm_compute in P.
    repeat (match goal with
            | H : Forall2 _ (_ :: _) _ |- _ => inversion H; subst; clear H
            | H : Forall2 _ [] _ |- _ => inversion H; subst; clear H
            | H : Some _ = Some _ |- _ => injection H as <-
            end).
    reflexivity. }
  split; [now rewrite E|]. split; [now rewrite E|exact M].
Defined.

(** X10.  Codes with a common prefix name nearby places: when two codes
    that decode agree on the first [k] symbols of their normalised forms,
    the centres returned in binary64 arithmetic are less than [36 / 4^k]
    degrees apart in latitude and in longitude. *)
Theorem shared_prefix_nearby (c1 c2 : jstring) (d1 d2 : decoded float) (k : nat) :
  decodeDigipin c1 = Normal (Some d1) ->
  decodeDigipin c2 = Normal (Some d2) ->
  (k <= 10)%nat ->
  firstn k (normalize c1) = firstn k (normalize c2) ->
  exists a1 o1 a2 o2 : Q,
    value (lat d1) = Some a1 /\ value (lon d1) = Some o1 /\
    value (lat d2) = Some a2 /\ value (lon d2) = Some o2 /\
    let w := 36 / pow4 k in
    - w < a1 - a2 < w /\ - w < o1 - o2 < w.
Proof.
  intros D1 D2 K E.
  destruct (decoded_exactly c1 d1 D1)
    as (q1 & _ & Q1 & _ & _ & _ & _ & _ & (a1 & A1 & EA1) & (o1 & O1 & EO1) & _).
  destruct (decoded_exactly c2 d2 D2)
    as (q2 & _ & Q2 & _ & _ & _ & _ & _ & (a2 & A2 & EA2) & (o2 & O2 & EO2) & _).
  exists a1, o1, a2, o2. repeat (split; [assumption|]).
  pose proof (exact_shared_prefix c1 c2 q1 q2 k Q1 Q2 K E) as B. cbv zeta in B |- *.
  rewrite EA1, EA2, EO1, EO2. exact B.
Qed.

Lemma shared_prefix_nearby_witness :
  exists a1 o1 a2 o2 : Q,
    (exists d1 d2 : decoded float,
       decodeDigipin (str "4P3-JM8-K4L6") = Normal (Some d1) /\
       decodeDigipin (str "4P3-JM8-2222") = Normal (Some d2) /\
       value (lat d1) = Some a1 /\ value (lon d1) = Some o1 /\
       value (lat d2) = Some a2 /\ value (lon d2) = Some o2) /\
    - (36 / pow4 6) < a1 - a2 < 36 / pow4 6 /\
    - (36 / pow4 6) < o1 - o2 < 36 / pow4 6.
Proof.
  destruct (shared_prefix_nearby (str "4P3-JM8-K4L6") (str "4P3-JM8-2222") _ _ 6
              eq_refl eq_refl ltac:(repeat constructor) eq_refl)
    as (a1 & o1 & a2 & o2 & A1 & O1 & A2 & O2 & B).
  exists a1, o1, a2, o2. split; [|exact B].
  do 2 eexists. repeat split; try reflexivity; assumption.
Defined.

Local Close Scope Q_scope.
Local Open Scope float_scope.
Import AppFacts.



(** X13.  A code that decodes is located at the centre of its cell and
    shown in display form, with the rectangle of its cell, wherever it
    comes from: typed into the search box ([handleSearch], which then makes
    no request to the geocoding service), given as [?pin=] in the address
    ([initUrlHandler], and the call it schedules), or the default code
    ([showDefaultLocation]). *)
Theorem valid_digipin_is_located (code : jstring) (d : decoded float) (inView : bool)
    (mapZoom : float) (p : page) :
  decodeDigipin code = Normal (Some d) ->
  (exists p' : page,
     setLocation (lat d) (lon d) (Some 18) true inView mapZoom p = Normal p' /\
     located (lat d) (lon d) (formatDigipin code) (Some (bounds d)) true p p' /\
     (trim (searchInput p) = code ->
      handleSearch inView mapZoom p
      = Normal (emit closeSidebarOnMobile
                     (emit (showToast "DigiPIN located!" "success") p')))) /\
  (forall parseFloat, params_get (search p) (str "pin") = Some code ->
   initUrlHandler parseFloat p
   = Normal (true, emit (setTimeout (later_setLocation (lat d) (lon d) (Some 18) false)
                                    500) p)) /\
  (exists p' : page,
     run (later_setLocation (lat d) (lon d) (Some 18) false) inView mapZoom p = Normal p' /\
     located (lat d) (lon d) (formatDigipin code) (Some (bounds d)) false p p') /\
  (exists (d0 : decoded float) (p' : page),
     decodeDigipin DEFAULT_DIGIPIN = Normal (Some d0) /\
     showDefaultLocation inView mapZoom p = Normal p' /\
     located (lat d0) (lon d0) DEFAULT_DIGIPIN (Some (bounds d0)) false p p').
Proof.
  intros D. split; [|split; [|split]].
  - destruct (setLocation_decoded code d (Some 18) true inView mapZoom p D) as (q & S & H).
    exists q. split; [exact S|]. split; [exact H|]. intros T.
    destruct (handleSearch_decoded code d inView mapZoom p T D) as (q' & S' & _ & ->).
    congruence.
  - intros parseFloat G. exact (initUrlHandler_pin parseFloat code d p G D).
  - exact (setLocation_decoded code d (Some 18) false inView mapZoom p D).
  - eexists.
    destruct (setLocation_decoded DEFAULT_DIGIPIN _ (Some 15) false inView mapZoom p eq_refl)
      as (q & S & H).
    exists q. split; [reflexivity|]. split; [|exact H].
    unfold showDefaultLocation.
    change (decodeDigipin (num := float) DEFAULT_DIGIPIN) with
      (Normal (Some (cell (num := float) (narrow_all REGION
         [(2, 1); (3, 2); (1, 1); (1, 0); (3, 1); (0, 3); (2, 0); (2, 1); (3, 0); (2, 3)]%nat)))).
    cbn [bind]. exact S.
Qed.

Lemma valid_digipin_is_located_witness :
  exists (d : decoded float) (p' : page),
    decodeDigipin (str "4p3jm8k4l6") = Normal (Some d) /\
    run (later_setLocation (lat d) (lon d) (Some 18) false) true 5 (initial []) = Normal p' /\
    located (lat d) (lon d) (str "4P3-JM8-K4L6") (Some (bounds d)) false (initial []) p'.
Proof.
  eexists.
  destruct (valid_digipin_is_located (str "4p3jm8k4l6") _ true 5 (initial []) eq_refl)
    as (_ & _ & (p' & R & H) & _).
  exists p'. split; [reflexivity|]. split; [exact R|exact H].
Defined.

(** X14.  The address written by [setLocation] leads back to the same
    code.  After [setLocation] on an in-bounds point, the address has the
    code shown as its [pin] and none of [lat], [lng], [lon], [q]; on a page
    with that address [initUrlHandler] schedules a [setLocation] on the
    centre of the cell, and that call shows the same code, with the same
    rectangle. *)
Theorem share_link_round_trip (lat0 lon0 : float) (zoom : option float) (inView : bool)
    (mapZoom : float) (p : page) :
  isWithinBounds lat0 lon0 = true ->
  exists (code : jstring) (d : decoded float) (p1 : page),
    setLocation lat0 lon0 zoom true inView mapZoom p = Normal p1 /\
    currentLocation p1 = Some (lat0, lon0, code) /\
    decodeDigipin code = Normal (Some d) /\
    params_get (search p1) (str "pin") = Some code /\
    params_get (search p1) (str "lat") = None /\
    params_get (search p1) (str "lng") = None /\
    params_get (search p1) (str "lon") = None /\
    params_get (search p1) (str "q") = None /\
    forall (parseFloat : option jstring -> float) (p2 : page),
      search p2 = search p1 ->
      let f := later_setLocation (lat d) (lon d) (Some 18) false in
      initUrlHandler parseFloat p2 = Normal (true, emit (setTimeout f 500) p2) /\
      forall (inView' : bool) (mapZoom' : float) (p3 : page),
        exists p4 : page,
          run f inView' mapZoom' p3 = Normal p4 /\
          located (lat d) (lon d) code (Some (bounds d)) false p3 p4.
Proof.
  intros W.
  destruct (setLocation_valid lat0 lon0 zoom true inView mapZoom p W)
    as (code & d & p1 & E & V & Fm & D & S & H).
  exists code, d, p1. split; [exact S|].
  destruct H as (H1 & _ & _ & H4 & _). split; [exact H1|]. split; [exact D|].
  destruct (decoded_valid _ _ code d D) as (_ & c & s & ->).
  rewrite H4.
  destruct (updateUrlState_pin c s p) as (G1 & G2 & G3 & G4 & G5).
  repeat (split; [assumption|]).
  intros parseFloat p2 Q f. split.
  - apply (initUrlHandler_pin parseFloat (c :: s) d p2); [|exact D].
    now rewrite Q.
  - intros inView' mapZoom' p3.
    destruct (setLocation_decoded (c :: s) d (Some 18) false inView' mapZoom' p3 D)
      as (p4 & S4 & H).
    exists p4. split; [exact S4|]. now rewrite Fm in H.
Qed.

Lemma share_link_round_trip_witness :
  exists (code : jstring) (d : decoded float) (p1 : page),
    setLocation 12.5 77.5 None true true 5 (initial []) = Normal p1 /\
    currentLocation p1 = Some (12.5, 77.5, code) /\
    decodeDigipin code = Normal (Some d) /\
    params_get (search p1) (str "pin") = Some code.
Proof.
  destruct (share_link_round_trip 12.5 77.5 None true 5 (initial []) eq_refl)
    as (code & d & p1 & S & C & D & G & _).
  exists code, d, p1. split; [exact S|]. split; [exact C|]. split; [exact D|exact G].
Defined.

(** X15.  [initUrlHandler] never throws, whatever the address and
    whatever [parseFloat] makes of it: it does nothing and returns [false];
    or it fills the search box from [q] and schedules [handleSearch]; or it
    schedules a [setLocation] that, when run, sets the location with a
    valid code and its rectangle. *)
Theorem initUrlHandler_outcome (parseFloat : option jstring -> float) (p : page) :
  initUrlHandler parseFloat p = Normal (false, p) \/
  (exists (c : jchar) (q : jstring),
     params_get (search p) (str "q") = Some (c :: q) /\
     initUrlHandler parseFloat p
     = Normal (true, emit (setTimeout later_handleSearch 500)
                          (set_searchInput (c :: q) p))) \/
  (exists lat0 lon0 : float,
     initUrlHandler parseFloat p
     = Normal (true, emit (setTimeout (later_setLocation lat0 lon0 (Some 18) false) 500)
                          p) /\
     forall (inView : bool) (mapZoom : float) (p1 : page),
       exists (code : jstring) (d : decoded float) (p2 : page),
         encodeDigipin lat0 lon0 = Normal (Some code) /\
         isValidDigipin code = true /\
         decodeDigipin code = Normal (Some d) /\
         run (later_setLocation lat0 lon0 (Some 18) false) inView mapZoom p1 = Normal p2 /\
         located lat0 lon0 code (Some (bounds d)) false p1 p2).
Proof.
  destruct (initUrlHandler_cases parseFloat p) as [H|[H|(lat0 & lon0 & W & H)]].
  - now left.
  - right. now left.
  - right. right. exists lat0, lon0. split; [exact H|].
    intros inView mapZoom p1.
    destruct (setLocation_valid lat0 lon0 (Some 18) false inView mapZoom p1 W)
      as (code & d & p2 & E & V & _ & D & S & L).
    now exists code, d, p2.
Qed.

(** X16.  The page stays consistent: the code in [currentLocation] is
    the one [encodeDigipin] gives for the point in [currentLocation], the
    marker is on that point, and the rectangle on the map is the one of the
    code, when the code decodes.  This holds at the start and is kept by
    every handler that completes. *)
Theorem page_stays_consistent :
  (forall s, consistent (initial s)) /\
  (forall lat0 lon0 zoom updateUrl inView mapZoom p p',
     consistent p ->
     setLocation lat0 lon0 zoom updateUrl inView mapZoom p = Normal p' -> consistent p') /\
  (forall lat0 lng0 inView mapZoom p p',
     consistent p ->
     handleMapClick lat0 lng0 inView mapZoom p = Normal p' -> consistent p') /\
  (forall latitude longitude inView mapZoom p p',
     consistent p ->
     locateUser_found latitude longitude inView mapZoom p = Normal p' -> consistent p') /\
  (forall inView mapZoom p p',
     consistent p -> showDefaultLocation inView mapZoom p = Normal p' -> consistent p') /\
  (forall inView mapZoom p p',
     consistent p -> handleSearch inView mapZoom p = Normal p' -> consistent p') /\
  (forall parseFloat p b p',
     consistent p -> initUrlHandler parseFloat p = Normal (b, p') -> consistent p') /\
  (forall f inView mapZoom p p',
     consistent p -> run f inView mapZoom p = Normal p' -> consistent p').
Proof.
  split; [intros s; exact I|].
  split; [exact setLocation_consistent|].
  split.
  { intros lat0 lng0 inView mapZoom p p' C. unfold handleMapClick.
    destruct (isWithinBounds lat0 lng0); cbn [negb].
    - now apply setLocation_consistent.
    - intros H. injection H as <-. now apply consistent_emit. }
  split.
  { intros latitude longitude inView mapZoom p p' C. unfold locateUser_found.
    destruct (isWithinBounds latitude longitude); cbn [negb].
    - destruct (setLocation latitude longitude (Some 18) true inView mapZoom p)
        as [q|] eqn:S; cbn [bind]; [|discriminate].
      intros H. injection H as <-. do 2 apply consistent_emit.
      exact (setLocation_consistent _ _ _ _ _ _ p q C S).
    - intros H. injection H as <-. now apply consistent_emit. }
  split.
  { intros inView mapZoom p p' C. unfold showDefaultLocation.
    destruct (decodeDigipin (num := float) DEFAULT_DIGIPIN) as [[d|]|]; cbn [bind].
    - now apply setLocation_consistent.
    - intros H. now injection H as <-.
    - discriminate. }
  split; [exact handleSearch_consistent|].
  split.
  { intros parseFloat p b p' C H.
    destruct (initUrlHandler_cases parseFloat p)
      as [E|[(c & q & _ & E)|(lat0 & lon0 & _ & E)]];
      rewrite E in H; injection H as <- <-.
    - exact C.
    - apply consistent_emit. now destruct p.
    - now apply consistent_emit. }
  intros [lat0 lon0 zoom u|] inView mapZoom p p' C; cbn [run].
  - now apply setLocation_consistent.
  - now apply handleSearch_consistent.
Qed.
